(** * Flight Management System: the flight graph engine

    A shallow embedding of [Classes/FlightManagementSystem.cpp] and
    [Classes/FlightManagementSystem.h].  The graph class the system is built
    on ([Graph.h], [Graph.cpp]) and the value classes [Airport], [Airline]
    are declared outside these two files; what the embedding needs of them
    is modelled from the design document and marked as such. *)

From Stdlib Require Import ZArith Lia.
From stdpp Require Import base option list strings gmap sorting.

Local Open Scope string_scope.
Local Open Scope list_scope.
Local Open Scope Z_scope.

#[local] Set Warnings "-clear-no-such-hyp".

(** ** Failure *)

(** [NotFound] is the design's error for a lookup by an absent airport code.
    [Undefined] stands for the executions C++ leaves undefined: indexing a
    vector out of range and dereferencing the end iterator of a table. *)
Inductive Error : Type :=
  | NotFound
  | Undefined.

Inductive result (A : Type) : Type :=
  | Ok (a : A)
  | Err (e : Error).
Arguments Ok {A} a.
Arguments Err {A} e.

#[global] Instance result_ret : MRet result := fun _ a => Ok a.
#[global] Instance result_bind : MBind result := fun _ _ f m =>
  match m with
  | Ok a => f a
  | Err e => Err e
  end.

#[global] Instance result_fmap : FMap result := fun _ _ f m =>
  match m with
  | Ok a => Ok (f a)
  | Err e => Err e
  end.

#[global] Instance Error_eq_dec : EqDecision Error.
Proof. solve_decision. Defined.

(** ** Data model *)

(** [double] values are physical distances.  The code only adds them and
    compares them with [<]; they are modelled as integers (a fixed-point
    distance), with [DBL_MAX] the largest finite binary64 value. *)
Definition double : Type := Z.
Definition DBL_MAX : double := 2 ^ 1024 - 2 ^ 971.

(** Modelled from the spec: [Edge] of [Graph.h]: a directed edge carries its
    destination vertex (here: the destination's code), the operating airline
    code and the physical distance. *)
Record Edge : Type := mkEdge {
  dest : string;
  airline : string;
  distance : double
}.

(** Modelled from the spec: [Vertex] of [Graph.h]: the airport code and the
    owned list of outgoing edges.  The traversal scratch fields are reset
    around every traversal and are not part of the model. *)
Record Vertex : Type := mkVertex {
  info : string;
  adj : list Edge
}.

(** Modelled from the spec: [Graph] of [Graph.h]: the vertex set. *)
Definition Graph : Type := list Vertex.

(** Modelled from the spec: [Airport] and [Airline] of [Airport.h] and
    [Airline.h] (the geographic position is not used by the queries below). *)
Record Airport : Type := mkAirport {
  code : string;
  name : string;
  city : string;
  country : string
}.

Record Airline : Type := mkAirline {
  airline_code : string;
  airline_name : string
}.

(** [struct Route] of [FlightManagementSystem.h]. *)
Record Route : Type := mkRoute {
  source : string;
  target : string;
  airlines : list string
}.

#[global] Instance Route_eq_dec : EqDecision Route.
Proof. solve_decision. Defined.

(** The private members of [class FlightManagementSystem]. *)
Record FlightManagementSystem : Type := mkFMS {
  fms_airlines : gmap string Airline;
  airports : gmap string Airport;
  flights : Graph
}.

(** ** The flight graph *)

Module Graph.

(** Modelled from the spec: [Graph::findVertex]; a lookup by an absent
    airport code fails with [NotFound]. *)
Definition findVertex (g : Graph) (c : string) : result Vertex :=
  match list_find (λ v, info v = c) g with
  | Some (_, v) => Ok v
  | None => Err NotFound
  end.

(** Modelled from the spec: [Vertex::getOutdegree], the number of outgoing
    edges. *)
Definition getOutdegree (v : Vertex) : Z := Z.of_nat (length (adj v)).

(** The outgoing edges of a code; no edges for a code without a vertex. *)
Definition adjOf (g : Graph) (c : string) : list Edge :=
  match findVertex g c with
  | Ok v => adj v
  | Err _ => []
  end.

(** Modelled from the spec: the airline restriction of the shortest path
    search; an empty filter is no restriction. *)
Definition allowed (sel : list string) (e : Edge) : bool :=
  match sel with
  | [] => true
  | _ => bool_decide (airline e ∈ sel)
  end.

Definition succs (g : Graph) (sel : list string) (c : string) : list string :=
  dest <$> filter (λ e, allowed sel e = true) (adjOf g c).

(** The codes of [cs] not seen before, each at its first occurrence: a
    vertex is enqueued the first time it is discovered. *)
Fixpoint discover (seen cs : list string) : list string :=
  match cs with
  | [] => []
  | c :: cs' =>
      if decide (c ∈ seen) then discover seen cs'
      else c :: discover (c :: seen) cs'
  end.

(** One layer of the breadth-first search: the codes first discovered from
    the frontier. *)
Definition next_layer (g : Graph) (sel : list string)
    (visited frontier : list string) : list string :=
  discover visited (frontier ≫= succs g sel).

(** Modelled from the spec: the breadth-first layered search from the
    source; layer [k] holds the codes at distance [k].  The search stops at
    the first empty layer; [fuel] bounds the number of layers. *)
Fixpoint layers_from (g : Graph) (sel : list string) (fuel : nat)
    (visited frontier : list string) : list (list string) :=
  match fuel with
  | O => []
  | S fuel' =>
      match frontier with
      | [] => []
      | _ =>
          let next := next_layer g sel visited frontier in
          frontier :: layers_from g sel fuel' (visited ++ next) next
      end
  end.

(** Every layer after the first holds destinations of edges, so there are
    at most as many non-empty layers as edges, plus one. *)
Definition bfs_fuel (g : Graph) : nat := S (S (length (g ≫= adj))).

Definition bfs_layers (g : Graph) (sel : list string) (s : string)
    : list (list string) :=
  layers_from g sel (bfs_fuel g) [s] [s].

(** The distance of a code: the index of the layer that holds it. *)
Definition layer_index (ls : list (list string)) (c : string) : option nat :=
  fst <$> list_find (λ l, c ∈ l) ls.

(** Modelled from the spec: the backward reconstruction; [reconstruct n v]
    are the paths from the source to [v], for [v] at distance [n]: every
    edge [(u, v)] with [distance u + 1 = distance v] is followed. *)
Fixpoint reconstruct (g : Graph) (sel : list string) (s : string)
    (ls : list (list string)) (n : nat) (v : string) : list (list string) :=
  match n with
  | O => if decide (v = s) then [[s]] else []
  | S n' =>
      u ← mjoin ls;
      e ← adjOf g u;
      if decide (allowed sel e = true ∧ dest e = v ∧ layer_index ls u = Some n')
      then (λ p, p ++ [v]) <$> reconstruct g sel s ls n' u
      else []
  end.

(** Modelled from the spec: [Graph::shortestPathsBFS]: every shortest path
    (by hop count) from [s] to [d] as a sequence of airport codes, over the
    edges of the selected airlines; [NotFound] when a code is absent, no
    path when [d] is not reached. *)
Definition shortestPathsBFS (g : Graph) (s d : string) (sel : list string)
    : result (list (list string)) :=
  _ ← findVertex g s;
  _ ← findVertex g d;
  let ls := bfs_layers g sel s in
  match layer_index ls d with
  | Some n => Ok (reconstruct g sel s ls n d)
  | None => Ok []
  end.



End Graph.

(** ** Simple queries *)

(** [airports.find(code)->second]: dereferencing the end iterator is
    undefined. *)
Definition airport_at (fms : FlightManagementSystem) (c : string) : result Airport :=
  match airports fms !! c with
  | Some a => Ok a
  | None => Err Undefined
  end.

(** Unsigned arithmetic on [size_t]. *)
Definition size_t_sub (a b : Z) : Z := (a - b) mod 2 ^ 64.

Definition getNumberOfFlightsFromAirport (fms : FlightManagementSystem)
    (airportCode : string) : result Z :=
  vertex ← Graph.findVertex (flights fms) airportCode;
  mret (Graph.getOutdegree vertex).

Definition getNumberOfAirlinesFromAirport (fms : FlightManagementSystem)
    (airportCode : string) : result Z :=
  vertex ← Graph.findVertex (flights fms) airportCode;
  let codes : gset string := list_to_set (airline <$> adj vertex) in
  mret (Z.of_nat (size codes)).

Definition getNumberOfCountriesFromAirport (fms : FlightManagementSystem)
    (airportCode : string) : result Z :=
  vertex ← Graph.findVertex (flights fms) airportCode;
  cs ← mapM (λ e, country <$> airport_at fms (dest e)) (adj vertex);
  let countries : gset string := list_to_set cs in
  mret (Z.of_nat (size countries)).

(** ** Reachable destinations *)

(** The second loop of the two reachability queries: the flags stay set
    unless an airport other than the source has the source's city name,
    respectively country. *)
Fixpoint reachableFlags (fms : FlightManagementSystem) (airportCode : string)
    (codes : list string) (flags : bool * bool) : result (bool * bool) :=
  match codes with
  | [] => mret flags
  | code :: rest =>
      if decide (code ≠ airportCode) then
        a ← airport_at fms code;
        src ← airport_at fms airportCode;
        reachableFlags fms airportCode rest
          (if decide (city a = city src) then false else flags.1,
           if decide (country a = country src) then false else flags.2)
      else reachableFlags fms airportCode rest flags
  end.

(** The part the two reachability queries share, from the list of
    destinations on: the three numbers printed.  (The order in which the
    second loop visits the set of codes does not change its outcome.) *)
Definition reachableCounts (fms : FlightManagementSystem)
    (airportCode : string) (destinations : list string)
    : result (Z * Z * Z) :=
  infos ← mapM (airport_at fms) destinations;
  let airports : gset string := list_to_set destinations in
  let cities : gset (string * string) :=
    list_to_set ((λ a, (city a, country a)) <$> infos) in
  let countries : gset string := list_to_set (country <$> infos) in
  flags ← reachableFlags fms airportCode (elements airports) (true, true);
  mret (size_t_sub (Z.of_nat (size airports)) 1,
        size_t_sub (Z.of_nat (size cities)) (Z.b2z flags.1),
        size_t_sub (Z.of_nat (size countries)) (Z.b2z flags.2)).



(** ** Best flight options *)

(** The inner loop of [findBestFlightOptions]: the airline of every edge of
    [s] that leads to [t], in adjacency order. *)
Definition flightAirlines (s : Vertex) (t : string) : list string :=
  airline <$> filter (λ e, dest e = t) (adj s).

(** The same loop in the overload with selected airlines. *)
Definition flightAirlinesIn (selectedAirlines : list string)
    (s : Vertex) (t : string) : list string :=
  airline <$> filter (λ e, dest e = t ∧ airline e ∈ selectedAirlines) (adj s).

(** The loop [for (int i = 0; i < path.size() - 1; i++)] over one path of
    airport codes, parameterised by the airline collection of a hop.  On an
    empty path the unsigned bound wraps around and [path[0]] is read. *)
Fixpoint routePath (g : Graph) (hop : Vertex → string → list string)
    (path : list string) : result (list Route) :=
  match path with
  | [] => Err Undefined
  | a :: rest =>
      match rest with
      | [] => mret []
      | b :: _ =>
          s ← Graph.findVertex g a;
          rs ← routePath g hop rest;
          mret (mkRoute a b (hop s b) :: rs)
      end
  end.

(** [if (find(paths.begin(), paths.end(), routePath) == paths.end())
    paths.push_back(routePath);] *)
Definition push_new (paths : list (list Route)) (rp : list Route)
    : list (list Route) :=
  if decide (rp ∈ paths) then paths else paths ++ [rp].

(** The outer loop over the shortest paths. *)
Fixpoint collectPaths (g : Graph) (hop : Vertex → string → list string)
    (paths : list (list Route)) (shortestPaths : list (list string))
    : result (list (list Route)) :=
  match shortestPaths with
  | [] => mret paths
  | path :: rest =>
      rp ← routePath g hop path;
      collectPaths g hop (push_new paths rp) rest
  end.

Definition findBestFlightOptions (fms : FlightManagementSystem)
    (source destination : string) : result (list (list Route)) :=
  shortestPaths ← Graph.shortestPathsBFS (flights fms) source destination [];
  collectPaths (flights fms) flightAirlines [] shortestPaths.

(** The overload [findBestFlightOptions(source, destination,
    selectedAirlines)]. *)
Definition findBestFlightOptionsAirlines (fms : FlightManagementSystem)
    (source destination : string) (selectedAirlines : list string)
    : result (list (list Route)) :=
  shortestPaths ←
    Graph.shortestPathsBFS (flights fms) source destination selectedAirlines;
  collectPaths (flights fms) (flightAirlinesIn selectedAirlines) [] shortestPaths.

(** ** Smallest distance *)

(** The innermost loop of [findSmallestDistance]: the distance of the first
    edge of the hop's source that leads to the hop's target. *)
Definition hopDistance (g : Graph) (route : Route) : result double :=
  src ← Graph.findVertex g (source route);
  dst ← Graph.findVertex g (target route);
  mret (match list_find (λ e, dest e = info dst) (adj src) with
        | Some (_, e) => distance e
        | None => 0
        end).

Fixpoint totalDistance (g : Graph) (acc : double) (path : list Route)
    : result double :=
  match path with
  | [] => mret acc
  | route :: rest =>
      h ← hopDistance g route;
      totalDistance g (acc + h) rest
  end.

Fixpoint minDistance (g : Graph) (cur : double) (allPaths : list (list Route))
    : result double :=
  match allPaths with
  | [] => mret cur
  | path :: rest =>
      t ← totalDistance g 0 path;
      minDistance g (if bool_decide (t < cur) then t else cur) rest
  end.

(** The returned value of [findSmallestDistance] (the printed path is not
    modelled). *)
Definition findSmallestDistance (fms : FlightManagementSystem)
    (source destination : string) : result double :=
  if bool_decide (airports fms !! source = None ∨ airports fms !! destination = None)
  then mret 0
  else
    allPaths ← findBestFlightOptions fms source destination;
    minDistance (flights fms) DBL_MAX allPaths.

(** ** Minimising airlines *)

(** [airlineCount[airline]++] on a [std::unordered_map<string, int>], kept
    here as the list of its entries in order of insertion: the count of a
    known key is incremented in place, a new key is entered with count 1. *)
Fixpoint increment (m : list (string * nat)) (a : string)
    : list (string * nat) :=
  match m with
  | [] => [(a, 1%nat)]
  | (k, c) :: m' =>
      if decide (k = a) then (k, S c) :: m' else (k, c) :: increment m' a
  end.

Definition airlineCount (routes : list Route) : list (string * nat) :=
  foldl (λ m route, foldl increment m (airlines route)) [] routes.

Section UnorderedMap.

(** A range-for over a [std::unordered_map] visits the entries in an order
    the standard leaves to the implementation: [iteration m] is the order in
    which the entries of [m] are visited. *)
Variable iteration : list (string * nat) → list (string * nat).

Definition maxCount (m : list (string * nat)) : nat :=
  foldl (λ mx pair, if bool_decide (mx < pair.2)%nat then pair.2 else mx)
        0%nat (iteration m).

Definition frequentAirlines (m : list (string * nat)) : list string :=
  (filter (λ pair, pair.2 = maxCount m) (iteration m)).*1.

Definition minimizeAirlines (routes : list Route) : list Route :=
  let m := airlineCount routes in
  if decide (maxCount m = length routes)
  then (λ route, mkRoute (source route) (target route) (frequentAirlines m))
         <$> routes
  else routes.

End UnorderedMap.

(** An iteration order visits every entry once. *)
Definition iteration_order
    (iteration : list (string * nat) → list (string * nat)) : Prop :=
  ∀ m, iteration m ≡ₚ m.

Definition front_insertion_order (m : list (string * nat))
    : list (string * nat) := reverse m.

(** ** Longest trips *)

(** The body of the loop over the edges of the current vertex in
    [calcStopsBFS]: a destination not visited yet is pushed with the next
    distance and entered in the visited set. *)
Definition enqueueUnvisited (d : Z)
    (st : list (string * Z) * gset string) (edge : Edge)
    : list (string * Z) * gset string :=
  let w := dest edge in
  if decide (w ∈ st.2) then st
  else (st.1 ++ [(w, d + 1)], {[w]} ∪ st.2).

(** The update of [maxdistance] and [aux] at the front of the queue. *)
Definition noteFront (source current : string) (d : Z)
    (st : Z * list (string * string)) : Z * list (string * string) :=
  if bool_decide (d > st.1) then (d, [(source, current)])
  else if bool_decide (d = st.1) then (st.1, st.2 ++ [(source, current)])
  else st.

(** The loop [while (!q.empty())] of [calcStopsBFS].  A vertex is named by
    its code; [fuel] bounds the number of iterations. *)
Fixpoint calcStopsLoop (fuel : nat) (g : Graph) (source : string)
    (q : list (string * Z)) (visited : gset string)
    (st : Z * list (string * string)) : Z * list (string * string) :=
  match fuel with
  | O => st
  | S fuel' =>
      match q with
      | [] => st
      | (current, d) :: _ =>
          let st' := noteFront source current d st in
          let qv := foldl (enqueueUnvisited d) (q, visited)
                          (Graph.adjOf g current) in
          calcStopsLoop fuel' g source (tail qv.1) qv.2 st'
      end
  end.

(** [calcStopsBFS]: the returned distance and the final content of [aux].
    Every iteration pops a code that was pushed once, the source or the
    destination of an edge. *)
Definition calcStopsBFS (g : Graph) (source : string)
    (aux : list (string * string)) : Z * list (string * string) :=
  calcStopsLoop (Graph.bfs_fuel g) g source [(source, 0)] {[source]} (0, aux).

(** The loop of [getMaxTripWithStops] over the vertex set. *)
Definition maxTripStep (g : Graph) (st : Z * list (string * string))
    (sourceVertex : Vertex) : Z * list (string * string) :=
  let r := calcStopsBFS g (info sourceVertex) [] in
  if bool_decide (r.1 > st.1) then r
  else if bool_decide (r.1 = st.1) then (st.1, st.2 ++ r.2)
  else st.

(** [getMaxTripWithStops]: the number printed and the pairs of airports
    printed after it; printing a pair looks both codes up in the airports
    table. *)
Definition getMaxTripWithStops (fms : FlightManagementSystem)
    : result (Z * list (string * string)) :=
  let r := foldl (maxTripStep (flights fms)) (0, []) (flights fms) in
  _ ← mapM (λ a, _ ← airport_at fms a.1; airport_at fms a.2) r.2;
  mret r.

(** [findBestFlightOptionsWithFewestAirlines]: every itinerary of
    [findBestFlightOptions] is replaced by its minimised version. *)
Definition findBestFlightOptionsWithFewestAirlines
    (iteration : list (string * nat) → list (string * nat))
    (fms : FlightManagementSystem) (source destination : string)
    : result (list (list Route)) :=
  paths ← findBestFlightOptions fms source destination;
  mret (fmap (M := list) (minimizeAirlines iteration) paths).

(** ** Countries of a city *)

(** A loop whose body can fail. *)
Fixpoint foldM {A B : Type} (f : B → A → result B) (b : B) (l : list A)
    : result B :=
  match l with
  | [] => mret b
  | x :: l' => b' ← f b x; foldM f b' l'
  end.

(** The body of the loop over the vertex set: the countries of the
    destinations of a vertex whose airport lies in the given city are
    inserted. *)
Definition countriesFromCityStep (fms : FlightManagementSystem)
    (cityName countryName : string) (countries : gset string)
    (vertex : Vertex) : result (gset string) :=
  a ← airport_at fms (info vertex);
  if decide (city a = cityName ∧ country a = countryName) then
    cs ← mapM (λ e, country <$> airport_at fms (dest e)) (adj vertex);
    mret (countries ∪ list_to_set cs)
  else mret countries.

Definition getNumberOfCountriesFromCity (fms : FlightManagementSystem)
    (cityName countryName : string) : result Z :=
  countries ← foldM (countriesFromCityStep fms cityName countryName) ∅
                    (flights fms);
  mret (Z.of_nat (size countries)).

(** ** Printed output *)

(** What the queries write to [cout], one constructor per kind of line:
    a route with the names of its two airports and its airlines; the
    separator [Or...] between two itineraries; the header [Option n:]; an
    empty line; [Airport <name> doesn't exist]; [No Code available]. *)
Inductive Output : Type :=
| RouteLine (source sourceName target targetName : string)
            (airlines : list string)
| OrLine
| OptionLine (option : Z)
| EmptyLine
| NoAirportLine (name : string)
| NoCodeLine.

#[global] Instance Output_eq_dec : EqDecision Output.
Proof. solve_decision. Defined.

Definition printRoute (fms : FlightManagementSystem) (route : Route)
    : result (list Output) :=
  s ← airport_at fms (source route);
  t ← airport_at fms (target route);
  mret [RouteLine (source route) (name s) (target route) (name t)
                  (airlines route)].

(** The loop every query uses to print a list of itineraries: the routes of
    each one, and [Or...] after each but the last. *)
Fixpoint printItineraries (fms : FlightManagementSystem)
    (vec : list (list Route)) : result (list Output) :=
  match vec with
  | [] => mret []
  | flight :: rest =>
      lines ← mapM (printRoute fms) flight;
      more ← printItineraries fms rest;
      mret (mjoin lines ++ (if rest is [] then [] else [OrLine]) ++ more)
  end.

(** The body of the loops over the pairs of a source and a destination
    code: one numbered option.  (The [int] counter is taken in [Z], without
    overflow.) *)
Definition printOption (fms : FlightManagementSystem)
    (source destination : string) (st : Z * list Output)
    : result (Z * list Output) :=
  vec ← findBestFlightOptions fms source destination;
  shown ← printItineraries fms vec;
  mret (st.1 + 1, st.2 ++ [OptionLine st.1] ++ shown ++ [EmptyLine]).

(** ** Queries by airport name *)

(** The loop of [findBestFlightOptionsByAirportName] over the vertex set:
    it runs to the end, so the last vertex whose airport has the name is
    kept. *)
Definition byNameStep (fms : FlightManagementSystem)
    (source destination : string) (st : (string * bool) * (string * bool))
    (vertex : Vertex) : result ((string * bool) * (string * bool)) :=
  a ← airport_at fms (info vertex);
  mret (if decide (name a = source) then (info vertex, true) else st.1,
        if decide (name a = destination) then (info vertex, true) else st.2).

Definition findBestFlightOptionsByAirportName (fms : FlightManagementSystem)
    (source destination : string) : result (list Output) :=
  st ← foldM (byNameStep fms source destination) (("", false), ("", false))
             (flights fms);
  let '((s, flagSource), (d, flagDestination)) := st in
  if negb flagSource then mret [NoAirportLine source]
  else if negb flagDestination then mret [NoAirportLine destination]
  else
    vec ← findBestFlightOptions fms s d;
    printItineraries fms vec.

(** The loop with [break]: the first vertex whose airport has the name. *)
Fixpoint firstNamed (fms : FlightManagementSystem) (sourceName : string)
    (vertexSet : list Vertex) : result (string * bool) :=
  match vertexSet with
  | [] => mret ("", false)
  | vertex :: rest =>
      a ← airport_at fms (info vertex);
      if decide (name a = sourceName) then mret (info vertex, true)
      else firstNamed fms sourceName rest
  end.

(** ** Queries by city *)

(** The codes of the vertices whose airport lies in the city, in the order
    of the vertex set. *)
Definition cityCodesStep (fms : FlightManagementSystem)
    (cityName countryName : string) (codes : list string) (vertex : Vertex)
    : result (list string) :=
  a ← airport_at fms (info vertex);
  mret (if decide (city a = cityName ∧ country a = countryName)
        then codes ++ [info vertex] else codes).

Definition findBestFlightOptionsByAirportCodeToCityName
    (fms : FlightManagementSystem) (source : string)
    (destinationCity destinationCountry : string) : result (list Output) :=
  destinationCodes ←
    foldM (cityCodesStep fms destinationCity destinationCountry) []
          (flights fms);
  st ← foldM (λ st destination, printOption fms source destination st)
             (1, []) destinationCodes;
  mret st.2.

Definition findBestFlightOptionsByAirportNameToCityName
    (fms : FlightManagementSystem) (sourceName : string)
    (destinationCity destinationCountry : string) : result (list Output) :=
  found ← firstNamed fms sourceName (flights fms);
  let '(sourceCode, flagSource) := found in
  if negb flagSource then mret [NoAirportLine sourceName]
  else findBestFlightOptionsByAirportCodeToCityName fms sourceCode
         destinationCity destinationCountry.

(** Both lists of codes are filled in one loop over the vertex set. *)
Definition findBestFlightOptionsByCity (fms : FlightManagementSystem)
    (sourceCity sourceCountry destinationCity destinationCountry : string)
    : result (list Output) :=
  codes ←
    foldM (λ codes vertex,
             sourceCodes ← cityCodesStep fms sourceCity sourceCountry
                                         codes.1 vertex;
             destinationCodes ←
               cityCodesStep fms destinationCity destinationCountry
                             codes.2 vertex;
             mret (sourceCodes, destinationCodes))
          ([], []) (flights fms);
  st ← foldM (λ st source,
                foldM (λ st destination,
                         printOption fms source destination st)
                      st codes.2)
             (1, []) codes.1;
  mret st.2.

(** ** Queries by coordinates *)

Definition INT_MAX : Z := 2 ^ 31 - 1.

Section Coordinates.

(** [(int) position.haversineDistance(airport.getPosition())] for the
    position queried: the truncated distance from an airport to it. *)
Variable haversineDistance : Airport → Z.

(** The first loop stores the distance of every vertex in its [num]. *)
Definition setNums (fms : FlightManagementSystem)
    : result (list (Vertex * Z)) :=
  mapM (λ vertex, a ← airport_at fms (info vertex);
                  mret (vertex, haversineDistance a))
       (flights fms).

(** The second loop keeps the codes of the vertices at the least distance
    seen so far. *)
Definition nearestStep (st : Z * list string) (vertex : Vertex * Z)
    : Z * list string :=
  if bool_decide (vertex.2 < st.1) then (vertex.2, [info vertex.1])
  else if bool_decide (vertex.2 = st.1) then (st.1, st.2 ++ [info vertex.1])
  else st.

Definition nearestAirports (fms : FlightManagementSystem)
    : result (list string) :=
  nums ← setNums fms;
  mret (foldl nearestStep (INT_MAX, []) nums).2.

Definition findBestFlightOptionsByAirportCodeToCoordinates
    (fms : FlightManagementSystem) (source : string) : result (list Output) :=
  min ← nearestAirports fms;
  st ← foldM (λ st airport, printOption fms source airport st) (1, []) min;
  mret st.2.

Definition findBestFlightOptionsByCoordinates
    (fms : FlightManagementSystem) (destination : string)
    : result (list Output) :=
  min ← nearestAirports fms;
  if decide (airports fms !! destination = None) then mret [NoCodeLine]
  else
    st ← foldM (λ st airport, printOption fms airport destination st)
               (1, []) min;
    mret st.2.

End Coordinates.

(** ** Counting flights *)

(** The [int] counters of the two functions below count edges; they are
    taken in [Z], without overflow. *)
Definition getGlobalNumberOfFlights (fms : FlightManagementSystem) : Z :=
  foldl (λ count vertex, count + Graph.getOutdegree vertex) 0 (flights fms).

(** [airlines.find(code)->second]. *)
Definition airline_at (fms : FlightManagementSystem) (c : string)
    : result Airline :=
  match fms_airlines fms !! c with
  | Some a => Ok a
  | None => Err Undefined
  end.

(** [airlineFlights[airline]++] on a [std::map]: a new key starts at 0. *)
Definition countFlight (airlineFlights : gmap string Z) (edge : Edge)
    : gmap string Z :=
  <[airline edge := default 0 (airlineFlights !! airline edge) + 1]>
    airlineFlights.

(** A [std::map] is visited in increasing order of its keys. *)
Definition code_le (x y : string * Z) : Prop := String.leb x.1 y.1 = true.

#[global] Instance code_le_dec (x y : string * Z) : Decision (code_le x y).
Proof. unfold code_le. apply _. Defined.

Definition in_key_order (m : gmap string Z) : list (string * Z) :=
  merge_sort code_le (map_to_list m).

(** The lines printed: the airline's code, its name and its number of
    flights. *)
Definition numberOfFlightsPerAirline (fms : FlightManagementSystem)
    : result (list (string * string * Z)) :=
  let airlineFlights :=
    foldl (λ m vertex, foldl countFlight m (adj vertex)) ∅ (flights fms) in
  mapM (λ pair, a ← airline_at fms pair.1;
                mret (pair.1, airline_name a, pair.2))
       (in_key_order airlineFlights).

(** ** From a city to coordinates *)

(** Every source of the city gets a numbered header, followed by all that
    the query from that source prints, its own headers included. *)
Definition findBestFlightOptionsByCityToCoordinates
    (haversineDistance : Airport → Z) (fms : FlightManagementSystem)
    (sourceCity sourceCountry : string) : result (list Output) :=
  sourceCodes ←
    foldM (cityCodesStep fms sourceCity sourceCountry) [] (flights fms);
  st ← foldM (λ st source,
                shown ← findBestFlightOptionsByAirportCodeToCoordinates
                          haversineDistance fms source;
                mret (st.1 + 1, st.2 ++ [OptionLine st.1] ++ shown))
             (1, []) sourceCodes;
  mret st.2.

(** ** Hop distance *)

(** [hops g sel u v n]: [v] is reached from [u] in [n] hops over edges of the
    selected airlines. *)
Inductive hops (g : Graph) (sel : list string) (u : string)
    : string → nat → Prop :=
  | hops_O : hops g sel u u 0
  | hops_S v w n :
      hops g sel u v n → w ∈ Graph.succs g sel v → hops g sel u w (S n).

(** The shortest hop distance from [s] to [d] is [k]. *)
Definition hop_distance (g : Graph) (sel : list string) (s d : string)
    (k : nat) : Prop :=
  hops g sel s d k ∧ ∀ n, hops g sel s d n → (k ≤ n)%nat.

Definition present (g : Graph) (c : string) : Prop :=
  ∃ v, Graph.findVertex g c = Ok v.

(** A sequence of codes whose consecutive elements are joined by an edge of
    the selected airlines. *)
Fixpoint linked (g : Graph) (sel : list string) (p : list string) : Prop :=
  match p with
  | a :: rest =>
      match rest with
      | b :: _ => b ∈ Graph.succs g sel a ∧ linked g sel rest
      | [] => True
      end
  | [] => True
  end.

(** [p] is a sequence of [n] hops from [a] to [b]. *)
Definition route_of (g : Graph) (sel : list string) (a b : string) (n : nat)
    (p : list string) : Prop :=
  length p = S n ∧ head p = Some a ∧ last p = Some b ∧ linked g sel p.

(** Consecutive hops chain. *)
Fixpoint chained (it : list Route) : Prop :=
  match it with
  | r :: rest =>
      match rest with
      | r' :: _ => target r = source r' ∧ chained rest
      | [] => True
      end
  | [] => True
  end.

(** The hop between two consecutive codes of a path, and the itinerary of a
    path: what [routePath] builds when every vertex it looks up exists. *)
Definition hop_between (g : Graph) (hop : Vertex → string → list string)
    (a b : string) : Route :=
  mkRoute a b (match Graph.findVertex g a with
               | Ok v => hop v b
               | Err _ => []
               end).

Fixpoint itinerary (g : Graph) (hop : Vertex → string → list string)
    (p : list string) : list Route :=
  match p with
  | a :: rest =>
      match rest with
      | b :: _ => hop_between g hop a b :: itinerary g hop rest
      | [] => []
      end
  | [] => []
  end.

(** The count an entry list holds for a key (0 for an absent key). *)
Fixpoint count_of (m : list (string * nat)) (a : string) : nat :=
  match m with
  | [] => 0
  | (k, c) :: m' => if decide (k = a) then c else count_of m' a
  end.

(** How many times the airline code [a] is listed over all hops, and on how
    many hops it is listed. *)
Definition occurrences (a : string) (routes : list Route) : nat :=
  length (filter (λ x, x = a) (routes ≫= airlines)).

Definition hops_listing (a : string) (routes : list Route) : nat :=
  length (filter (λ route, a ∈ airlines route) routes).

Definition max_occurrences (routes : list Route) : nat :=
  max_list ((λ a, occurrences a routes) <$> (routes ≫= airlines)).


Definition with_airlines (F : list string) (route : Route) : Route :=
  mkRoute (source route) (target route) F.

(** Two itineraries with the same hops and, on every hop, the same airline
    codes up to their order. *)
Definition same_itinerary (it1 it2 : list Route) : Prop :=
  Forall2 (λ r1 r2, source r1 = source r2 ∧ target r1 = target r2 ∧
                    airlines r1 ≡ₚ airlines r2) it1 it2.

(** The airports an itinerary visits. *)
Definition endpoints (it : list Route) : list (string * string) :=
  (λ route, (source route, target route)) <$> it.



(** An itinerary restricted to the selected airlines: every hop keeps the
    airlines it lists that are selected. *)
Definition restrict_airlines (sel : list string) (it : list Route)
    : list Route :=
  (λ route, with_airlines (filter (λ a, a ∈ sel) (airlines route)) route) <$> it.

(** The [k]-th state of the layered search: the visited codes and the
    frontier. *)
Fixpoint state_at (g : Graph) (sel : list string) (s : string) (k : nat)
    : list string * list string :=
  match k with
  | O => ([s], [s])
  | S k' =>
      let st := state_at g sel s k' in
      let next := Graph.next_layer g sel st.1 st.2 in
      (st.1 ++ next, next)
  end.

(** The state of [calcStopsBFS] after the layers up to [k] have been
    popped: the distance and the content of [aux]. *)
Definition front_state (g : Graph) (s : string)
    (aux : list (string * string)) (k : nat) : Z * list (string * string) :=
  match k with
  | O => (0, aux ++ [(s, s)])
  | S _ => (Z.of_nat k, (λ c, (s, c)) <$> (state_at g [] s k).2)
  end.

(** No vertex has two edges to the same destination with the same
    airline. *)
Definition no_duplicate_flights (g : Graph) : Prop :=
  ∀ v, v ∈ g → NoDup ((λ e, (dest e, airline e)) <$> adj v).

(** The codes of a path that [routePath] looks up: all but the last. *)
Definition looked_up (p : list string) : list string :=
  take (pred (length p)) p.

#[global] Instance present_dec (g : Graph) (c : string) : Decision (present g c).
Proof.
  unfold present. destruct (Graph.findVertex g c) as [v|e].
  - left. by exists v.
  - right. by intros [? ?].
Defined.


(** The record of a code in the airports table. *)
Definition airport_of (fms : FlightManagementSystem) (c : string) : Airport :=
  default (mkAirport "" "" "" "") (airports fms !! c).

(** The codes listed other than the queried one, their cities and their
    countries. *)
Definition other_codes (airportCode : string) (destinations : list string)
    : gset string :=
  list_to_set destinations ∖ {[airportCode]}.

Definition locale (fms : FlightManagementSystem) (c : string) : string * string :=
  (city (airport_of fms c), country (airport_of fms c)).

Definition cities_of (fms : FlightManagementSystem) (codes : gset string)
    : gset (string * string) :=
  set_map (locale fms) codes.

Definition countries_of (fms : FlightManagementSystem) (codes : gset string)
    : gset string :=
  set_map (λ c, country (airport_of fms c)) codes.

(** Another listed airport has the queried airport's city name, but none is
    in the same city of the same country. *)
Definition namesake_city (fms : FlightManagementSystem) (airportCode : string)
    (codes : gset string) : Prop :=
  set_Exists (λ c, city (airport_of fms c) = city (airport_of fms airportCode))
             codes ∧
  locale fms airportCode ∉ cities_of fms codes.

(** Every vertex code is a key of the airports table. *)
Definition table_complete (fms : FlightManagementSystem) : Prop :=
  ∀ v, v ∈ flights fms → is_Some (airports fms !! info v).

(** The codes of the vertices whose airport has a name, respectively lies
    in a city, in the order of the vertex set. *)
Definition named (fms : FlightManagementSystem) (nm : string)
    (vertexSet : list Vertex) : list string :=
  info <$> filter (λ v, name (airport_of fms (info v)) = nm) vertexSet.

Definition in_city (fms : FlightManagementSystem)
    (cityName countryName : string) (vertexSet : list Vertex) : list string :=
  info <$> filter (λ v, city (airport_of fms (info v)) = cityName ∧
                        country (airport_of fms (info v)) = countryName)
                  vertexSet.

(** The numbers of the option headers printed. *)
Definition option_lines (out : list Output) : list Z :=
  omap (λ o, if o is OptionLine n then Some n else None) out.

(** The vertices none of which is closer to the position queried. *)
Definition closest (haversineDistance : Airport → Z)
    (fms : FlightManagementSystem) : list string :=
  info <$>
  filter (λ v, Forall (λ w, haversineDistance (airport_of fms (info v)) ≤
                            haversineDistance (airport_of fms (info w)))
                      (flights fms))
         (flights fms).

(** The distances fit the type [int]. *)
Definition int_distances (haversineDistance : Airport → Z)
    (fms : FlightManagementSystem) : Prop :=
  ∀ v, v ∈ flights fms →
       haversineDistance (airport_of fms (info v)) ≤ INT_MAX.

(** The number of edges of the graph operated by an airline. *)
Definition flights_of (g : Graph) (a : string) : Z :=
  Z.of_nat (length (filter (λ e, airline e = a) (g ≫= adj))).

Definition sumZ (l : list Z) : Z := foldr Z.add 0 l.

(** Every airline of an edge is a key of the airlines table. *)
Definition airlines_complete (fms : FlightManagementSystem) : Prop :=
  ∀ v e, v ∈ flights fms → e ∈ adj v →
         is_Some (fms_airlines fms !! airline e).

(** The record of a code in the airlines table. *)
Definition airline_of (fms : FlightManagementSystem) (c : string) : Airline :=
  default (mkAirline "" "") (fms_airlines fms !! c).

(** The line [printRoute] writes for a route. *)
Definition route_line (fms : FlightManagementSystem) (route : Route) : Output :=
  RouteLine (source route) (name (airport_of fms (source route)))
            (target route) (name (airport_of fms (target route)))
            (airlines route).

(** The two airports of every route are keys of the airports table. *)
Definition routes_in_table (fms : FlightManagementSystem)
    (vec : list (list Route)) : Prop :=
  Forall (Forall (λ route, is_Some (airports fms !! source route) ∧
                           is_Some (airports fms !! target route))) vec.

(** ** Example systems *)

Definition airport (c : string) : Airport := mkAirport c c c c.

(** Edges A→B (X, 100), B→C (Y, 150), A→C (X, 300). *)
Definition triangle : FlightManagementSystem :=
  mkFMS ∅
    (list_to_map [("A", airport "A"); ("B", airport "B"); ("C", airport "C")])
    [ mkVertex "A" [mkEdge "B" "X" 100; mkEdge "C" "X" 300];
      mkVertex "B" [mkEdge "C" "Y" 150];
      mkVertex "C" [] ].

(** Two parallel edges A→B: airline X (200) and airline Y (100). *)
Definition parallel : FlightManagementSystem :=
  mkFMS ∅
    (list_to_map [("A", airport "A"); ("B", airport "B")])
    [ mkVertex "A" [mkEdge "B" "X" 200; mkEdge "B" "Y" 100];
      mkVertex "B" [] ].

(** Edges A→C (X, 300), A→B (Y, 100), B→C (Y, 150): the direct flight is
    not operated by airline Y. *)
Definition detour : FlightManagementSystem :=
  mkFMS ∅
    (list_to_map [("A", airport "A"); ("B", airport "B"); ("C", airport "C")])
    [ mkVertex "A" [mkEdge "C" "X" 300; mkEdge "B" "Y" 100];
      mkVertex "B" [mkEdge "C" "Y" 150];
      mkVertex "C" [] ].


(** One hop operated by two airlines, and two hops sharing two airlines. *)
Definition one_hop : list Route := [mkRoute "A" "B" ["X"; "Y"]].
Definition two_hops : list Route :=
  [mkRoute "A" "B" ["X"; "Y"]; mkRoute "B" "C" ["Y"; "Z"; "X"]].

(** Two airports in cities of the same name in different countries, joined
    by one flight. *)
Definition namesakes : FlightManagementSystem :=
  mkFMS ∅
    (list_to_map [("A", mkAirport "A" "A" "Paris" "France");
                  ("B", mkAirport "B" "B" "Paris" "United States")])
    [ mkVertex "A" [mkEdge "B" "X" 100];
      mkVertex "B" [] ].

(** Two airports with the same name, P before Q in the vertex set, each
    with a flight to R. *)
Definition homonyms : FlightManagementSystem :=
  mkFMS ∅
    (list_to_map [("P", mkAirport "P" "Main" "P" "P");
                  ("Q", mkAirport "Q" "Main" "Q" "Q");
                  ("R", mkAirport "R" "Other" "R" "R")])
    [ mkVertex "P" [mkEdge "R" "X" 100];
      mkVertex "Q" [mkEdge "R" "Y" 100];
      mkVertex "R" [] ].

(** Distances under which C is the closest airport of the triangle. *)
Definition toward_C (a : Airport) : Z :=
  if decide (code a = "C") then 5 else 7.

(** The triangle with its two airlines in the airlines table. *)
Definition triangle_airlines : FlightManagementSystem :=
  mkFMS (list_to_map [("X", mkAirline "X" "Xenon Air");
                      ("Y", mkAirline "Y" "Yonder Air")])
        (airports triangle) (flights triangle).

(** ** The layered search *)

Section Layers.
Context (g : Graph) (sel : list string) (s : string).

Local Abbreviation V k := (state_at g sel s k).1.
Local Abbreviation L k := (state_at g sel s k).2.

Lemma elem_of_discover seen cs c :
  c ∈ Graph.discover seen cs ↔ (c ∉ seen) ∧ c ∈ cs.
Proof.
  revert seen. induction cs as [|x cs IH]; intros seen; simpl.
  - split; [by intros ?%elem_of_nil|]. by intros [_ ?%elem_of_nil].
  - case_decide as Hx.
    + rewrite IH, elem_of_cons. naive_solver.
    + rewrite !elem_of_cons, IH, elem_of_cons.
      destruct (decide (c = x)) as [->|Hne]; naive_solver.
Qed.

Lemma NoDup_discover seen cs : NoDup (Graph.discover seen cs).
Proof.
  revert seen. induction cs as [|x cs IH]; intros seen; simpl.
  - apply NoDup_nil_2.
  - case_decide; [apply IH|]. apply NoDup_cons. split; [|apply IH].
    intros [Hx _]%elem_of_discover. apply Hx. left.
Qed.

Lemma elem_of_next_layer vis fr c :
  c ∈ Graph.next_layer g sel vis fr ↔
  ((c ∉ vis) ∧ ∃ u, u ∈ fr ∧ c ∈ Graph.succs g sel u).
Proof.
  unfold Graph.next_layer. rewrite elem_of_discover, list_elem_of_bind.
  naive_solver.
Qed.

Lemma visited_layers k c : c ∈ V k ↔ ∃ j, (j ≤ k)%nat ∧ c ∈ L j.
Proof.
  induction k as [|k IH]; simpl.
  - split; [exists 0%nat; auto|]. intros (j & Hj & Hc).
    assert (j = 0%nat) as -> by lia. exact Hc.
  - rewrite elem_of_app, IH. split.
    + intros [(j & Hj & Hc)|Hc]; [exists j; split; [lia|done]|].
      exists (S k). split; [lia|done].
    + intros (j & Hj & Hc). destruct (decide (j = S k)) as [->|Hne].
      * right. exact Hc.
      * left. exists j. split; [lia|done].
Qed.

Lemma layer_hops k c : c ∈ L k → hops g sel s c k.
Proof.
  revert c. induction k as [|k IH]; simpl; intros c Hc.
  - apply list_elem_of_singleton in Hc as ->. constructor.
  - apply elem_of_next_layer in Hc as (_ & u & Hu & Hc).
    econstructor; eauto.
Qed.

Lemma hops_layer c n : hops g sel s c n → ∃ j, (j ≤ n)%nat ∧ c ∈ L j.
Proof.
  induction 1 as [|v w n _ (j & Hj & Hv) Hw].
  - exists 0%nat. split; [lia|]. simpl. apply list_elem_of_singleton. done.
  - destruct (decide (w ∈ V j)) as [Hin|Hout].
    + apply visited_layers in Hin as (i & Hi & Hin).
      exists i. split; [lia|done].
    + exists (S j). split; [lia|]. simpl. apply elem_of_next_layer. eauto.
Qed.

Lemma layer_fresh k c : c ∈ L (S k) → c ∉ V k.
Proof. simpl. intros Hc. by apply elem_of_next_layer in Hc as (? & _). Qed.

Lemma layers_disjoint j k c : c ∈ L j → c ∈ L k → j = k.
Proof.
  assert (∀ j k, (j < k)%nat → c ∈ L j → c ∈ L k → False) as Hlt.
  { clear j k. intros j [|k] Hjk Hj Hk; [lia|].
    apply layer_fresh in Hk. apply Hk, visited_layers.
    exists j. split; [lia|done]. }
  intros Hj Hk. destruct (Nat.lt_total j k) as [?|[?|?]]; [|done|];
    exfalso; eauto.
Qed.

Lemma layer_shortest k c n : c ∈ L k → hops g sel s c n → (k ≤ n)%nat.
Proof.
  intros Hk (j & Hj & Hc)%hops_layer.
  by rewrite (layers_disjoint k j c Hk Hc).
Qed.

Lemma layer_hop_distance k c : c ∈ L k ↔ hop_distance g sel s c k.
Proof.
  split.
  - intros Hc. split; [by apply layer_hops|]. intros n. by apply layer_shortest.
  - intros [(j & Hj & Hc)%hops_layer Hmin].
    assert (k ≤ j)%nat by (apply Hmin, layer_hops, Hc).
    by replace k with j by lia.
Qed.

Lemma layer_nil_succ k : L k = [] → L (S k) = [].
Proof. simpl. intros ->. reflexivity. Qed.

Lemma layer_nonempty_below k j : L k ≠ [] → (j ≤ k)%nat → L j ≠ [].
Proof.
  intros Hk Hj Hnil. apply Hk. clear Hk.
  induction Hj as [|k Hj IH]; [done|]. by apply layer_nil_succ.
Qed.

Lemma visited_NoDup k : NoDup (V k).
Proof.
  induction k as [|k IH]; simpl.
  - apply NoDup_singleton.
  - apply NoDup_app. split; [done|]. split.
    + intros c Hc Hn. by apply elem_of_next_layer in Hn as (? & _).
    + apply NoDup_discover.
Qed.

Lemma elem_of_adjOf u e : e ∈ Graph.adjOf g u → e ∈ g ≫= adj.
Proof.
  unfold Graph.adjOf, Graph.findVertex.
  destruct (list_find _ g) as [[i v]|] eqn:Hf; [|by intros ?%elem_of_nil].
  apply list_find_Some in Hf as (Hv & _). intros He.
  apply list_elem_of_bind. exists v. split; [done|].
  by eapply list_elem_of_lookup_2.
Qed.

Lemma elem_of_succs u c :
  c ∈ Graph.succs g sel u ↔
  ∃ e, e ∈ Graph.adjOf g u ∧ Graph.allowed sel e = true ∧ dest e = c.
Proof.
  unfold Graph.succs. rewrite list_elem_of_fmap.
  setoid_rewrite list_elem_of_filter. naive_solver.
Qed.

Lemma visited_universe k c : c ∈ V k → c ∈ s :: (dest <$> g ≫= adj).
Proof.
  intros (j & _ & Hc)%visited_layers. destruct j as [|j]; simpl in Hc.
  - apply list_elem_of_singleton in Hc as ->. left.
  - apply elem_of_next_layer in Hc as (_ & u & _ & Hc).
    apply elem_of_succs in Hc as (e & He & _ & <-).
    right. apply list_elem_of_fmap_2. by eapply elem_of_adjOf.
Qed.

Lemma visited_length k :
  (∀ j, (j ≤ k)%nat → L j ≠ []) → (k + 1 ≤ length (V k))%nat.
Proof.
  induction k as [|k IH]; intros Hne; [simpl; lia|].
  cbn [state_at fst]. rewrite length_app.
  assert (k + 1 ≤ length (V k))%nat by (apply IH; intros; apply Hne; lia).
  specialize (Hne (S k) (Nat.le_refl _)). simpl in Hne.
  destruct (Graph.next_layer g sel _ _); [done|]. simpl. lia.
Qed.

Lemma nonempty_layers_bound k :
  L k ≠ [] → (k < Graph.bfs_fuel g)%nat.
Proof.
  intros Hk.
  assert (k + 1 ≤ length (V k))%nat as Hlen.
  { apply visited_length. intros j Hj. by eapply layer_nonempty_below. }
  assert (V k ⊆+ s :: (dest <$> g ≫= adj)) as Hsub.
  { apply NoDup_submseteq; [apply visited_NoDup|]. apply visited_universe. }
  apply submseteq_length in Hsub. simpl in Hsub. rewrite length_fmap in Hsub.
  unfold Graph.bfs_fuel. lia.
Qed.

Lemma layers_from_lookup fuel k i l :
  Graph.layers_from g sel fuel (V k) (L k) !! i = Some l ↔
  ((i < fuel)%nat ∧ l = L (k + i) ∧ ∀ j, (j ≤ i)%nat → L (k + j) ≠ []).
Proof.
  revert k i. induction fuel as [|fuel IH]; intros k i.
  { simpl. split; [done|]. intros (? & _); lia. }
  cbn [Graph.layers_from]. destruct (L k) as [|c fr] eqn:Hk.
  { split; [done|]. intros (_ & _ & Hne). exfalso.
    apply (Hne 0%nat); [lia|]. by rewrite Nat.add_0_r. }
  rewrite <- Hk. destruct i as [|i].
  - cbn [lookup list_lookup]. rewrite Nat.add_0_r. split.
    + intros [= <-]. split; [lia|]. split; [done|].
      intros j Hj. assert (j = 0%nat) as -> by lia.
      rewrite Nat.add_0_r, Hk. done.
    + intros (_ & -> & _). done.
  - cbn [lookup list_lookup].
    change (V k ++ Graph.next_layer g sel (V k) (L k)) with (V (S k)).
    change (Graph.next_layer g sel (V k) (L k)) with (L (S k)).
    rewrite IH. replace (S k + i)%nat with (k + S i)%nat by lia. split.
    + intros (Hi & -> & Hne). split; [lia|]. split; [done|].
      intros [|j] Hj; [rewrite Nat.add_0_r, Hk; done|].
      replace (k + S j)%nat with (S k + j)%nat by lia. apply Hne. lia.
    + intros (Hi & -> & Hne). split; [lia|]. split; [done|].
      intros j Hj. replace (S k + j)%nat with (k + S j)%nat by lia.
      apply Hne. lia.
Qed.

Lemma bfs_layers_lookup i l :
  Graph.bfs_layers g sel s !! i = Some l ↔ (l = L i ∧ L i ≠ []).
Proof.
  unfold Graph.bfs_layers.
  change [s] with (V 0) at 1. change [s] with (L 0).
  rewrite layers_from_lookup. simpl. split.
  - intros (_ & -> & Hne). split; [done|]. by apply Hne.
  - intros (-> & Hne). split; [by apply nonempty_layers_bound|].
    split; [done|]. intros j Hj. by eapply layer_nonempty_below.
Qed.

Lemma layer_index_layer c k :
  Graph.layer_index (Graph.bfs_layers g sel s) c = Some k ↔ c ∈ L k.
Proof.
  unfold Graph.layer_index. split.
  - destruct (list_find _ _) as [[i l]|] eqn:Hf; [|done].
    intros [= <-]. apply list_find_Some in Hf as (Hl & Hc & _).
    by apply bfs_layers_lookup in Hl as (-> & _).
  - intros Hc.
    assert (list_find (λ l, c ∈ l) (Graph.bfs_layers g sel s) = Some (k, L k))
      as ->; [|done].
    apply list_find_Some. split; [|split; [done|]].
    + apply bfs_layers_lookup. split; [done|]. intros Hnil.
      rewrite Hnil in Hc. by apply elem_of_nil in Hc.
    + intros j y (-> & _)%bfs_layers_lookup Hj Hy.
      pose proof (layers_disjoint j k c Hy Hc). lia.
Qed.

(** The layer index computed by the search is the shortest hop distance. *)
Lemma layer_index_hop_distance c k :
  Graph.layer_index (Graph.bfs_layers g sel s) c = Some k ↔
  hop_distance g sel s c k.
Proof. by rewrite layer_index_layer, layer_hop_distance. Qed.

End Layers.

(** ** Paths of codes *)

Section Paths.
Context (g : Graph) (sel : list string).

Lemma linked_cons a p :
  linked g sel (a :: p) ↔
  (linked g sel p ∧ ∀ b, head p = Some b → b ∈ Graph.succs g sel a).
Proof.
  destruct p as [|b p]; simpl; [naive_solver|].
  split; [intros [??]; split; [done|]; by intros ? [= <-]|].
  intros [? Hb]. split; [by apply Hb|done].
Qed.

Lemma linked_snoc p b :
  linked g sel (p ++ [b]) ↔
  (linked g sel p ∧ ∀ a, last p = Some a → b ∈ Graph.succs g sel a).
Proof.
  induction p as [|a p IH]; [simpl; naive_solver|].
  rewrite <- app_comm_cons, !linked_cons, IH.
  destruct p as [|c p]; [simpl; naive_solver|].
  rewrite last_cons_cons. simpl. naive_solver.
Qed.

Lemma route_of_O a b p : route_of g sel a b 0 p ↔ (p = [a] ∧ b = a).
Proof.
  unfold route_of. split.
  - intros (Hlen & Hh & Hl & _). destruct p as [|x [|??]]; try done.
    simpl in *. naive_solver.
  - intros [-> ->]. done.
Qed.

Lemma route_of_S a b n p :
  route_of g sel a b (S n) p ↔
  ∃ p' u, p = p' ++ [b] ∧ route_of g sel a u n p' ∧ b ∈ Graph.succs g sel u.
Proof.
  unfold route_of. split.
  - intros (Hlen & Hh & Hl & Hlk).
    apply last_Some in Hl as [p' ->]. rewrite length_app in Hlen. simpl in Hlen.
    destruct (last p') as [u|] eqn:Hu.
    2:{ apply last_None in Hu as ->. simpl in Hlen. lia. }
    apply linked_snoc in Hlk as [Hlk Hb]. exists p', u.
    split; [done|]. split; [|by apply Hb].
    split; [lia|]. split; [|done].
    destruct p'; [done|]. exact Hh.
  - intros (p' & u & -> & (Hlen & Hh & Hl & Hlk) & Hb).
    rewrite length_app, last_snoc. simpl. split; [lia|].
    split; [|split; [done|]].
    + destruct p'; [done|]. exact Hh.
    + apply linked_snoc. split; [done|]. intros a'. rewrite Hl. by intros [= <-].
Qed.

Lemma hops_route_of a b n :
  hops g sel a b n ↔ ∃ p, route_of g sel a b n p.
Proof.
  split.
  - induction 1 as [|v w n _ [p Hp] Hw].
    + exists [a]. by apply route_of_O.
    + exists (p ++ [w]). apply route_of_S. eauto.
  - intros [p Hp]. revert b p Hp. induction n as [|n IH]; intros b p.
    + intros [_ ->]%route_of_O. constructor.
    + intros (p' & u & _ & Hp' & Hb)%route_of_S. econstructor; eauto.
Qed.

End Paths.

(** ** The backward reconstruction *)

Section Reconstruct.
Context (g : Graph) (sel : list string) (s : string).

Local Abbreviation L k := (state_at g sel s k).2.
Local Abbreviation ls := (Graph.bfs_layers g sel s).

Lemma reconstruct_route_of n v p :
  p ∈ Graph.reconstruct g sel s ls n v → route_of g sel s v n p.
Proof.
  revert v p. induction n as [|n IH]; intros v p; cbn [Graph.reconstruct].
  - case_decide as Hv; [|by intros ?%elem_of_nil].
    intros ->%list_elem_of_singleton. by apply route_of_O.
  - intros (u & (e & Hp & He)%list_elem_of_bind & Hu)%list_elem_of_bind.
    case_decide as Hc; [|by apply elem_of_nil in Hp].
    destruct Hc as (Hal & Hd & Hi).
    apply list_elem_of_fmap in Hp as (p' & -> & Hp').
    apply route_of_S. exists p', u. split; [done|]. split; [by apply IH|].
    apply elem_of_succs. eauto.
Qed.

Lemma route_of_reconstruct n v p :
  v ∈ L n → route_of g sel s v n p →
  p ∈ Graph.reconstruct g sel s ls n v.
Proof.
  revert v p. induction n as [|n IH]; intros v p Hv; cbn [Graph.reconstruct].
  - intros [-> ->]%route_of_O. rewrite decide_True by done. left.
  - intros (p' & u & -> & Hp' & Hb)%route_of_S.
    assert (u ∈ L n) as Hu.
    { assert (hops g sel s u n) as Hh by (apply hops_route_of; eauto).
      destruct (hops_layer g sel s u n Hh) as (j & Hj & Hin).
      assert (S n ≤ S j)%nat.
      { apply (layer_shortest g sel s (S n) v (S j) Hv).
        econstructor; [by eapply layer_hops|done]. }
      by replace n with j by lia. }
    apply elem_of_succs in Hb as (e & He & Hal & Hd).
    apply list_elem_of_bind. exists u. split.
    + apply list_elem_of_bind. exists e. split; [|done].
      rewrite decide_True;
        [apply list_elem_of_fmap; exists p'; split; [done|by apply IH]|].
      split; [done|]. split; [done|]. by apply layer_index_layer.
    + apply list_elem_of_join. exists (L n). split; [done|].
      apply (list_elem_of_lookup_2 _ n), bfs_layers_lookup.
      split; [done|]. intros Hnil. rewrite Hnil in Hu. by apply elem_of_nil in Hu.
Qed.

(** The search returns exactly the shortest sequences of hops. *)
Lemma shortestPathsBFS_spec d :
  present g s → present g d →
  ∃ ps, Graph.shortestPathsBFS g s d sel = Ok ps ∧
    ∀ p, p ∈ ps ↔ ∃ k, hop_distance g sel s d k ∧ route_of g sel s d k p.
Proof.
  intros [vs Hs] [vd Hd]. unfold Graph.shortestPathsBFS.
  rewrite Hs, Hd. simpl.
  destruct (Graph.layer_index ls d) as [n|] eqn:Hn.
  - exists (Graph.reconstruct g sel s ls n d). split; [done|].
    pose proof Hn as Hdist%layer_index_hop_distance.
    pose proof Hn as Hl%layer_index_layer.
    intros p. split.
    + intros Hp%reconstruct_route_of. eauto.
    + intros (k & Hk & Hp). apply route_of_reconstruct; [done|].
      apply layer_index_hop_distance in Hk. congruence.
  - exists []. split; [done|]. intros p. split; [by intros ?%elem_of_nil|].
    intros (k & Hk%layer_index_hop_distance & _). congruence.
Qed.

End Reconstruct.

(** ** From paths of codes to itineraries *)

Section Itineraries.
Context (g : Graph) (hop : Vertex → string → list string).

Lemma succs_present sel a b : b ∈ Graph.succs g sel a → present g a.
Proof.
  intros (e & He & _)%elem_of_succs. unfold present.
  unfold Graph.adjOf in He. destruct (Graph.findVertex g a); [eauto|].
  by apply elem_of_nil in He.
Qed.

Lemma routePath_cons a b p :
  routePath g hop (a :: b :: p) =
  s ← Graph.findVertex g a;
  rs ← routePath g hop (b :: p);
  mret (mkRoute a b (hop s b) :: rs).
Proof. reflexivity. Qed.

Lemma itinerary_cons a b p :
  itinerary g hop (a :: b :: p) =
  hop_between g hop a b :: itinerary g hop (b :: p).
Proof. reflexivity. Qed.

Lemma routePath_itinerary sel p :
  linked g sel p → p ≠ [] → routePath g hop p = Ok (itinerary g hop p).
Proof.
  induction p as [|a p IH]; [done|]. intros Hlk _.
  destruct p as [|b p]; [done|].
  destruct Hlk as [Hb Hlk]. rewrite routePath_cons, itinerary_cons.
  rewrite IH by done. unfold hop_between.
  destruct (succs_present sel a b Hb) as [v ->]. done.
Qed.

Lemma length_itinerary p : length (itinerary g hop p) = pred (length p).
Proof.
  induction p as [|a [|b p] IH]; [done..|].
  rewrite itinerary_cons. cbn [length pred] in *. by rewrite IH.
Qed.

Lemma chained_itinerary p : chained (itinerary g hop p).
Proof.
  induction p as [|a [|b [|c p]] IH]; [done..|].
  split; [done|]. exact IH.
Qed.

Lemma elem_of_push_new paths rp x :
  x ∈ push_new paths rp ↔ (x ∈ paths ∨ x = rp).
Proof.
  unfold push_new. case_decide; [naive_solver|].
  rewrite elem_of_app, list_elem_of_singleton. done.
Qed.

Lemma NoDup_push_new paths rp : NoDup paths → NoDup (push_new paths rp).
Proof.
  unfold push_new. intros Hnd. case_decide; [done|].
  apply NoDup_app. split; [done|]. split; [|apply NoDup_singleton].
  intros x Hx ->%list_elem_of_singleton. done.
Qed.

Lemma collectPaths_itineraries sel acc ps :
  (∀ p, p ∈ ps → linked g sel p ∧ p ≠ []) → NoDup acc →
  ∃ paths, collectPaths g hop acc ps = Ok paths ∧ NoDup paths ∧
    ∀ it, it ∈ paths ↔ (it ∈ acc ∨ ∃ p, p ∈ ps ∧ it = itinerary g hop p).
Proof.
  revert acc. induction ps as [|p ps IH]; intros acc Hps Hnd.
  - exists acc. split; [done|]. split; [done|]. intros it.
    split; [auto|]. intros [?|(p & Hp%elem_of_nil & _)]; done.
  - cbn [collectPaths].
    destruct (Hps p) as [Hlk Hne]; [left|].
    rewrite (routePath_itinerary sel) by done. simpl.
    destruct (IH (push_new acc (itinerary g hop p))) as (paths & -> & Hnd' & Hin).
    { intros q Hq. apply Hps. by right. }
    { by apply NoDup_push_new. }
    exists paths. split; [done|]. split; [done|]. intros it.
    rewrite Hin, elem_of_push_new. split.
    + intros [[? | ->] | (q & Hq & ->)]; [by left|right..].
      * exists p. split; [left|done].
      * exists q. split; [by right|done].
    + intros [?|(q & Hq & ->)]; [by left; left|].
      apply elem_of_cons in Hq as [-> | Hq]; [left; by right|].
      right. eauto.
Qed.

End Itineraries.

Lemma route_of_nonempty g sel a b n p : route_of g sel a b n p → p ≠ [].
Proof. intros (Hlen & _) ->. done. Qed.

(** The two overloads return, without repetition, the itineraries of the
    shortest sequences of hops. *)
Lemma findBestFlightOptionsAirlines_spec fms s d sel :
  present (flights fms) s → present (flights fms) d →
  ∃ paths, findBestFlightOptionsAirlines fms s d sel = Ok paths ∧
    NoDup paths ∧
    ∀ it, it ∈ paths ↔
      ∃ k p, hop_distance (flights fms) sel s d k ∧
             route_of (flights fms) sel s d k p ∧
             it = itinerary (flights fms) (flightAirlinesIn sel) p.
Proof.
  intros Hs Hd. unfold findBestFlightOptionsAirlines.
  destruct (shortestPathsBFS_spec (flights fms) sel s d Hs Hd) as (ps & -> & Hps).
  simpl.
  destruct (collectPaths_itineraries (flights fms) (flightAirlinesIn sel) sel [] ps)
    as (paths & -> & Hnd & Hin).
  { intros p (k & _ & Hp)%Hps. split; [apply Hp|by eapply route_of_nonempty]. }
  { apply NoDup_nil_2. }
  exists paths. split; [done|]. split; [done|]. intros it. rewrite Hin. split.
  - intros [Hit%elem_of_nil|(p & (k & Hk & Hp)%Hps & ->)]; [done|]. eauto.
  - intros (k & p & Hk & Hp & ->). right. exists p. split; [|done].
    apply Hps. eauto.
Qed.

Lemma findBestFlightOptions_spec fms s d :
  present (flights fms) s → present (flights fms) d →
  ∃ paths, findBestFlightOptions fms s d = Ok paths ∧
    NoDup paths ∧
    ∀ it, it ∈ paths ↔
      ∃ k p, hop_distance (flights fms) [] s d k ∧
             route_of (flights fms) [] s d k p ∧
             it = itinerary (flights fms) flightAirlines p.
Proof.
  intros Hs Hd. unfold findBestFlightOptions.
  destruct (shortestPathsBFS_spec (flights fms) [] s d Hs Hd) as (ps & -> & Hps).
  simpl.
  destruct (collectPaths_itineraries (flights fms) flightAirlines [] [] ps)
    as (paths & -> & Hnd & Hin).
  { intros p (k & _ & Hp)%Hps. split; [apply Hp|by eapply route_of_nonempty]. }
  { apply NoDup_nil_2. }
  exists paths. split; [done|]. split; [done|]. intros it. rewrite Hin. split.
  - intros [Hit%elem_of_nil|(p & (k & Hk & Hp)%Hps & ->)]; [done|]. eauto.
  - intros (k & p & Hk & Hp & ->). right. exists p. split; [|done].
    apply Hps. eauto.
Qed.

Lemma hops_hop_distance g sel s d n :
  hops g sel s d n → ∃ k, hop_distance g sel s d k.
Proof.
  intros (j & _ & Hj)%hops_layer. exists j. by apply layer_hop_distance.
Qed.

(** ** Counting airlines *)

Section Counting.

Lemma count_of_increment m a b :
  count_of (increment m a) b =
  if decide (b = a) then S (count_of m a) else count_of m b.
Proof.
  induction m as [|[k c] m IH]; simpl.
  - repeat case_decide; congruence.
  - repeat (case_decide; simpl); subst; try congruence; try done.
Qed.

Lemma keys_increment m a :
  (increment m a).*1 = if decide (a ∈ m.*1) then m.*1 else m.*1 ++ [a].
Proof.
  induction m as [|[k c] m IH]; csimpl.
  - done.
  - destruct (decide (k = a)) as [->|Hne]; csimpl.
    + rewrite decide_True; [done|left].
    + rewrite IH. destruct (decide (a ∈ m.*1)) as [Hin|Hout].
      * rewrite decide_True; [done|by right].
      * rewrite decide_False; [done|].
        intros [?|?]%elem_of_cons; [congruence|done].
Qed.

Lemma foldl_increment_keys m l :
  NoDup m.*1 →
  NoDup (foldl increment m l).*1 ∧
  ∀ a, a ∈ (foldl increment m l).*1 ↔ (a ∈ m.*1 ∨ a ∈ l).
Proof.
  revert m. induction l as [|x l IH]; intros m Hnd; simpl.
  - split; [done|]. intros a. split; [auto|]. intros [?|?%elem_of_nil]; done.
  - destruct (IH (increment m x)) as [Hnd' Hin].
    { rewrite keys_increment. case_decide; [done|].
      apply NoDup_app. split; [done|]. split; [|apply NoDup_singleton].
      intros y Hy ->%list_elem_of_singleton. done. }
    split; [done|]. intros a. rewrite Hin, keys_increment, elem_of_cons.
    case_decide; [naive_solver|].
    rewrite elem_of_app, list_elem_of_singleton. naive_solver.
Qed.

Lemma foldl_increment_count m l a :
  count_of (foldl increment m l) a =
  (count_of m a + length (filter (λ x, x = a) l))%nat.
Proof.
  revert m. induction l as [|x l IH]; intros m; simpl; [lia|].
  rewrite IH, count_of_increment, filter_cons.
  destruct (decide (a = x)) as [->|Hne].
  - rewrite decide_True by done. simpl. lia.
  - rewrite decide_False by congruence. done.
Qed.

Lemma airlineCount_flat routes :
  airlineCount routes = foldl increment [] (routes ≫= airlines).
Proof.
  unfold airlineCount. generalize (@nil (string * nat)).
  induction routes as [|r routes IH]; intros m; [done|].
  rewrite bind_cons, foldl_app. simpl. apply IH.
Qed.

Lemma airlineCount_keys routes :
  NoDup (airlineCount routes).*1 ∧
  ∀ a, a ∈ (airlineCount routes).*1 ↔ a ∈ routes ≫= airlines.
Proof.
  rewrite airlineCount_flat.
  destruct (foldl_increment_keys [] (routes ≫= airlines)) as [Hnd Hin].
  { apply NoDup_nil_2. }
  split; [done|]. intros a. rewrite Hin. simpl.
  split; [intros [?%elem_of_nil|?]; done|auto].
Qed.

Lemma airlineCount_count routes a :
  count_of (airlineCount routes) a = occurrences a routes.
Proof. rewrite airlineCount_flat, foldl_increment_count. done. Qed.

Lemma entries_count_of (m : list (string * nat)) a c :
  NoDup m.*1 → (a, c) ∈ m ↔ (a ∈ m.*1 ∧ c = count_of m a).
Proof.
  induction m as [|[k c'] m IH]; csimpl; intros Hnd.
  - split; [by intros ?%elem_of_nil|]. by intros [?%elem_of_nil _].
  - apply NoDup_cons in Hnd as [Hk Hnd].
    rewrite !elem_of_cons, IH by done.
    destruct (decide (k = a)) as [->|Hne]; [|naive_solver]. naive_solver.
Qed.

Lemma values_count_of (m : list (string * nat)) :
  NoDup m.*1 → m.*2 = count_of m <$> m.*1.
Proof.
  induction m as [|[k c] m IH]; csimpl; intros Hnd; [done|].
  apply NoDup_cons in Hnd as [Hk Hnd].
  rewrite decide_True by done. f_equal. rewrite IH by done.
  apply list_fmap_ext. intros i a Ha.
  rewrite decide_False; [done|]. intros ->.
  by apply list_elem_of_lookup_2 in Ha.
Qed.

Lemma max_list_fmap_le {A} (f : A → nat) (l : list A) n :
  (∀ x, x ∈ l → (f x ≤ n)%nat) → (max_list (f <$> l) ≤ n)%nat.
Proof.
  induction l as [|x l IH]; intros Hle; [simpl; lia|].
  assert (f x ≤ n)%nat by (apply Hle; left).
  assert (max_list (f <$> l) ≤ n)%nat by (apply IH; intros; apply Hle; by right).
  rewrite fmap_cons.
  change (max_list (f x :: (f <$> l))) with (f x `max` max_list (f <$> l))%nat.
  lia.
Qed.

Lemma max_list_fmap_same {A} (f g : A → nat) (l1 l2 : list A) :
  (∀ x, x ∈ l1 ↔ x ∈ l2) → (∀ x, x ∈ l1 → f x = g x) →
  max_list (f <$> l1) = max_list (g <$> l2).
Proof.
  intros Hin Hfg. apply Nat.le_antisymm; apply max_list_fmap_le; intros x Hx.
  - rewrite Hfg by done. apply max_list_elem_of_le, list_elem_of_fmap_2.
    by apply Hin.
  - apply Hin in Hx. rewrite <- Hfg by done.
    by apply max_list_elem_of_le, list_elem_of_fmap_2.
Qed.

Context (iteration : list (string * nat) → list (string * nat)).
Context (Hit : iteration_order iteration).

Lemma maxCount_max_list m : maxCount iteration m = max_list m.*2.
Proof.
  unfold maxCount. rewrite <- (Hit m) at 2.
  assert (∀ l acc,
    foldl (λ mx (pair : string * nat),
             if bool_decide (mx < pair.2)%nat then pair.2 else mx) acc l =
    (acc `max` max_list l.*2)%nat) as Hfold.
  { induction l as [|[k c] l IH]; intros acc; [simpl; lia|].
    cbn [foldl]. rewrite IH, fmap_cons.
    change (max_list ((k, c).2 :: l.*2)) with (c `max` max_list l.*2)%nat.
    case_bool_decide; simpl in *; lia. }
  rewrite Hfold. done.
Qed.

Lemma maxCount_airlineCount routes :
  maxCount iteration (airlineCount routes) = max_occurrences routes.
Proof.
  destruct (airlineCount_keys routes) as [Hnd Hin].
  rewrite maxCount_max_list, values_count_of by done.
  unfold max_occurrences. apply max_list_fmap_same; [done|].
  intros a _. apply airlineCount_count.
Qed.

Lemma frequentAirlines_airlineCount routes :
  NoDup (frequentAirlines iteration (airlineCount routes)) ∧
  ∀ a, a ∈ frequentAirlines iteration (airlineCount routes) ↔
       (a ∈ routes ≫= airlines ∧
        occurrences a routes = max_occurrences routes).
Proof.
  destruct (airlineCount_keys routes) as [Hnd Hin].
  unfold frequentAirlines. rewrite maxCount_airlineCount.
  set (P := λ pair : string * nat, pair.2 = max_occurrences routes).
  assert ((filter P (iteration (airlineCount routes))).*1 ≡ₚ
          (filter P (airlineCount routes)).*1) as Hperm.
  { by rewrite (Hit (airlineCount routes)). }
  split.
  - rewrite Hperm. apply (sublist_NoDup _ (airlineCount routes).*1); [exact Hnd|].
    apply fmap_sublist, sublist_filter.
  - intros a. rewrite Hperm, list_elem_of_fmap. split.
    + intros ([a' c] & -> & [Hc Hac]%list_elem_of_filter).
      apply entries_count_of in Hac as [Ha ->]; [|done]. simpl.
      split; [by apply Hin|]. rewrite <- airlineCount_count. exact Hc.
    + intros [Ha Hc]. exists (a, occurrences a routes). split; [done|].
      apply list_elem_of_filter. split; [exact Hc|].
      apply entries_count_of; [done|]. split; [by apply Hin|].
      by rewrite airlineCount_count.
Qed.

(** What [minimizeAirlines] returns, in terms of the occurrences of the
    airline codes. *)
Lemma minimizeAirlines_spec routes :
  (max_occurrences routes = length routes →
   ∃ F, minimizeAirlines iteration routes = with_airlines F <$> routes ∧
        NoDup F ∧
        ∀ a, a ∈ F ↔ (a ∈ routes ≫= airlines ∧
                      occurrences a routes = max_occurrences routes)) ∧
  (max_occurrences routes ≠ length routes →
   minimizeAirlines iteration routes = routes).
Proof.
  unfold minimizeAirlines. cbv zeta. rewrite maxCount_airlineCount. split.
  - intros Heq. rewrite decide_True by done.
    exists (frequentAirlines iteration (airlineCount routes)).
    split; [done|]. apply frequentAirlines_airlineCount.
  - intros Hne. by rewrite decide_False.
Qed.

End Counting.

(** ** Minimising twice *)

Section Twice.

Lemma length_filter_eq_NoDup (F : list string) a :
  NoDup F →
  length (filter (λ x, x = a) F) = if decide (a ∈ F) then 1%nat else 0%nat.
Proof.
  induction 1 as [|x F Hx Hnd IH]; [done|].
  rewrite filter_cons. destruct (decide (x = a)) as [->|Hne].
  - rewrite decide_True by left. simpl. rewrite IH, decide_False; done.
  - rewrite IH. destruct (decide (a ∈ F)) as [Hin|Hout].
    + rewrite decide_True; [done|by right].
    + rewrite decide_False; [done|].
      intros [?|?]%elem_of_cons; [congruence|done].
Qed.

Lemma occurrences_cons a route routes :
  occurrences a (route :: routes) =
  (length (filter (λ x, x = a) (airlines route)) + occurrences a routes)%nat.
Proof. unfold occurrences. by rewrite bind_cons, filter_app, length_app. Qed.

Lemma hops_listing_cons a route routes :
  hops_listing a (route :: routes) =
  ((if decide (a ∈ airlines route) then 1 else 0) + hops_listing a routes)%nat.
Proof. unfold hops_listing. rewrite filter_cons. by case_decide. Qed.

Lemma occurrences_hops_listing a routes :
  Forall (λ route, NoDup (airlines route)) routes →
  occurrences a routes = hops_listing a routes.
Proof.
  induction 1 as [|route routes Hnd _ IH]; [done|].
  by rewrite occurrences_cons, hops_listing_cons, length_filter_eq_NoDup, IH.
Qed.

Lemma occurrences_with_airlines F a routes :
  NoDup F →
  occurrences a (with_airlines F <$> routes) =
  if decide (a ∈ F) then length routes else 0%nat.
Proof.
  intros Hnd. induction routes as [|route routes IH].
  - by case_decide.
  - rewrite fmap_cons, occurrences_cons, IH. simpl.
    rewrite length_filter_eq_NoDup by done. by case_decide.
Qed.

Lemma airlines_with_airlines F routes a :
  routes ≠ [] → a ∈ (with_airlines F <$> routes) ≫= airlines ↔ a ∈ F.
Proof.
  intros Hne. rewrite list_elem_of_bind. split.
  - intros (r & Ha & (r' & -> & _)%list_elem_of_fmap). exact Ha.
  - intros Ha. destruct routes as [|r routes]; [done|].
    exists (with_airlines F r). split; [done|]. rewrite fmap_cons. left.
Qed.

Lemma same_itinerary_refl it : same_itinerary it it.
Proof. apply Forall2_same_length_lookup_2; [done|]. naive_solver. Qed.

Lemma same_itinerary_with_airlines F F' routes :
  F' ≡ₚ F →
  same_itinerary (with_airlines F' <$> (with_airlines F <$> routes))
                 (with_airlines F <$> routes).
Proof.
  intros HF. induction routes as [|r routes IH]; [constructor|].
  rewrite !fmap_cons. constructor; [|exact IH]. done.
Qed.

Context (iteration : list (string * nat) → list (string * nat)).
Context (Hit : iteration_order iteration).

Lemma minimizeAirlines_nil : minimizeAirlines iteration [] = [].
Proof.
  destruct (minimizeAirlines_spec iteration Hit []) as [Heq Hne].
  destruct (decide (max_occurrences [] = length (@nil Route))) as [H|H].
  - destruct (Heq H) as (F & -> & _). done.
  - by apply Hne.
Qed.

Lemma minimizeAirlines_twice routes :
  same_itinerary
    (minimizeAirlines iteration (minimizeAirlines iteration routes))
    (minimizeAirlines iteration routes).
Proof.
  destruct (minimizeAirlines_spec iteration Hit routes) as [Heq Hne].
  destruct (decide (max_occurrences routes = length routes)) as [Hmax|Hmax].
  2:{ rewrite !Hne by done. apply same_itinerary_refl. }
  destruct (Heq Hmax) as (F & -> & Hnd & HF). clear Heq Hne.
  destruct (decide (routes = [])) as [->|Hnil].
  { simpl. rewrite minimizeAirlines_nil. constructor. }
  assert (0 < length routes)%nat as Hlen.
  { destruct routes; [done|simpl; lia]. }
  assert (∃ a, a ∈ F) as [a0 Ha0].
  { unfold max_occurrences in *.
    destruct (routes ≫= airlines) as [|b bs] eqn:Hb.
    { simpl in Hmax. lia. }
    pose proof (max_list_elem_of ((λ a, occurrences a routes) <$> b :: bs))
      as Hin.
    apply list_elem_of_fmap in Hin as (a & Ha & Hin); [|done].
    exists a. apply HF. split; [exact Hin|]. by rewrite Ha. }
  set (routes1 := with_airlines F <$> routes).
  assert (max_occurrences routes1 = length routes1) as Hmax1.
  { unfold routes1. rewrite length_fmap. unfold max_occurrences.
    apply Nat.le_antisymm.
    - apply max_list_fmap_le. intros a _.
      rewrite occurrences_with_airlines by done. case_decide; lia.
    - etransitivity; [|apply max_list_elem_of_le].
      2:{ apply (list_elem_of_fmap_2 _ _ a0).
          by apply airlines_with_airlines. }
      simpl. rewrite occurrences_with_airlines by done.
      by rewrite decide_True. }
  destruct (minimizeAirlines_spec iteration Hit routes1) as [Heq1 _].
  destruct (Heq1 Hmax1) as (F' & -> & Hnd' & HF').
  apply same_itinerary_with_airlines, NoDup_Permutation; [done..|].
  intros a. rewrite HF'. unfold routes1 at 1.
  rewrite airlines_with_airlines by done. split; [by intros [? _]|].
  intros Ha. split; [done|]. rewrite Hmax1. unfold routes1.
  rewrite occurrences_with_airlines, length_fmap by done.
  by rewrite decide_True.
Qed.

End Twice.

Lemma front_insertion_order_ok : iteration_order front_insertion_order.
Proof. intros m. apply reverse_Permutation. Qed.

(** ** Hops of an itinerary *)

Lemma findVertex_info g c v : Graph.findVertex g c = Ok v → info v = c.
Proof.
  unfold Graph.findVertex.
  destruct (list_find _ g) as [[i w]|] eqn:Hf; [|done].
  intros [= <-]. by apply list_find_Some in Hf as (_ & ? & _).
Qed.

Lemma shortestPathsBFS_present g s d sel ps :
  Graph.shortestPathsBFS g s d sel = Ok ps → present g s ∧ present g d.
Proof.
  unfold Graph.shortestPathsBFS, present.
  destruct (Graph.findVertex g s); [|done].
  destruct (Graph.findVertex g d); [|done]. eauto.
Qed.

Lemma findBestFlightOptions_present fms s d paths :
  findBestFlightOptions fms s d = Ok paths →
  present (flights fms) s ∧ present (flights fms) d.
Proof.
  unfold findBestFlightOptions.
  destruct (Graph.shortestPathsBFS _ s d []) eqn:Hb; [|done].
  intros _. by eapply shortestPathsBFS_present.
Qed.

Lemma itinerary_hop_between g hop p route :
  route ∈ itinerary g hop p →
  route = hop_between g hop (source route) (target route).
Proof.
  induction p as [|a [|b p] IH]; [by intros ?%elem_of_nil..|].
  rewrite itinerary_cons. intros [->|Hr]%elem_of_cons; [done|]. by apply IH.
Qed.

Lemma itinerary_endpoints g hop p :
  itinerary g hop p =
  (λ ab, hop_between g hop ab.1 ab.2) <$> endpoints (itinerary g hop p).
Proof.
  unfold endpoints. rewrite <- list_fmap_compose.
  rewrite <- (list_fmap_id (itinerary g hop p)) at 1.
  apply list_fmap_ext. intros i r Hr. simpl.
  by apply (itinerary_hop_between g hop p), list_elem_of_lookup_2 with i.
Qed.

(** ** Distances of itineraries *)

Section Distances.
Context (g : Graph).



Lemma linked_present sel p :
  linked g sel p → (∀ b, last p = Some b → present g b) →
  ∀ x, x ∈ p → present g x.
Proof.
  induction p as [|a [|b p] IH]; intros Hlk Hlast x Hx.
  - by apply elem_of_nil in Hx.
  - apply list_elem_of_singleton in Hx as ->. by apply Hlast.
  - destruct Hlk as [Hb Hlk].
    apply elem_of_cons in Hx as [->|Hx]; [by eapply succs_present|].
    apply IH; [done| |done]. intros c Hc. apply Hlast.
    by rewrite last_cons_cons.
Qed.

Lemma itinerary_present hop sel p :
  linked g sel p → (∀ b, last p = Some b → present g b) →
  Forall (λ route, present g (source route) ∧ present g (target route))
         (itinerary g hop p).
Proof.
  intros Hlk Hlast. pose proof (linked_present sel p Hlk Hlast) as Hall.
  clear Hlk Hlast. induction p as [|a [|b p] IH]; [constructor..|].
  rewrite itinerary_cons. constructor.
  - simpl. split; apply Hall; [left|right; left].
  - apply IH. intros x Hx. apply Hall. by right.
Qed.


End Distances.

(** ** Selected airlines *)

Lemma findVertex_absent g c :
  ¬ present g c → Graph.findVertex g c = Err NotFound.
Proof.
  unfold present, Graph.findVertex. intros Hc.
  destruct (list_find _ g) as [[i v]|] eqn:Hf; [|done].
  exfalso. apply Hc. by exists v.
Qed.

Lemma succs_unrestricted g sel a b :
  b ∈ Graph.succs g sel a → b ∈ Graph.succs g [] a.
Proof.
  rewrite !elem_of_succs. intros (e & He & _ & Hd). exists e. done.
Qed.

Lemma linked_unrestricted g sel p : linked g sel p → linked g [] p.
Proof.
  induction p as [|a [|b p] IH]; [done..|].
  intros [Hb Hlk]. split; [by eapply succs_unrestricted|by apply IH].
Qed.

Lemma route_of_unrestricted g sel a b n p :
  route_of g sel a b n p → route_of g [] a b n p.
Proof.
  intros (? & ? & ? & ?). repeat split; try done.
  by eapply linked_unrestricted.
Qed.

Lemma flightAirlinesIn_restrict sel v b :
  flightAirlinesIn sel v b = filter (λ a, a ∈ sel) (flightAirlines v b).
Proof.
  unfold flightAirlinesIn, flightAirlines.
  induction (adj v) as [|e l IH]; [done|].
  rewrite !filter_cons.
  destruct (decide (dest e = b)) as [Hd|Hd].
  - rewrite fmap_cons, filter_cons.
    destruct (decide (airline e ∈ sel)) as [Ha|Ha].
    + rewrite decide_True by done. rewrite fmap_cons. by f_equal.
    + rewrite decide_False by (by intros [_ ?]). done.
  - rewrite decide_False by (by intros [? _]). done.
Qed.

Lemma itinerary_restrict g sel p :
  itinerary g (flightAirlinesIn sel) p =
  restrict_airlines sel (itinerary g flightAirlines p).
Proof.
  unfold restrict_airlines.
  induction p as [|a [|b p] IH]; [done..|].
  rewrite !itinerary_cons, fmap_cons, IH. f_equal.
  unfold hop_between, with_airlines. simpl.
  destruct (Graph.findVertex g a); [|done].
  by rewrite flightAirlinesIn_restrict.
Qed.

Lemma findBestFlightOptionsAirlines_present fms s d sel paths :
  findBestFlightOptionsAirlines fms s d sel = Ok paths →
  present (flights fms) s ∧ present (flights fms) d.
Proof.
  unfold findBestFlightOptionsAirlines.
  destruct (Graph.shortestPathsBFS _ s d sel) eqn:Hb; [|done].
  intros _. by eapply shortestPathsBFS_present.
Qed.

(** ** Bounded reachability *)

Section Within.
Context (g : Graph) (s : string).

Local Abbreviation V k := (state_at g [] s k).1.
Local Abbreviation L k := (state_at g [] s k).2.
Local Abbreviation ls := (Graph.bfs_layers g [] s).




End Within.

Section Counts.
Context (fms : FlightManagementSystem).




End Counts.

(** ** Results *)

(** C1: between two airports of the graph joined by at least one path,
    [findBestFlightOptions] returns itineraries that all have as many hops
    as the shortest hop distance from the source to the destination, and in
    each itinerary every hop ends where the next one starts. *)
Theorem findBestFlightOptions_shortest (fms : FlightManagementSystem)
    (s d : string) (n : nat) :
  present (flights fms) s → present (flights fms) d →
  hops (flights fms) [] s d n →
  ∃ k paths,
    hop_distance (flights fms) [] s d k ∧
    findBestFlightOptions fms s d = Ok paths ∧
    paths ≠ [] ∧
    ∀ it, it ∈ paths → length it = k ∧ chained it.
Proof.
  intros Hs Hd Hn.
  destruct (hops_hop_distance _ _ _ _ _ Hn) as [k Hk].
  destruct (findBestFlightOptions_spec fms s d Hs Hd) as (paths & Hok & _ & Hin).
  exists k, paths. split; [done|]. split; [done|]. split.
  - destruct Hk as [Hk Hmin]. pose proof Hk as [p Hp]%hops_route_of.
    intros Hnil.
    assert (itinerary (flights fms) flightAirlines p ∈ paths) as Hit.
    { apply Hin. exists k, p. split; [by split|]. by split. }
    rewrite Hnil in Hit. by apply elem_of_nil in Hit.
  - intros it (k' & p & Hk' & Hp & ->)%Hin.
    assert (k' = k) as ->.
    { destruct Hk as [Hk Hmin], Hk' as [Hk' Hmin'].
      apply Nat.le_antisymm; auto. }
    split; [|apply chained_itinerary].
    rewrite length_itinerary. destruct Hp as (-> & _). done.
Qed.

Lemma findBestFlightOptions_shortest_witness :
  ∃ k paths,
    hop_distance (flights triangle) [] "A" "C" k ∧
    findBestFlightOptions triangle "A" "C" = Ok paths ∧
    paths ≠ [] ∧
    ∀ it, it ∈ paths → length it = k ∧ chained it.
Proof.
  apply (findBestFlightOptions_shortest triangle "A" "C" 2).
  - eexists. vm_compute. reflexivity.
  - eexists. vm_compute. reflexivity.
  - apply (hops_S _ _ _ "B"); [apply (hops_S _ _ _ "A"); [constructor|]|];
      apply (bool_decide_unpack _); vm_compute; exact I.
Defined.




(** C3, as stated, fails: with the direct flight A→C operated by X alone,
    the search restricted to Y returns the two-hop itinerary through B,
    which comes from no itinerary of the unrestricted search (the direct
    flight alone). *)
Lemma findBestFlightOptionsAirlines_longer :
  findBestFlightOptionsAirlines detour "A" "C" ["Y"] =
    Ok [[mkRoute "A" "B" ["Y"]; mkRoute "B" "C" ["Y"]]] ∧
  findBestFlightOptions detour "A" "C" = Ok [[mkRoute "A" "C" ["X"]]] ∧
  ¬ ∃ it, it ∈ [[mkRoute "A" "C" ["X"]]] ∧
          restrict_airlines ["Y"] it =
          [mkRoute "A" "B" ["Y"]; mkRoute "B" "C" ["Y"]].
Proof.
  split; [by vm_compute|]. split; [by vm_compute|].
  intros (it & ->%list_elem_of_singleton & Hit). vm_compute in Hit.
  discriminate.
Qed.

(** C3, amended: every itinerary returned by the search restricted to the
    airlines [sel] lists on its hops only airlines of [sel], has at least as
    many hops as the unrestricted shortest hop count, and, when it has
    exactly that many hops, is an itinerary of the unrestricted search with
    every hop's airlines restricted to [sel]. *)
Theorem findBestFlightOptionsAirlines_restricted (fms : FlightManagementSystem)
    (s d : string) (sel : list string) (filtered : list (list Route))
    (it : list Route) :
  findBestFlightOptionsAirlines fms s d sel = Ok filtered →
  it ∈ filtered →
  (∀ route a, route ∈ it → a ∈ airlines route → a ∈ sel) ∧
  (∀ k, hop_distance (flights fms) [] s d k → (k ≤ length it)%nat) ∧
  (∀ k, hop_distance (flights fms) [] s d k → length it = k →
     ∃ paths it',
       findBestFlightOptions fms s d = Ok paths ∧ it' ∈ paths ∧
       it = restrict_airlines sel it').
Proof.
  intros Hok Hit.
  destruct (findBestFlightOptionsAirlines_present _ _ _ _ _ Hok) as [Hs Hd].
  destruct (findBestFlightOptionsAirlines_spec fms s d sel Hs Hd)
    as (filtered' & Hok' & _ & Hin).
  assert (filtered' = filtered) as -> by congruence.
  apply Hin in Hit as (kf & p & Hkf & Hp & ->).
  pose proof (route_of_unrestricted _ _ _ _ _ _ Hp) as Hp'.
  assert (length (itinerary (flights fms) (flightAirlinesIn sel) p) = kf) as Hlen.
  { rewrite length_itinerary. by destruct Hp as (-> & _). }
  split; [|split].
  - intros route a Hr Ha.
    rewrite (itinerary_hop_between _ _ _ _ Hr) in Ha. simpl in Ha.
    destruct (Graph.findVertex _ _); [|by apply elem_of_nil in Ha].
    rewrite flightAirlinesIn_restrict in Ha.
    by apply list_elem_of_filter in Ha as [? _].
  - intros k [_ Hmin]. rewrite Hlen. apply Hmin, hops_route_of. eauto.
  - intros k Hk Hkeq. assert (k = kf) as -> by congruence.
    destruct (findBestFlightOptions_spec fms s d Hs Hd) as (paths & Hp1 & _ & Hin1).
    exists paths, (itinerary (flights fms) flightAirlines p).
    split; [done|]. split; [|apply itinerary_restrict].
    apply Hin1. exists kf, p. split; [done|by split].
Qed.

Lemma findBestFlightOptionsAirlines_restricted_witness :
  (∀ route a, route ∈ [mkRoute "A" "B" ["Y"]; mkRoute "B" "C" ["Y"]] →
     a ∈ airlines route → a ∈ ["Y"]) ∧
  (∀ k, hop_distance (flights detour) [] "A" "C" k →
     (k ≤ length [mkRoute "A" "B" ["Y"]; mkRoute "B" "C" ["Y"]])%nat) ∧
  (∀ k, hop_distance (flights detour) [] "A" "C" k →
     length [mkRoute "A" "B" ["Y"]; mkRoute "B" "C" ["Y"]] = k →
     ∃ paths it',
       findBestFlightOptions detour "A" "C" = Ok paths ∧ it' ∈ paths ∧
       [mkRoute "A" "B" ["Y"]; mkRoute "B" "C" ["Y"]] =
       restrict_airlines ["Y"] it').
Proof.
  apply (findBestFlightOptionsAirlines_restricted detour "A" "C" ["Y"]
           [[mkRoute "A" "B" ["Y"]; mkRoute "B" "C" ["Y"]]]).
  - vm_compute. reflexivity.
  - left.
Defined.




(** C5, as stated, fails where the table is iterated in reverse order of
    insertion: the first pass lists the airlines as Y, X, the second pass
    as X, Y, and two routes are equal only if their airlines come in the same
    order. *)
Lemma minimizeAirlines_twice_reorders :
  minimizeAirlines front_insertion_order one_hop = [mkRoute "A" "B" ["Y"; "X"]] ∧
  minimizeAirlines front_insertion_order
    (minimizeAirlines front_insertion_order one_hop) =
    [mkRoute "A" "B" ["X"; "Y"]] ∧
  minimizeAirlines front_insertion_order
    (minimizeAirlines front_insertion_order one_hop) ≠
  minimizeAirlines front_insertion_order one_hop.
Proof. vm_compute. repeat split; congruence. Qed.

(** C5, amended: applying [minimizeAirlines] twice yields the same hops as
    applying it once, with the same airline codes on every hop up to the
    order in which they are listed. *)
Theorem minimizeAirlines_idempotent_up_to_order
    (iteration : list (string * nat) → list (string * nat))
    (routes : list Route) :
  iteration_order iteration →
  same_itinerary
    (minimizeAirlines iteration (minimizeAirlines iteration routes))
    (minimizeAirlines iteration routes).
Proof. intros Hit. by apply minimizeAirlines_twice. Qed.

Lemma minimizeAirlines_idempotent_up_to_order_witness :
  same_itinerary
    (minimizeAirlines front_insertion_order
       (minimizeAirlines front_insertion_order one_hop))
    (minimizeAirlines front_insertion_order one_hop).
Proof.
  apply (minimizeAirlines_idempotent_up_to_order front_insertion_order one_hop).
  exact front_insertion_order_ok.
Defined.




(** C8: with exactly two parallel edges A→B, of airlines X and Y,
    [findBestFlightOptions] returns the single itinerary made of the hop A→B
    with airlines X and Y.  In general the itineraries returned are pairwise
    different, every hop lists the airlines of all the edges between its two
    airports, and two returned itineraries that visit the same airports are
    the same itinerary. *)
Theorem findBestFlightOptions_parallel_edges :
  findBestFlightOptions parallel "A" "B" = Ok [[mkRoute "A" "B" ["X"; "Y"]]] ∧
  ∀ fms s d paths,
    findBestFlightOptions fms s d = Ok paths →
    NoDup paths ∧
    (∀ it route, it ∈ paths → route ∈ it →
       airlines route =
       airline <$> filter (λ e, dest e = target route)
                          (Graph.adjOf (flights fms) (source route))) ∧
    (∀ it1 it2, it1 ∈ paths → it2 ∈ paths →
       endpoints it1 = endpoints it2 → it1 = it2).
Proof.
  split; [by vm_compute|].
  intros fms s d paths Hok.
  destruct (findBestFlightOptions_present fms s d paths Hok) as [Hs Hd].
  destruct (findBestFlightOptions_spec fms s d Hs Hd) as (paths' & Hok' & Hnd & Hin).
  assert (paths' = paths) as -> by congruence.
  split; [done|]. split.
  - intros it route (k & p & _ & _ & ->)%Hin Hr.
    rewrite (itinerary_hop_between _ _ _ _ Hr) at 1. simpl.
    unfold Graph.adjOf, flightAirlines.
    by destruct (Graph.findVertex _ _).
  - intros it1 it2 (k1 & p1 & _ & _ & ->)%Hin (k2 & p2 & _ & _ & ->)%Hin He.
    rewrite (itinerary_endpoints _ _ p1), (itinerary_endpoints _ _ p2).
    by rewrite He.
Qed.

(** C9: a hop contributes to the total of [findSmallestDistance] the
    distance of the first edge, in the adjacency list of the hop's source,
    that leads to the hop's target, whatever airlines the route lists; with
    edges A→B of X (200) then Y (100) the contribution is 200: not the
    smallest distance of the parallel edges, and the distance of X's edge
    even for a route that lists Y alone. *)
Theorem hopDistance_first_edge (g : Graph) (route : Route) (src dst : Vertex)
    (before after : list Edge) (e : Edge) :
  Graph.findVertex g (source route) = Ok src →
  Graph.findVertex g (target route) = Ok dst →
  adj src = before ++ e :: after →
  dest e = target route →
  Forall (λ e', dest e' ≠ target route) before →
  hopDistance g route = Ok (distance e) ∧
  (∀ acc rest,
     totalDistance g acc (route :: rest) =
     totalDistance g (acc + distance e) rest) ∧
  (∀ listed,
     hopDistance g (mkRoute (source route) (target route) listed) =
     Ok (distance e)) ∧
  hopDistance (flights parallel) (mkRoute "A" "B" ["X"; "Y"]) = Ok 200 ∧
  hopDistance (flights parallel) (mkRoute "A" "B" ["Y"]) = Ok 200 ∧
  findSmallestDistance parallel "A" "B" = Ok 200.
Proof.
  intros Hsrc Hdst Hadj He Hbefore.
  assert (∀ listed,
    hopDistance g (mkRoute (source route) (target route) listed) =
    Ok (distance e)) as Hhop.
  { intros listed. unfold hopDistance. simpl. rewrite Hsrc, Hdst. simpl.
    rewrite (findVertex_info _ _ _ Hdst), Hadj.
    assert (list_find (λ e', dest e' = target route) (before ++ e :: after) =
            Some (length before, e)) as ->; [|done].
    apply list_find_Some. split; [|split; [done|]].
    - by rewrite lookup_app_r, Nat.sub_diag.
    - intros j y Hy Hj. rewrite lookup_app_l in Hy by done.
      rewrite Forall_forall in Hbefore. apply Hbefore.
      by eapply list_elem_of_lookup_2. }
  assert (hopDistance g route = Ok (distance e)) as Hroute.
  { destruct route. apply Hhop. }
  split; [done|]. split.
  { intros acc rest. cbn [totalDistance]. by rewrite Hroute. }
  split; [done|]. by vm_compute.
Qed.

Lemma hopDistance_first_edge_witness :
  hopDistance (flights parallel) (mkRoute "A" "B" ["Y"]) = Ok (distance (mkEdge "B" "X" 200)) ∧
  (∀ acc rest,
     totalDistance (flights parallel) acc (mkRoute "A" "B" ["Y"] :: rest) =
     totalDistance (flights parallel) (acc + distance (mkEdge "B" "X" 200)) rest) ∧
  (∀ listed,
     hopDistance (flights parallel) (mkRoute "A" "B" listed) =
     Ok (distance (mkEdge "B" "X" 200))) ∧
  hopDistance (flights parallel) (mkRoute "A" "B" ["X"; "Y"]) = Ok 200 ∧
  hopDistance (flights parallel) (mkRoute "A" "B" ["Y"]) = Ok 200 ∧
  findSmallestDistance parallel "A" "B" = Ok 200.
Proof.
  apply (hopDistance_first_edge (flights parallel) (mkRoute "A" "B" ["Y"])
           (mkVertex "A" [mkEdge "B" "X" 200; mkEdge "B" "Y" 100])
           (mkVertex "B" []) [] [mkEdge "B" "Y" 100] (mkEdge "B" "X" 200)).
  - vm_compute. reflexivity.
  - vm_compute. reflexivity.
  - reflexivity.
  - reflexivity.
  - constructor.
Defined.

(** C10: when the source or the destination is not a key of the airports
    table, [findSmallestDistance] returns 0.0: a value, not an error, and a
    value different from the [DBL_MAX] no-path sentinel. *)
Theorem findSmallestDistance_unknown_code (fms : FlightManagementSystem)
    (s d : string) :
  airports fms !! s = None ∨ airports fms !! d = None →
  findSmallestDistance fms s d = Ok 0 ∧
  findSmallestDistance fms s d ≠ Err NotFound ∧
  findSmallestDistance fms s d ≠ Ok DBL_MAX.
Proof.
  intros H. unfold findSmallestDistance.
  rewrite bool_decide_eq_true_2 by exact H.
  repeat split; [discriminate|].
  intros E. inversion E.
Qed.

Lemma findSmallestDistance_unknown_code_witness :
  findSmallestDistance triangle "A" "Z" = Ok 0 ∧
  findSmallestDistance triangle "A" "Z" ≠ Err NotFound ∧
  findSmallestDistance triangle "A" "Z" ≠ Ok DBL_MAX.
Proof.
  apply (findSmallestDistance_unknown_code triangle "A" "Z").
  right. vm_compute. reflexivity.
Defined.

(** * Further properties *)

(** ** The queue of [calcStopsBFS] *)

Section Queue.
Context (g : Graph) (s : string).

Local Abbreviation V k := (state_at g [] s k).1.
Local Abbreviation L k := (state_at g [] s k).2.
Local Abbreviation at_depth k := (fmap (M := list) (λ c : string, (c, Z.of_nat k))).
Local Abbreviation pairs := (fmap (M := list) (λ c : string, (s, c))).

Lemma succs_unfiltered c : Graph.succs g [] c = dest <$> Graph.adjOf g c.
Proof.
  unfold Graph.succs. f_equal.
  induction (Graph.adjOf g c) as [|e l IH]; [done|].
  rewrite filter_cons, decide_True by done. by rewrite IH.
Qed.

Lemma discover_ext seen seen' cs :
  (∀ x, x ∈ seen ↔ x ∈ seen') →
  Graph.discover seen cs = Graph.discover seen' cs.
Proof.
  revert seen seen'. induction cs as [|c cs IH]; intros seen seen' Heq; [done|].
  simpl. destruct (decide (c ∈ seen)) as [Hc|Hc].
  - rewrite decide_True by (by apply Heq). by apply IH.
  - rewrite decide_False by (by rewrite <- Heq). f_equal. apply IH.
    intros x. rewrite !elem_of_cons, Heq. done.
Qed.

Lemma discover_app seen cs1 cs2 :
  Graph.discover seen (cs1 ++ cs2) =
  Graph.discover seen cs1 ++
  Graph.discover (seen ++ Graph.discover seen cs1) cs2.
Proof.
  revert seen. induction cs1 as [|c cs1 IH]; intros seen; simpl.
  - by rewrite app_nil_r.
  - case_decide as Hc; [apply IH|].
    rewrite IH. simpl. do 2 f_equal. apply discover_ext.
    intros x. repeat (rewrite elem_of_app || rewrite elem_of_cons).
    naive_solver.
Qed.

Lemma enqueue_discover d q (vis : gset string) seen edges :
  (∀ x, x ∈ vis ↔ x ∈ seen) →
  ∃ vis' : gset string,
    foldl (enqueueUnvisited d) (q, vis) edges =
      (q ++ ((λ c, (c, d + 1)) <$> Graph.discover seen (dest <$> edges)), vis') ∧
    ∀ x, x ∈ vis' ↔ x ∈ seen ++ Graph.discover seen (dest <$> edges).
Proof.
  revert q vis seen. induction edges as [|e edges IH]; intros q vis seen Hvis.
  - exists vis. simpl. rewrite !app_nil_r. done.
  - cbn [foldl]. unfold enqueueUnvisited at 2. cbn [fst snd]. csimpl.
    destruct (decide (dest e ∈ vis)) as [Hin|Hout].
    + rewrite decide_True by (by apply Hvis). by apply IH.
    + rewrite decide_False by (by rewrite <- Hvis).
      destruct (IH (q ++ [(dest e, d + 1)]) ({[dest e]} ∪ vis) (dest e :: seen))
        as (vis' & -> & Hvis').
      { intros x. rewrite elem_of_union, elem_of_singleton, elem_of_cons, Hvis.
        done. }
      exists vis'. rewrite fmap_cons, <- app_assoc. split; [done|].
      intros x. rewrite Hvis'.
      repeat (rewrite elem_of_app || rewrite elem_of_cons). naive_solver.
Qed.

(** Popping a whole frontier leaves in the queue the codes it discovers. *)
Lemma process_frontier k F N fuel (vis : gset string) seen st :
  (∀ x, x ∈ vis ↔ x ∈ seen) →
  ∃ vis' : gset string,
    calcStopsLoop (length F + fuel) g s (at_depth k F ++ at_depth (S k) N) vis st =
    calcStopsLoop fuel g s
      (at_depth (S k) (N ++ Graph.discover seen (F ≫= Graph.succs g [])))
      vis' (foldl (λ st c, noteFront s c (Z.of_nat k) st) st F) ∧
    ∀ x, x ∈ vis' ↔ x ∈ seen ++ Graph.discover seen (F ≫= Graph.succs g []).
Proof.
  revert N vis seen st. induction F as [|c F IH]; intros N vis seen st Hvis.
  - exists vis. simpl. rewrite !app_nil_r. done.
  - cbn [length Nat.add calcStopsLoop fmap list_fmap app foldl].
    destruct (enqueue_discover (Z.of_nat k)
                ((c, Z.of_nat k) :: at_depth k F ++ at_depth (S k) N)
                vis seen (Graph.adjOf g c) Hvis) as (vis1 & -> & Hvis1).
    cbn [fst snd tail app].
    rewrite <- succs_unfiltered in Hvis1 |- *.
    set (new := Graph.discover seen (Graph.succs g [] c)) in *.
    replace (Z.of_nat k + 1) with (Z.of_nat (S k)) by lia.
    rewrite <- app_assoc, <- fmap_app.
    destruct (IH (N ++ new) vis1 (seen ++ new) (noteFront s c (Z.of_nat k) st) Hvis1)
      as (vis' & -> & Hvis').
    exists vis'. rewrite bind_cons, discover_app. fold new.
    rewrite <- !app_assoc in *. done.
Qed.

Lemma note_new_layer k F (st : Z * list (string * string)) :
  st.1 < Z.of_nat k → F ≠ [] →
  foldl (λ st c, noteFront s c (Z.of_nat k) st) st F = (Z.of_nat k, pairs F).
Proof.
  intros Hlt HF. destruct F as [|c F]; [done|]. clear HF.
  cbn [foldl]. unfold noteFront at 2.
  rewrite bool_decide_eq_true_2 by lia.
  assert (∀ acc, foldl (λ st c, noteFront s c (Z.of_nat k) st)
                   (Z.of_nat k, acc) F = (Z.of_nat k, acc ++ pairs F)) as Hsame.
  { induction F as [|c' F IH]; intros acc; simpl; [by rewrite app_nil_r|].
    unfold noteFront at 2. cbn [fst snd].
    rewrite bool_decide_eq_false_2, bool_decide_eq_true_2 by lia.
    rewrite IH, <- app_assoc. done. }
  rewrite Hsame. done.
Qed.

Local Abbreviation front_state := (front_state g s).

Lemma visited_length_mono j k : (j ≤ k)%nat → (length (V j) ≤ length (V k))%nat.
Proof.
  induction 1 as [|k _ IH]; [done|]. cbn [state_at fst]. rewrite length_app. lia.
Qed.

Lemma loop_layers aux K :
  L K ≠ [] → L (S K) = [] →
  ∀ m k fuel (vis : gset string),
    (k + m = K)%nat →
    (∀ x, x ∈ vis ↔ x ∈ V (S k)) →
    (length (V K) ≤ fuel + length (V k))%nat →
    calcStopsLoop fuel g s (at_depth (S k) (L (S k))) vis (front_state aux k) =
    front_state aux K.
Proof.
  intros HK HSK. induction m as [|m IH]; intros k fuel vis Hk Hvis Hfuel.
  - assert (k = K) as -> by lia. rewrite HSK. by destruct fuel.
  - assert (S k ≤ K)%nat as Hle by lia.
    assert (L (S k) ≠ []) as Hne by (by eapply layer_nonempty_below).
    pose proof (visited_length_mono (S k) K Hle) as Hmono.
    cbn [state_at fst] in Hmono. rewrite length_app in Hmono.
    change (Graph.next_layer g [] (V k) (L k)) with (L (S k)) in Hmono.
    assert (∃ fuel', fuel = (length (L (S k)) + fuel')%nat) as [fuel' ->].
    { exists (fuel - length (L (S k)))%nat. lia. }
    destruct (process_frontier (S k) (L (S k)) [] fuel' vis (V (S k))
                (front_state aux k) Hvis) as (vis' & Hrun & Hvis').
    cbn [fmap list_fmap] in Hrun. rewrite app_nil_r in Hrun. rewrite Hrun.
    cbn [app]. rewrite note_new_layer; [|destruct k; simpl; lia|done].
    change (Graph.discover (V (S k)) (L (S k) ≫= Graph.succs g []))
      with (L (S (S k))) in *.
    change (V (S k) ++ L (S (S k))) with (V (S (S k))) in Hvis'.
    apply (IH (S k) fuel' vis'); [lia|done|].
    cbn [state_at fst]. rewrite length_app.
    change (Graph.next_layer g [] (V k) (L k)) with (L (S k)). lia.
Qed.

Lemma last_layer : ∃ K, L K ≠ [] ∧ L (S K) = [].
Proof.
  assert (∀ n, L n ≠ [] → (n < Graph.bfs_fuel g)%nat)
    as Hbound by apply nonempty_layers_bound.
  assert (∀ m k, (k + m = Graph.bfs_fuel g)%nat → L k ≠ [] →
                 ∃ K, L K ≠ [] ∧ L (S K) = []) as Hex.
  { induction m as [|m IH]; intros k Hk Hne.
    - apply Hbound in Hne. lia.
    - destruct (decide (L (S k) = [])) as [Hnil|Hne']; [eauto|].
      apply (IH (S k)); [lia|done]. }
  apply (Hex (Graph.bfs_fuel g) 0%nat); [lia|done].
Qed.

Lemma visited_length_bound k : (length (V k) < Graph.bfs_fuel g)%nat.
Proof.
  assert (V k ⊆+ s :: (dest <$> g ≫= adj)) as Hsub.
  { apply NoDup_submseteq; [apply visited_NoDup|]. apply visited_universe. }
  apply submseteq_length in Hsub. simpl in Hsub. rewrite length_fmap in Hsub.
  unfold Graph.bfs_fuel. lia.
Qed.

(** What [calcStopsBFS] computes, in terms of the layers of the search. *)
Lemma calcStopsBFS_layers aux :
  ∃ K, L K ≠ [] ∧ L (S K) = [] ∧ calcStopsBFS g s aux = front_state aux K.
Proof.
  destruct last_layer as (K & HK & HSK). exists K. split; [done|]. split; [done|].
  unfold calcStopsBFS.
  pose proof (visited_length_bound K) as Hfuel.
  destruct (process_frontier 0 [s] [] (Graph.bfs_fuel g - 1) {[s]} [s] (0, aux))
    as (vis' & Hrun & Hvis').
  { intros x. by rewrite elem_of_singleton, list_elem_of_singleton. }
  cbn [fmap list_fmap app length] in Hrun.
  replace (1 + (Graph.bfs_fuel g - 1))%nat with (Graph.bfs_fuel g) in Hrun
    by (unfold Graph.bfs_fuel; lia).
  change (Z.of_nat 0) with 0 in Hrun. rewrite Hrun. cbn [foldl].
  unfold noteFront. cbn [fst snd].
  rewrite bool_decide_eq_false_2, bool_decide_eq_true_2 by lia.
  change (Graph.discover [s] ([s] ≫= Graph.succs g [])) with (L 1) in *.
  change ([s] ++ L 1) with (V 1) in Hvis'.
  apply (loop_layers aux K HK HSK K 0%nat _ vis'); [lia|done|].
  simpl length at 2. lia.
Qed.

End Queue.

Lemma calcStopsBFS_farthest (g : Graph) (s : string)
    (aux : list (string * string)) :
  ∃ (K : nat) (far : list string),
    calcStopsBFS g s aux =
      (Z.of_nat K,
       (if decide (K = 0%nat) then aux else []) ++ ((λ c, (s, c)) <$> far)) ∧
    far ≠ [] ∧ NoDup far ∧
    (∀ v, v ∈ far ↔ hop_distance g [] s v K) ∧
    (∀ v n, hop_distance g [] s v n → (n ≤ K)%nat).
Proof.
  destruct (calcStopsBFS_layers g s aux) as (K & HK & HSK & ->).
  exists K, (state_at g [] s K).2. split; [by destruct K|].
  split; [done|]. split; [|split].
  - destruct K; [apply NoDup_singleton|apply NoDup_discover].
  - intros v. apply layer_hop_distance.
  - intros v n Hn%layer_hop_distance.
    destruct (decide (n ≤ K)%nat) as [|Hgt]; [done|]. exfalso.
    apply (layer_nonempty_below g [] s n (S K)); [|lia|done].
    intros Hnil. rewrite Hnil in Hn. by apply elem_of_nil in Hn.
Qed.

(** X1: [calcStopsBFS] returns the eccentricity of the source, the greatest
    shortest hop distance from it, and leaves in [aux] one pair per code at
    that distance, after the pairs [aux] held when the source reaches
    nothing. *)
Theorem calcStopsBFS_eccentricity (g : Graph) (s : string)
    (aux : list (string * string)) :
  ∃ (K : nat) (far : list string),
    calcStopsBFS g s aux =
      (Z.of_nat K,
       (if decide (K = 0%nat) then aux else []) ++ ((λ c, (s, c)) <$> far)) ∧
    far ≠ [] ∧ NoDup far ∧
    (∀ v, v ∈ far ↔ hop_distance g [] s v K) ∧
    (∀ v n, hop_distance g [] s v n → (n ≤ K)%nat).
Proof. apply calcStopsBFS_farthest. Qed.

(** ** The longest trips *)

Section MaxTrip.
Context (g : Graph).

Local Abbreviation trip v := (calcStopsBFS g (info v) []).

Lemma maxTrip_fold vs st :
  let r := foldl (maxTripStep g) st vs in
  st.1 ≤ r.1 ∧
  (∀ v, v ∈ vs → (trip v).1 ≤ r.1) ∧
  (r.1 = st.1 ∨ ∃ v, v ∈ vs ∧ (trip v).1 = r.1) ∧
  (∀ p, p ∈ r.2 ↔
        (r.1 = st.1 ∧ p ∈ st.2) ∨
        ∃ v, v ∈ vs ∧ (trip v).1 = r.1 ∧ p ∈ (trip v).2).
Proof.
  revert st. induction vs as [|v vs IH]; intros st; cbn [foldl].
  - split; [lia|]. split; [by intros ? ?%elem_of_nil|]. split; [by left|].
    intros p. split; [auto|].
    intros [[_ ?]|(v & ?%elem_of_nil & _)]; done.
  - specialize (IH (maxTripStep g st v)). cbv zeta in *.
    set (r := foldl (maxTripStep g) (maxTripStep g st v) vs) in *.
    destruct IH as (Hle & Hmax & Hatt & Hin).
    assert (st.1 ≤ (maxTripStep g st v).1 ∧ (trip v).1 ≤ (maxTripStep g st v).1)
      as [Hst Hv].
    { unfold maxTripStep. repeat case_bool_decide; simpl; lia. }
    split; [lia|]. split.
    { intros v' [->|Hv']%elem_of_cons; [lia|by apply Hmax]. }
    split.
    { destruct Hatt as [Hr|(v' & Hv' & Hr)].
      - rewrite Hr. unfold maxTripStep.
        repeat case_bool_decide; cbn [fst]; [right|by left..].
        exists v. split; [left|done].
      - right. exists v'. split; [by right|done]. }
    intros p. rewrite Hin. setoid_rewrite elem_of_cons. unfold maxTripStep in *.
    repeat case_bool_decide; cbn [fst snd] in *.
    + split.
      * intros [[Hr Hp]|(v' & Hv' & Hr & Hp)]; right; [exists v|exists v']; auto.
      * intros [[Hr Hp]|(v' & [->|Hv'] & Hr & Hp)]; [lia|left; auto|right; eauto].
    + rewrite elem_of_app. split.
      * intros [[Hr [Hp|Hp]]|(v' & Hv' & Hr & Hp)];
          [left; auto|right; exists v; split; [auto|split; [lia|done]]
          |right; exists v'; auto].
      * intros [[Hr Hp]|(v' & [->|Hv'] & Hr & Hp)];
          [left; auto|left; split; [lia|auto]|right; eauto].
    + split.
      * intros [[Hr Hp]|(v' & Hv' & Hr & Hp)]; [left; auto|right; exists v'; auto].
      * intros [[Hr Hp]|(v' & [->|Hv'] & Hr & Hp)]; [left; auto|lia|right; eauto].
Qed.

End MaxTrip.

Lemma mapM_Ok {A B} (f : A → result B) (l : list A) :
  (∀ x, x ∈ l → ∃ y, f x = Ok y) → ∃ ys, mapM f l = Ok ys.
Proof.
  induction l as [|x l IH]; intros Hl; [by eexists|].
  destruct (Hl x) as [y Hy]; [left|].
  destruct IH as [ys Hys]; [intros; apply Hl; by right|].
  exists (y :: ys). cbn [mapM]. rewrite Hy. simpl.
  change ((mapM f l ≫= λ k, mret (y :: k)) = Ok (y :: ys)). by rewrite Hys.
Qed.

(** X2: [getMaxTripWithStops] reports the greatest shortest hop distance
    between a vertex and a code it reaches, and exactly the pairs at that
    distance (every vertex with itself when no vertex has an edge), given
    that the codes it prints are keys of the airports table. *)
Theorem getMaxTripWithStops_diameter (fms : FlightManagementSystem) :
  (∀ u w n, u ∈ info <$> flights fms → hops (flights fms) [] u w n →
            is_Some (airports fms !! w)) →
  ∃ (D : nat) (trips : list (string * string)),
    getMaxTripWithStops fms = Ok (Z.of_nat D, trips) ∧
    (∀ u w, (u, w) ∈ trips ↔
            (u ∈ info <$> flights fms ∧ hop_distance (flights fms) [] u w D)) ∧
    (∀ u w n, u ∈ info <$> flights fms →
              hop_distance (flights fms) [] u w n → (n ≤ D)%nat) ∧
    (flights fms ≠ [] → trips ≠ []).
Proof.
  intros Htable. unfold getMaxTripWithStops. cbv zeta.
  set (g := flights fms) in *.
  pose proof (maxTrip_fold g g (0, [])) as Hfold. cbv zeta in Hfold.
  set (r := foldl (maxTripStep g) (0, []) g) in *.
  destruct Hfold as (Hle & Hmax & Hatt & Hin). cbn [fst snd] in *.
  assert (∃ D : nat, r.1 = Z.of_nat D) as [D HD].
  { exists (Z.to_nat r.1). lia. }
  assert (∀ v, ∃ (K : nat) far,
    calcStopsBFS g (info v) [] = (Z.of_nat K, (λ c, (info v, c)) <$> far) ∧
    far ≠ [] ∧ (∀ w, w ∈ far ↔ hop_distance g [] (info v) w K) ∧
    (∀ w n, hop_distance g [] (info v) w n → (n ≤ K)%nat)) as Hecc.
  { intros v.
    destruct (calcStopsBFS_farthest g (info v) [])
      as (K & far & Heq & Hne & _ & Hfar & Hfarthest).
    exists K, far. split; [|done]. rewrite Heq. by case_decide. }
  assert (∀ u w, (u, w) ∈ r.2 ↔ (u ∈ info <$> g ∧ hop_distance g [] u w D))
    as Htrips.
  { intros u w. rewrite Hin. split.
    - intros [[_ ?%elem_of_nil]|(v & Hv & Hr & Hp)]; [done|].
      destruct (Hecc v) as (K & far & Heq & _ & Hfar & _).
      rewrite Heq in Hr, Hp. cbn [fst snd] in *.
      apply list_elem_of_fmap in Hp as (c & [= -> ->] & Hc).
      assert (K = D) as -> by lia.
      split; [by apply list_elem_of_fmap_2|by apply Hfar].
    - intros [(v & -> & Hv)%list_elem_of_fmap Hw]. right. exists v.
      destruct (Hecc v) as (K & far & Heq & _ & Hfar & Hfarthest).
      specialize (Hmax v Hv). rewrite Heq in Hmax |- *. cbn [fst snd] in *.
      pose proof (Hfarthest w D Hw).
      assert (K = D) as -> by lia.
      split; [done|]. split; [done|].
      apply list_elem_of_fmap. exists w. split; [done|by apply Hfar]. }
  destruct (mapM_Ok (λ a : string * string,
                       _ ← airport_at fms a.1; airport_at fms a.2) r.2)
    as [ys ->].
  { intros [u w] [Hu Hw]%Htrips. cbn [fst snd].
    destruct (Htable u u 0%nat Hu (hops_O _ _ _)) as [au Hau].
    destruct Hw as [Hw _]. destruct (Htable u w D Hu Hw) as [aw Haw].
    exists aw. unfold airport_at. rewrite Hau, Haw. done. }
  exists D, r.2. simpl. split; [by rewrite <- HD; destruct r|].
  split; [done|]. split.
  - intros u w n (v & -> & Hv)%list_elem_of_fmap Hn.
    destruct (Hecc v) as (K & far & Heq & _ & _ & Hfarthest).
    specialize (Hmax v Hv). rewrite Heq in Hmax. cbn [fst] in Hmax.
    specialize (Hfarthest w n Hn). lia.
  - intros Hg Hnil.
    assert (∃ v, v ∈ g ∧ (calcStopsBFS g (info v) []).1 = r.1) as (v & Hv & Hr).
    { destruct Hatt as [Hr|?]; [|done].
      destruct g as [|v g'] eqn:Hgeq; [done|]. exists v.
      split; [left|]. specialize (Hmax v (list_elem_of_here _ _)).
      destruct (Hecc v) as (K & far & Heq & _). rewrite Heq in *.
      cbn [fst] in *. lia. }
    destruct (Hecc v) as (K & far & Heq & Hne & Hfar & _).
    rewrite Heq in Hr. cbn [fst] in Hr. assert (K = D) as -> by lia.
    destruct far as [|w far]; [done|].
    assert ((info v, w) ∈ r.2) as Hp.
    { apply Htrips. split; [by apply list_elem_of_fmap_2|]. apply Hfar. left. }
    rewrite Hnil in Hp. by apply elem_of_nil in Hp.
Qed.

Lemma triangle_closed u w n :
  u ∈ ["A"; "B"; "C"] → hops (flights triangle) [] u w n → w ∈ ["A"; "B"; "C"].
Proof.
  intros Hu. induction 1 as [|v w n _ IH Hw]; [done|].
  repeat (apply elem_of_cons in IH as [->|IH]);
    [vm_compute in Hw..|by apply elem_of_nil in IH];
    repeat (apply elem_of_cons in Hw as [->|Hw]);
    try (by apply elem_of_nil in Hw);
    apply (bool_decide_unpack _); by vm_compute.
Qed.

Lemma getMaxTripWithStops_diameter_witness :
  ∃ (D : nat) (trips : list (string * string)),
    getMaxTripWithStops triangle = Ok (Z.of_nat D, trips) ∧
    (∀ u w, (u, w) ∈ trips ↔
            (u ∈ info <$> flights triangle ∧
             hop_distance (flights triangle) [] u w D)) ∧
    (∀ u w n, u ∈ info <$> flights triangle →
              hop_distance (flights triangle) [] u w n → (n ≤ D)%nat) ∧
    (flights triangle ≠ [] → trips ≠ []).
Proof.
  apply (getMaxTripWithStops_diameter triangle).
  intros u w n Hu Hn. pose proof (triangle_closed u w n Hu Hn) as Hw.
  repeat (apply elem_of_cons in Hw as [->|Hw]);
    [by eexists; vm_compute..|by apply elem_of_nil in Hw].
Defined.

(** ** What minimising keeps *)

Lemma endpoints_with_airlines F routes :
  endpoints (with_airlines F <$> routes) = endpoints routes.
Proof. unfold endpoints. rewrite <- list_fmap_compose. done. Qed.

Lemma length_filter_all {A} (P : A → Prop) `{!∀ x, Decision (P x)} (l : list A) :
  length (filter P l) = length l → Forall P l.
Proof.
  intros Hlen. apply Forall_forall. intros x Hx.
  destruct (decide (P x)) as [|Hn]; [done|].
  pose proof (length_filter_lt P l x Hx Hn). lia.
Qed.

Lemma minimizeAirlines_hops
    (iteration : list (string * nat) → list (string * nat))
    (routes : list Route) :
  iteration_order iteration →
  endpoints (minimizeAirlines iteration routes) = endpoints routes ∧
  (minimizeAirlines iteration routes = routes ∨
   ∃ F, F ≠ [] ∧ NoDup F ∧
        minimizeAirlines iteration routes = with_airlines F <$> routes).
Proof.
  intros Hit. destruct (minimizeAirlines_spec iteration Hit routes) as [Heq Hne].
  destruct (decide (max_occurrences routes = length routes)) as [Hmax|Hmax].
  2:{ rewrite Hne by done. auto. }
  destruct (Heq Hmax) as (F & -> & Hnd & HF).
  split; [apply endpoints_with_airlines|].
  destruct routes as [|r routes]; [by left|]. right. exists F.
  split; [|done]. intros ->.
  unfold max_occurrences in *.
  destruct ((r :: routes) ≫= airlines) as [|b bs] eqn:Hb; [simpl in Hmax; lia|].
  pose proof (max_list_elem_of ((λ a, occurrences a (r :: routes)) <$> b :: bs))
    as Hin.
  apply list_elem_of_fmap in Hin as (a & Ha & Hin); [|done].
  assert (a ∈ @nil string) as Hnil; [|by apply elem_of_nil in Hnil].
  apply HF. split; [exact Hin|]. by rewrite Ha.
Qed.

(** X3: [minimizeAirlines] never changes the sequence of hops; it returns
    its argument, or puts one and the same non-empty list of distinct
    airline codes on every hop. *)
Theorem minimizeAirlines_keeps_hops
    (iteration : list (string * nat) → list (string * nat))
    (routes : list Route) :
  iteration_order iteration →
  endpoints (minimizeAirlines iteration routes) = endpoints routes ∧
  (minimizeAirlines iteration routes = routes ∨
   ∃ F, F ≠ [] ∧ NoDup F ∧
        minimizeAirlines iteration routes = with_airlines F <$> routes).
Proof. apply minimizeAirlines_hops. Qed.

Lemma minimizeAirlines_keeps_hops_witness :
  endpoints (minimizeAirlines front_insertion_order two_hops) =
    endpoints two_hops ∧
  (minimizeAirlines front_insertion_order two_hops = two_hops ∨
   ∃ F, F ≠ [] ∧ NoDup F ∧
        minimizeAirlines front_insertion_order two_hops =
        with_airlines F <$> two_hops).
Proof.
  apply (minimizeAirlines_keeps_hops front_insertion_order two_hops).
  exact front_insertion_order_ok.
Defined.

Lemma minimizeAirlines_subset
    (iteration : list (string * nat) → list (string * nat))
    (routes : list Route) :
  iteration_order iteration →
  Forall (λ route, NoDup (airlines route)) routes →
  Forall2 (λ route route', ∀ a, a ∈ airlines route' → a ∈ airlines route)
          routes (minimizeAirlines iteration routes).
Proof.
  intros Hit Hnd.
  destruct (minimizeAirlines_spec iteration Hit routes) as [Heq Hne].
  destruct (decide (max_occurrences routes = length routes)) as [Hmax|Hmax].
  2:{ rewrite Hne by done. apply Forall_Forall2_diag, Forall_forall. auto. }
  destruct (Heq Hmax) as (F & -> & _ & HF).
  apply Forall2_fmap_r, Forall_Forall2_diag, Forall_forall.
  intros route Hroute a Ha. simpl in Ha.
  apply HF in Ha as [_ Hocc].
  rewrite (occurrences_hops_listing a routes Hnd), Hmax in Hocc.
  apply length_filter_all in Hocc. rewrite Forall_forall in Hocc. by apply Hocc.
Qed.

(** X4: when no hop lists an airline code twice, every airline that
    [minimizeAirlines] lists on a hop was listed on that hop before. *)
Theorem minimizeAirlines_listed_before
    (iteration : list (string * nat) → list (string * nat))
    (routes : list Route) :
  iteration_order iteration →
  Forall (λ route, NoDup (airlines route)) routes →
  Forall2 (λ route route', ∀ a, a ∈ airlines route' → a ∈ airlines route)
          routes (minimizeAirlines iteration routes).
Proof. apply minimizeAirlines_subset. Qed.

Lemma minimizeAirlines_listed_before_witness :
  Forall2 (λ route route', ∀ a, a ∈ airlines route' → a ∈ airlines route)
          two_hops (minimizeAirlines front_insertion_order two_hops).
Proof.
  apply (minimizeAirlines_listed_before front_insertion_order two_hops).
  - exact front_insertion_order_ok.
  - repeat constructor; by apply (bool_decide_unpack _).
Defined.

(** ** Building itineraries *)

Section Building.
Context (g : Graph) (hop : Vertex → string → list string).

Lemma looked_up_cons a b p : looked_up (a :: b :: p) = a :: looked_up (b :: p).
Proof. reflexivity. Qed.

Lemma routePath_present p :
  p ≠ [] → Forall (present g) (looked_up p) →
  routePath g hop p = Ok (itinerary g hop p).
Proof.
  induction p as [|a [|b p] IH]; [done..|]. intros _ Hp.
  rewrite looked_up_cons in Hp. apply Forall_cons in Hp as [[v Hv] Hp].
  rewrite routePath_cons, itinerary_cons, Hv, IH by done.
  unfold hop_between. by rewrite Hv.
Qed.

Lemma routePath_absent p :
  ¬ Forall (present g) (looked_up p) → routePath g hop p = Err NotFound.
Proof.
  induction p as [|a [|b p] IH]; [intros []; constructor..|]. intros Hp.
  rewrite routePath_cons.
  destruct (Graph.findVertex g a) as [v|e] eqn:Hv.
  - rewrite IH; [done|]. intros Hrest. apply Hp.
    rewrite looked_up_cons. constructor; [by exists v|done].
  - unfold Graph.findVertex in Hv.
    destruct (list_find _ g) as [[??]|]; [done|]. by injection Hv as <-.
Qed.

Lemma endpoints_itinerary p :
  endpoints (itinerary g hop p) = zip p (tail p).
Proof.
  unfold endpoints. induction p as [|a [|b p] IH]; [done..|].
  rewrite itinerary_cons, fmap_cons, IH. done.
Qed.

(** X5: the loop that turns one path of codes into hops reads out of range
    on an empty path, fails with [NotFound] when a code other than the last
    one is absent from the graph, and otherwise builds one hop per pair of
    consecutive codes, so one hop less than there are codes. *)
Theorem routePath_hops (p : list string) :
  routePath g hop [] = Err Undefined ∧
  (p ≠ [] → ¬ Forall (present g) (looked_up p) →
   routePath g hop p = Err NotFound) ∧
  (p ≠ [] → Forall (present g) (looked_up p) →
   ∃ rs, routePath g hop p = Ok rs ∧
         endpoints rs = zip p (tail p) ∧
         length rs = pred (length p) ∧ chained rs).
Proof.
  split; [done|]. split; [intros _; apply routePath_absent|].
  intros Hne Hp. exists (itinerary g hop p).
  split; [by apply routePath_present|].
  split; [apply endpoints_itinerary|].
  split; [apply length_itinerary|apply chained_itinerary].
Qed.

Lemma routePath_result p :
  routePath g hop p = Ok (itinerary g hop p) ∨
  routePath g hop p = Err NotFound ∨ routePath g hop p = Err Undefined.
Proof.
  destruct p as [|a p]; [auto|].
  destruct (decide (Forall (present g) (looked_up (a :: p)))) as [Hp|Hp].
  - left. by apply routePath_present.
  - right. left. by apply routePath_absent.
Qed.

Lemma collectPaths_Ok ps acc paths :
  collectPaths g hop acc ps = Ok paths → NoDup acc →
  NoDup paths ∧
  (∀ p, p ∈ ps → routePath g hop p = Ok (itinerary g hop p)) ∧
  (∀ it, it ∈ paths ↔ (it ∈ acc ∨ ∃ p, p ∈ ps ∧ it = itinerary g hop p)) ∧
  acc `prefix_of` paths.
Proof.
  revert acc. induction ps as [|p ps IH]; intros acc Hok Hnd.
  - injection Hok as <-. split; [done|]. split; [by intros ? ?%elem_of_nil|].
    split; [|done]. intros it. split; [auto|].
    intros [?|(p & ?%elem_of_nil & _)]; done.
  - cbn [collectPaths] in Hok.
    destruct (routePath_result p) as [Hp|[Hp|Hp]]; rewrite Hp in Hok; [|done..].
    simpl in Hok.
    destruct (IH _ Hok (NoDup_push_new _ _ Hnd)) as (Hnd' & Hall & Hin & Hpre).
    split; [done|]. split.
    { intros q [->|Hq]%elem_of_cons; [done|by apply Hall]. }
    split.
    + intros it. rewrite Hin, elem_of_push_new. setoid_rewrite elem_of_cons.
      naive_solver.
    + etransitivity; [|exact Hpre]. unfold push_new.
      case_decide; [done|by apply prefix_app_r].
Qed.

End Building.

Lemma routePath_Ok_inv g hop p rs :
  routePath g hop p = Ok rs →
  p ≠ [] ∧ Forall (present g) (looked_up p) ∧ rs = itinerary g hop p.
Proof.
  intros Hok. destruct p as [|a p]; [done|]. split; [done|].
  destruct (decide (Forall (present g) (looked_up (a :: p)))) as [Hp|Hp].
  - split; [done|]. rewrite routePath_present in Hok by done. congruence.
  - rewrite routePath_absent in Hok by done. done.
Qed.

Lemma collectPaths_total g hop ps acc :
  (∀ p, p ∈ ps → routePath g hop p = Ok (itinerary g hop p)) →
  ∃ paths, collectPaths g hop acc ps = Ok paths.
Proof.
  revert acc. induction ps as [|p ps IH]; intros acc Hps; [by eexists|].
  cbn [collectPaths]. rewrite Hps by left. simpl.
  apply IH. intros q Hq. apply Hps. by right.
Qed.

(** X6: the loop of [findBestFlightOptions] over the paths of codes
    succeeds exactly when every path is non-empty and made, up to its last
    code, of codes of the graph; it then returns the itineraries of the
    paths, each once. *)
Theorem collectPaths_each_once (g : Graph)
    (hop : Vertex → string → list string) (ps : list (list string)) :
  ((∃ paths, collectPaths g hop [] ps = Ok paths) ↔
   ∀ p, p ∈ ps → p ≠ [] ∧ Forall (present g) (looked_up p)) ∧
  ∀ paths, collectPaths g hop [] ps = Ok paths →
    NoDup paths ∧
    ∀ it, it ∈ paths ↔ ∃ p, p ∈ ps ∧ it = itinerary g hop p.
Proof.
  split; [split|].
  - intros [paths Hok] p Hp.
    destruct (collectPaths_Ok g hop ps [] paths Hok) as (_ & Hall & _);
      [apply NoDup_nil_2|].
    apply Hall, routePath_Ok_inv in Hp as (? & ? & _). done.
  - intros Hps. apply collectPaths_total. intros p [? ?]%Hps.
    by apply routePath_present.
  - intros paths Hok.
    destruct (collectPaths_Ok g hop ps [] paths Hok) as (Hnd & _ & Hin & _);
      [apply NoDup_nil_2|].
    split; [done|]. intros it. rewrite Hin. split; [|auto].
    intros [?%elem_of_nil|?]; done.
Qed.

(** ** Options with the fewest airlines *)

Lemma findVertex_elem_of g c v : Graph.findVertex g c = Ok v → v ∈ g.
Proof.
  unfold Graph.findVertex.
  destruct (list_find _ g) as [[i w]|] eqn:Hf; [|done]. intros [= <-].
  apply list_find_Some in Hf as (Hw & _). by eapply list_elem_of_lookup_2.
Qed.

Lemma flightAirlines_NoDup g c v b :
  no_duplicate_flights g → Graph.findVertex g c = Ok v →
  NoDup (flightAirlines v b).
Proof.
  intros Hg Hv%findVertex_elem_of. specialize (Hg v Hv).
  unfold flightAirlines. induction (adj v) as [|e l IH]; [constructor|].
  rewrite fmap_cons in Hg. apply NoDup_cons in Hg as [He Hl].
  rewrite filter_cons. case_decide as Hd; [|by apply IH].
  rewrite fmap_cons. apply NoDup_cons. split; [|by apply IH].
  intros (e' & Ha & [Hd' He']%list_elem_of_filter)%list_elem_of_fmap.
  apply He, list_elem_of_fmap. exists e'. split; [|done]. congruence.
Qed.

Lemma findBestFlightOptions_endpoints_NoDup fms s d paths :
  findBestFlightOptions fms s d = Ok paths → NoDup (endpoints <$> paths).
Proof.
  intros Hok.
  destruct (findBestFlightOptions_present fms s d paths Hok) as [Hs Hd].
  destruct (findBestFlightOptions_spec fms s d Hs Hd) as (paths' & Hok' & Hnd & Hin).
  assert (paths' = paths) as -> by congruence.
  apply NoDup_fmap_2_strong; [|done].
  intros it1 it2 (k1 & p1 & _ & _ & ->)%Hin (k2 & p2 & _ & _ & ->)%Hin He.
  rewrite (itinerary_endpoints _ _ p1), (itinerary_endpoints _ _ p2).
  by rewrite He.
Qed.

(** X7: [findBestFlightOptionsWithFewestAirlines] fails exactly as
    [findBestFlightOptions] does and otherwise returns as many itineraries,
    with the same hops in the same order and no itinerary twice; in a graph
    without duplicate flights every airline it lists on a hop operates an
    edge of that hop. *)
Theorem findBestFlightOptionsWithFewestAirlines_same_hops
    (iteration : list (string * nat) → list (string * nat))
    (fms : FlightManagementSystem) (s d : string) :
  iteration_order iteration →
  (∀ e, findBestFlightOptionsWithFewestAirlines iteration fms s d = Err e ↔
        findBestFlightOptions fms s d = Err e) ∧
  ∀ paths, findBestFlightOptions fms s d = Ok paths →
    ∃ fewest,
      findBestFlightOptionsWithFewestAirlines iteration fms s d = Ok fewest ∧
      endpoints <$> fewest = endpoints <$> paths ∧
      NoDup fewest ∧
      (no_duplicate_flights (flights fms) →
       ∀ it route a, it ∈ fewest → route ∈ it → a ∈ airlines route →
         ∃ e, e ∈ Graph.adjOf (flights fms) (source route) ∧
              dest e = target route ∧ airline e = a).
Proof.
  intros Hit. unfold findBestFlightOptionsWithFewestAirlines. split.
  { intros e. by destruct (findBestFlightOptions fms s d). }
  intros paths Hok. rewrite Hok. simpl. eexists. split; [done|].
  assert (endpoints <$> (minimizeAirlines iteration <$> paths) =
          endpoints <$> paths) as Hend.
  { rewrite <- list_fmap_compose. apply list_fmap_ext. intros i it _. simpl.
    by destruct (minimizeAirlines_spec iteration Hit it) as [Heq Hne];
      destruct (decide (max_occurrences it = length it)) as [Hmax|Hmax];
      [destruct (Heq Hmax) as (F & -> & _); apply endpoints_with_airlines
      |rewrite Hne]. }
  split; [done|]. split.
  { apply (NoDup_fmap_1 endpoints). rewrite Hend.
    by eapply findBestFlightOptions_endpoints_NoDup. }
  intros Hg it' route' a Hit' Hroute' Ha.
  apply list_elem_of_fmap in Hit' as (it & -> & Hin).
  destruct (findBestFlightOptions_present fms s d paths Hok) as [Hs Hd].
  destruct (findBestFlightOptions_spec fms s d Hs Hd) as (paths' & Hok' & _ & Hspec).
  assert (paths' = paths) as -> by congruence.
  apply Hspec in Hin as (k & p & _ & _ & ->).
  set (it := itinerary (flights fms) flightAirlines p) in *.
  assert (∀ route, route ∈ it →
            route = hop_between (flights fms) flightAirlines
                      (source route) (target route)) as Hhop.
  { intros route. apply itinerary_hop_between. }
  assert (Forall (λ route, NoDup (airlines route)) it) as Hnd.
  { apply Forall_forall. intros route Hr. rewrite (Hhop route Hr). simpl.
    destruct (Graph.findVertex _ _) eqn:Hv; [|constructor].
    by eapply flightAirlines_NoDup. }
  pose proof (minimizeAirlines_subset iteration it Hit Hnd) as Hsub.
  apply list_elem_of_lookup_1 in Hroute' as [i Hi].
  destruct (Forall2_lookup_r _ _ _ _ _ Hsub Hi) as (route & Hroute & Hlisted).
  assert (source route' = source route ∧ target route' = target route) as [-> ->].
  { destruct (minimizeAirlines_hops iteration it Hit) as [He _].
    unfold endpoints in He.
    assert ((λ r, (source r, target r)) <$>
              (minimizeAirlines iteration it !! i) =
            (λ r, (source r, target r)) <$> (it !! i)) as Hi'.
    { by rewrite <- !list_lookup_fmap, He. }
    rewrite Hi, Hroute in Hi'. simpl in Hi'. by injection Hi' as -> ->. }
  specialize (Hlisted a Ha).
  apply list_elem_of_lookup_2 in Hroute.
  rewrite (Hhop route Hroute) in Hlisted. simpl in Hlisted.
  unfold Graph.adjOf.
  destruct (Graph.findVertex _ _); [|by apply elem_of_nil in Hlisted].
  apply list_elem_of_fmap in Hlisted as (e & -> & [He Hin]%list_elem_of_filter).
  eauto.
Qed.

Lemma findBestFlightOptionsWithFewestAirlines_same_hops_witness :
  (∀ e, findBestFlightOptionsWithFewestAirlines front_insertion_order
          triangle "A" "C" = Err e ↔
        findBestFlightOptions triangle "A" "C" = Err e) ∧
  ∀ paths, findBestFlightOptions triangle "A" "C" = Ok paths →
    ∃ fewest,
      findBestFlightOptionsWithFewestAirlines front_insertion_order
        triangle "A" "C" = Ok fewest ∧
      endpoints <$> fewest = endpoints <$> paths ∧
      NoDup fewest ∧
      (no_duplicate_flights (flights triangle) →
       ∀ it route a, it ∈ fewest → route ∈ it → a ∈ airlines route →
         ∃ e, e ∈ Graph.adjOf (flights triangle) (source route) ∧
              dest e = target route ∧ airline e = a).
Proof.
  apply (findBestFlightOptionsWithFewestAirlines_same_hops
           front_insertion_order triangle "A" "C").
  exact front_insertion_order_ok.
Defined.

(** ** What an itinerary lists *)

Section Listing.
Context (g : Graph) (hop : Vertex → string → list string).

Lemma itinerary_head p route :
  head (itinerary g hop p) = Some route → head p = Some (source route).
Proof. destruct p as [|a [|b p]]; [done..|]. by intros [= <-]. Qed.

Lemma itinerary_last p route :
  last (itinerary g hop p) = Some route → last p = Some (target route).
Proof.
  induction p as [|a [|b [|c p]] IH]; [done..| |].
  - by intros [= <-].
  - rewrite itinerary_cons, itinerary_cons, !last_cons_cons.
    rewrite <- itinerary_cons. exact IH.
Qed.

Lemma itinerary_linked sel p route :
  linked g sel p → route ∈ itinerary g hop p →
  target route ∈ Graph.succs g sel (source route).
Proof.
  induction p as [|a [|b p] IH]; [by intros _ ?%elem_of_nil..|].
  intros [Hb Hlk]. rewrite itinerary_cons.
  intros [->|Hr]%elem_of_cons; [done|by apply IH].
Qed.

End Listing.

Lemma itinerary_ends g hop sel s d k p it :
  route_of g sel s d k p → it = itinerary g hop p → it ≠ [] →
  ∃ first final, head it = Some first ∧ last it = Some final ∧
                 source first = s ∧ target final = d.
Proof.
  intros (_ & Hh & Hl & _) -> Hne.
  destruct (head (itinerary g hop p)) as [first|] eqn:Hfirst;
    [|by apply head_None in Hfirst].
  destruct (last (itinerary g hop p)) as [final|] eqn:Hfinal;
    [|by apply last_None in Hfinal].
  exists first, final. split; [done|]. split; [done|].
  apply itinerary_head in Hfirst. apply itinerary_last in Hfinal.
  split; congruence.
Qed.

(** X8: every itinerary of [findBestFlightOptions] that has a hop starts at
    the source and ends at the destination, and every hop lists at least one
    airline: exactly the airlines of the edges between its two airports. *)
Theorem findBestFlightOptions_direct_flights (fms : FlightManagementSystem)
    (s d : string) (paths : list (list Route)) (it : list Route) :
  findBestFlightOptions fms s d = Ok paths → it ∈ paths →
  (it ≠ [] →
   ∃ first final, head it = Some first ∧ last it = Some final ∧
                  source first = s ∧ target final = d) ∧
  ∀ route, route ∈ it →
    airlines route ≠ [] ∧
    ∀ a, a ∈ airlines route ↔
         ∃ e, e ∈ Graph.adjOf (flights fms) (source route) ∧
              dest e = target route ∧ airline e = a.
Proof.
  intros Hok Hit.
  destruct (findBestFlightOptions_present fms s d paths Hok) as [Hs Hd].
  destruct (findBestFlightOptions_spec fms s d Hs Hd) as (paths' & Hok' & _ & Hin).
  assert (paths' = paths) as -> by congruence.
  apply Hin in Hit as (k & p & _ & Hp & Heq).
  split; [by eapply itinerary_ends|]. subst it. intros route Hr.
  pose proof Hp as (_ & _ & _ & Hlk).
  pose proof (itinerary_linked _ flightAirlines [] p route Hlk Hr) as Hsucc.
  apply elem_of_succs in Hsucc as (e0 & He0 & _ & Hd0).
  assert (∀ a, a ∈ airlines route ↔
               ∃ e, e ∈ Graph.adjOf (flights fms) (source route) ∧
                    dest e = target route ∧ airline e = a) as Hair.
  { intros a. rewrite (itinerary_hop_between _ _ _ _ Hr) at 1. simpl.
    unfold Graph.adjOf in *. destruct (Graph.findVertex _ _).
    - unfold flightAirlines. rewrite list_elem_of_fmap.
      setoid_rewrite list_elem_of_filter. naive_solver.
    - by apply elem_of_nil in He0. }
  split; [|done]. intros Hnil.
  assert (airline e0 ∈ airlines route) as Ha by (apply Hair; eauto).
  rewrite Hnil in Ha. by apply elem_of_nil in Ha.
Qed.

Lemma findBestFlightOptions_direct_flights_witness :
  ([mkRoute "A" "C" ["X"]] ≠ [] →
   ∃ first final, head [mkRoute "A" "C" ["X"]] = Some first ∧
                  last [mkRoute "A" "C" ["X"]] = Some final ∧
                  source first = "A" ∧ target final = "C") ∧
  ∀ route, route ∈ [mkRoute "A" "C" ["X"]] →
    airlines route ≠ [] ∧
    ∀ a, a ∈ airlines route ↔
         ∃ e, e ∈ Graph.adjOf (flights triangle) (source route) ∧
              dest e = target route ∧ airline e = a.
Proof.
  apply (findBestFlightOptions_direct_flights triangle "A" "C"
           [[mkRoute "A" "C" ["X"]]]).
  - vm_compute. reflexivity.
  - left.
Defined.

(** X9: in the search with selected airlines every itinerary with a hop
    starts at the source and ends at the destination; with a non-empty
    selection every hop lists at least one airline, exactly the selected
    airlines of the edges between its two airports; with an empty selection
    no hop lists any airline. *)
Theorem findBestFlightOptionsAirlines_selected (fms : FlightManagementSystem)
    (s d : string) (sel : list string) (paths : list (list Route))
    (it : list Route) :
  findBestFlightOptionsAirlines fms s d sel = Ok paths → it ∈ paths →
  (it ≠ [] →
   ∃ first final, head it = Some first ∧ last it = Some final ∧
                  source first = s ∧ target final = d) ∧
  (∀ route a, route ∈ it →
     a ∈ airlines route ↔
     (a ∈ sel ∧ ∃ e, e ∈ Graph.adjOf (flights fms) (source route) ∧
                     dest e = target route ∧ airline e = a)) ∧
  (sel ≠ [] → ∀ route, route ∈ it → airlines route ≠ []) ∧
  (sel = [] → ∀ route, route ∈ it → airlines route = []).
Proof.
  intros Hok Hit.
  destruct (findBestFlightOptionsAirlines_present _ _ _ _ _ Hok) as [Hs Hd].
  destruct (findBestFlightOptionsAirlines_spec fms s d sel Hs Hd)
    as (paths' & Hok' & _ & Hin).
  assert (paths' = paths) as -> by congruence.
  apply Hin in Hit as (k & p & _ & Hp & Heq).
  split; [by eapply itinerary_ends|]. subst it.
  pose proof Hp as (_ & _ & _ & Hlk).
  assert (∀ route a, route ∈ itinerary (flights fms) (flightAirlinesIn sel) p →
            a ∈ airlines route ↔
            (a ∈ sel ∧ ∃ e, e ∈ Graph.adjOf (flights fms) (source route) ∧
                            dest e = target route ∧ airline e = a)) as Hair.
  { intros route a Hr.
    pose proof (itinerary_linked _ (flightAirlinesIn sel) sel p route Hlk Hr)
      as Hsucc.
    apply elem_of_succs in Hsucc as (e0 & He0 & _ & Hd0).
    rewrite (itinerary_hop_between _ _ _ _ Hr) at 1. simpl.
    unfold Graph.adjOf in *. destruct (Graph.findVertex _ _).
    - unfold flightAirlinesIn. rewrite list_elem_of_fmap.
      setoid_rewrite list_elem_of_filter. naive_solver.
    - by apply elem_of_nil in He0. }
  split; [done|]. split.
  - intros Hsel route Hr Hnil.
    pose proof (itinerary_linked _ (flightAirlinesIn sel) sel p route Hlk Hr)
      as Hsucc.
    apply elem_of_succs in Hsucc as (e0 & He0 & Hal & Hd0).
    assert (airline e0 ∈ airlines route) as Ha.
    { apply Hair; [done|]. split; [|eauto].
      unfold Graph.allowed in Hal. destruct sel; [done|].
      by apply bool_decide_eq_true in Hal. }
    rewrite Hnil in Ha. by apply elem_of_nil in Ha.
  - intros -> route Hr. destruct (airlines route) as [|a l] eqn:Ha; [done|].
    assert (a ∈ airlines route) as Hin' by (rewrite Ha; left).
    apply Hair in Hin' as [Hin' _]; [|done]. by apply elem_of_nil in Hin'.
Qed.

Lemma findBestFlightOptionsAirlines_selected_witness :
  ([mkRoute "A" "B" ["Y"]; mkRoute "B" "C" ["Y"]] ≠ [] →
   ∃ first final,
     head [mkRoute "A" "B" ["Y"]; mkRoute "B" "C" ["Y"]] = Some first ∧
     last [mkRoute "A" "B" ["Y"]; mkRoute "B" "C" ["Y"]] = Some final ∧
     source first = "A" ∧ target final = "C") ∧
  (∀ route a, route ∈ [mkRoute "A" "B" ["Y"]; mkRoute "B" "C" ["Y"]] →
     a ∈ airlines route ↔
     (a ∈ ["Y"] ∧ ∃ e, e ∈ Graph.adjOf (flights detour) (source route) ∧
                       dest e = target route ∧ airline e = a)) ∧
  (["Y"] ≠ [] → ∀ route,
     route ∈ [mkRoute "A" "B" ["Y"]; mkRoute "B" "C" ["Y"]] →
     airlines route ≠ []) ∧
  (["Y"] = [] → ∀ route,
     route ∈ [mkRoute "A" "B" ["Y"]; mkRoute "B" "C" ["Y"]] →
     airlines route = []).
Proof.
  apply (findBestFlightOptionsAirlines_selected detour "A" "C" ["Y"]
           [[mkRoute "A" "B" ["Y"]; mkRoute "B" "C" ["Y"]]]).
  - vm_compute. reflexivity.
  - left.
Defined.

(** ** The range of the smallest distance *)

Lemma findBestFlightOptions_routes_present fms s d paths :
  findBestFlightOptions fms s d = Ok paths →
  Forall (Forall (λ route, present (flights fms) (source route) ∧
                           present (flights fms) (target route))) paths.
Proof.
  intros Hok.
  destruct (findBestFlightOptions_present fms s d paths Hok) as [Hs Hd].
  destruct (findBestFlightOptions_spec fms s d Hs Hd) as (paths' & Hok' & _ & Hin).
  assert (paths' = paths) as -> by congruence.
  apply Forall_forall. intros it (k & p & _ & Hp & ->)%Hin.
  destruct Hp as (_ & _ & Hl & Hlk).
  apply (itinerary_present _ _ []); [done|]. rewrite Hl. by intros ? [= <-].
Qed.






(** ** Reachable destinations, the queried airport listed *)

Lemma size_list_to_set_le `{Countable A} (l : list A) :
  (size (list_to_set l : gset A) ≤ length l)%nat.
Proof.
  induction l as [|x l IH]; [done|].
  rewrite list_to_set_cons, size_union_alt, size_singleton. cbn [length].
  assert (list_to_set l ∖ {[x]} ⊆ (list_to_set l : gset A)) as Hsub
    by set_solver.
  apply subseteq_size in Hsub. lia.
Qed.

Lemma size_insert_new `{Countable A} (x : A) (X : gset A) :
  size ({[x]} ∪ X) = if decide (x ∈ X) then size X else S (size X).
Proof.
  case_decide as Hx.
  - f_equal. apply set_eq. set_solver.
  - rewrite size_union by set_solver. by rewrite size_singleton.
Qed.

Section Listed.
Context (fms : FlightManagementSystem).

Lemma airport_at_of c :
  is_Some (airports fms !! c) → airport_at fms c = Ok (airport_of fms c).
Proof. intros [a Ha]. unfold airport_at, airport_of. by rewrite Ha. Qed.

Lemma mapM_airport_of l :
  (∀ x, x ∈ l → is_Some (airports fms !! x)) →
  mapM (airport_at fms) l = Ok (airport_of fms <$> l).
Proof.
  induction l as [|x l IH]; intros Hl; [done|].
  cbn [mapM]. rewrite airport_at_of by (apply Hl; left).
  rewrite IH by (intros; apply Hl; by right). done.
Qed.

(** The flags after the second loop. *)
Lemma reachableFlags_spec src codes flags :
  (∀ x, x ∈ codes → is_Some (airports fms !! x)) →
  is_Some (airports fms !! src) →
  reachableFlags fms src codes flags =
  Ok (if decide (Exists (λ c, c ≠ src ∧
                   city (airport_of fms c) = city (airport_of fms src)) codes)
      then false else flags.1,
      if decide (Exists (λ c, c ≠ src ∧
                   country (airport_of fms c) = country (airport_of fms src)) codes)
      then false else flags.2).
Proof.
  intros Hcodes Hsrc. revert flags.
  induction codes as [|x codes IH]; intros flags.
  - cbn [reachableFlags]. rewrite !decide_False by (by intros ?%Exists_nil).
    by destruct flags.
  - cbn [reachableFlags].
    destruct (decide (x ≠ src)) as [Hx|Hx].
    + rewrite (airport_at_of x) by (apply Hcodes; left).
      rewrite (airport_at_of src) by done. simpl.
      rewrite IH by (intros; apply Hcodes; by right). cbn [fst snd].
      f_equal. f_equal;
        repeat case_decide; try done; rewrite Exists_cons in *; naive_solver.
    + rewrite IH by (intros; apply Hcodes; by right).
      f_equal. f_equal;
        repeat case_decide; try done; rewrite Exists_cons in *; naive_solver.
Qed.

End Listed.

Lemma size_t_sub_small a b : 0 ≤ a - b < 2 ^ 64 → size_t_sub a b = a - b.
Proof. intros. unfold size_t_sub. by apply Z.mod_small. Qed.

Lemma listed_split (src : string) (l : list string) :
  src ∈ l →
  (list_to_set l : gset string) = {[src]} ∪ other_codes src l ∧
  src ∉ other_codes src l.
Proof.
  intros Hsrc. unfold other_codes. split; [|set_solver].
  apply set_eq. intros x. destruct (decide (x = src)); set_solver.
Qed.

(** X11: when the list of destinations contains the queried airport and
    every listed code is in the airports table, the three numbers printed
    are the number of other airports listed, the number of their cities and
    the number of their countries, except that the number of cities is one
    too large when another listed airport has the queried airport's city
    name but none lies in its city. *)
Theorem reachableCounts_source_listed (fms : FlightManagementSystem)
    (airportCode : string) (destinations : list string) :
  airportCode ∈ destinations →
  (∀ c, c ∈ destinations → is_Some (airports fms !! c)) →
  Z.of_nat (length destinations) < 2 ^ 64 →
  reachableCounts fms airportCode destinations =
  Ok (Z.of_nat (size (other_codes airportCode destinations)),
      Z.of_nat (size (cities_of fms (other_codes airportCode destinations))) +
      (if decide (namesake_city fms airportCode
                    (other_codes airportCode destinations))
       then 1 else 0),
      Z.of_nat (size (countries_of fms (other_codes airportCode destinations)))).
Proof.
  intros Hsrc Htable Hlen. unfold reachableCounts.
  rewrite (mapM_airport_of fms destinations Htable). simpl.
  rewrite reachableFlags_spec; [|set_solver|by apply Htable]. simpl.
  destruct (listed_split airportCode destinations Hsrc) as [HD Hnot].
  set (others := other_codes airportCode destinations) in *.
  pose proof (size_list_to_set_le destinations) as Hb1.
  pose proof (size_list_to_set_le
    ((λ a, (city a, country a)) <$> (airport_of fms <$> destinations))) as Hb2.
  pose proof (size_list_to_set_le
    (country <$> (airport_of fms <$> destinations))) as Hb3.
  rewrite !length_fmap in Hb2. rewrite !length_fmap in Hb3.
  assert ((list_to_set ((λ a, (city a, country a)) <$>
             (airport_of fms <$> destinations)) : gset (string * string)) =
          {[locale fms airportCode]} ∪ cities_of fms others) as Hcities.
  { rewrite <- list_fmap_compose, (list_to_set_fmap_L (C:=gset string)), HD.
    unfold cities_of. rewrite set_map_union_L, set_map_singleton_L. done. }
  assert ((list_to_set (country <$> (airport_of fms <$> destinations))
             : gset string) =
          {[country (airport_of fms airportCode)]} ∪ countries_of fms others)
    as Hcountries.
  { rewrite <- list_fmap_compose, (list_to_set_fmap_L (C:=gset string)), HD.
    unfold countries_of. rewrite set_map_union_L, set_map_singleton_L. done. }
  rewrite Hcities, Hcountries in *. rewrite HD in *.
  rewrite !size_insert_new in *. rewrite decide_False in * by done.
  assert (∀ P : string → Prop,
    Exists (λ c, c ≠ airportCode ∧ P c)
           (elements ({[airportCode]} ∪ others)) ↔ set_Exists P others)
    as Hex.
  { intros P. rewrite Exists_exists. unfold set_Exists. subst others.
    unfold other_codes. split.
    - intros (c & Hc & ? & ?). exists c. set_solver.
    - intros (c & Hc & ?). exists c. set_solver. }
  assert (country (airport_of fms airportCode) ∈ countries_of fms others ↔
          set_Exists (λ c, country (airport_of fms c) =
                           country (airport_of fms airportCode)) others)
    as Hcountry.
  { unfold countries_of, set_Exists. rewrite elem_of_map. naive_solver. }
  assert (locale fms airportCode ∈ cities_of fms others →
          set_Exists (λ c, city (airport_of fms c) =
                           city (airport_of fms airportCode)) others)
    as Hcity.
  { unfold cities_of, set_Exists. rewrite elem_of_map.
    intros (c & Heq & Hc). exists c. split; [done|].
    unfold locale in Heq. congruence. }
  unfold namesake_city.
  f_equal. f_equal; [f_equal|].
  - rewrite size_t_sub_small; lia.
  - repeat case_decide; try (rewrite Hex in *); try tauto;
      simpl; rewrite size_t_sub_small; lia.
  - repeat case_decide; try (rewrite Hex in *); try tauto;
      simpl; rewrite size_t_sub_small; lia.
Qed.

Lemma reachableCounts_source_listed_witness :
  reachableCounts triangle "A" ["A"; "B"; "C"] =
  Ok (Z.of_nat (size (other_codes "A" ["A"; "B"; "C"])),
      Z.of_nat (size (cities_of triangle (other_codes "A" ["A"; "B"; "C"]))) +
      (if decide (namesake_city triangle "A" (other_codes "A" ["A"; "B"; "C"]))
       then 1 else 0),
      Z.of_nat (size (countries_of triangle (other_codes "A" ["A"; "B"; "C"])))).
Proof.
  apply (reachableCounts_source_listed triangle "A" ["A"; "B"; "C"]).
  - by left.
  - intros c Hc.
    repeat (apply elem_of_cons in Hc as [->|Hc]);
      [by eexists; vm_compute..|by apply elem_of_nil in Hc].
  - by vm_compute.
Defined.

(** One other airport, in one other city, is reported as two cities. *)
Example reachableCounts_namesakes :
  reachableCounts namesakes "A" ["A"; "B"] = Ok (1, 2, 1) ∧
  namesake_city namesakes "A" (other_codes "A" ["A"; "B"]).
Proof. split; [by vm_compute|]. apply (bool_decide_unpack _). by vm_compute. Qed.

(** ** Counting at one airport *)

Lemma findVertex_present g c :
  present g c ∨ Graph.findVertex g c = Err NotFound.
Proof.
  destruct (decide (present g c)) as [?|Hc]; [by left|right].
  by apply findVertex_absent.
Qed.

(** X12: for a code without a vertex both counts fail in the same way;
    otherwise an airport has at most as many airlines as flights, and no
    airline exactly when it has no flight. *)
Theorem getNumberOfAirlinesFromAirport_at_most_flights
    (fms : FlightManagementSystem) (airportCode : string) :
  (¬ present (flights fms) airportCode ∧
   getNumberOfFlightsFromAirport fms airportCode = Err NotFound ∧
   getNumberOfAirlinesFromAirport fms airportCode = Err NotFound) ∨
  ∃ nflights nairlines,
    present (flights fms) airportCode ∧
    getNumberOfFlightsFromAirport fms airportCode = Ok nflights ∧
    getNumberOfAirlinesFromAirport fms airportCode = Ok nairlines ∧
    0 ≤ nairlines ≤ nflights ∧
    (nairlines = 0 ↔ nflights = 0).
Proof.
  unfold getNumberOfFlightsFromAirport, getNumberOfAirlinesFromAirport.
  destruct (decide (present (flights fms) airportCode)) as [[v Hv]|Hc].
  - right. rewrite Hv. simpl. do 2 eexists.
    split; [by exists v|]. do 2 (split; [done|]).
    unfold Graph.getOutdegree.
    pose proof (size_list_to_set_le (airline <$> adj v)) as Hle.
    rewrite length_fmap in Hle. split; [lia|].
    destruct (adj v) as [|e es]; [done|].
    split; [|done]. intros Hz. exfalso.
    assert (size (list_to_set (airline <$> e :: es) : gset string) = 0%nat)
      as Hsize by lia.
    apply size_empty_inv in Hsize. set_solver.
  - left. split; [done|]. by rewrite (findVertex_absent _ _ Hc).
Qed.

Section FromCity.
Context (fms : FlightManagementSystem) (cityName countryName : string).

Lemma countriesFromCity_grows vs (X Y : gset string) :
  foldM (countriesFromCityStep fms cityName countryName) X vs = Ok Y →
  X ⊆ Y ∧
  ∀ v a, v ∈ vs → airports fms !! info v = Some a →
         city a = cityName → country a = countryName →
    ∃ cs, mapM (λ e, country <$> airport_at fms (dest e)) (adj v) = Ok cs ∧
          list_to_set cs ⊆ Y.
Proof.
  revert X. induction vs as [|v vs IH]; intros X Hfold.
  { injection Hfold as <-. split; [done|]. by intros ?? ?%elem_of_nil. }
  cbn [foldM] in Hfold.
  destruct (countriesFromCityStep fms cityName countryName X v)
    as [X'|] eqn:Hstep; [|done].
  simpl in Hfold. destruct (IH X' Hfold) as [Hsub Hvs].
  unfold countriesFromCityStep, airport_at in Hstep.
  destruct (airports fms !! info v) as [a|] eqn:Ha; [|done]. simpl in Hstep.
  case_decide as Hin.
  - destruct (mapM _ (adj v)) as [cs|] eqn:Hcs; [|done].
    injection Hstep as <-. split; [set_solver|].
    intros w b [-> | Hw]%elem_of_cons Hb ??; [|by eapply Hvs].
    exists cs. split; [done|set_solver].
  - injection Hstep as <-. split; [done|].
    intros w b [-> | Hw]%elem_of_cons Hb ??; [|by eapply Hvs].
    destruct Hin. naive_solver.
Qed.

End FromCity.

(** X13: when the count for a city succeeds, the count for each airport of
    the graph lying in that city succeeds too and is not larger. *)
Theorem getNumberOfCountriesFromCity_covers_airport
    (fms : FlightManagementSystem) (airportCode : string) (a : Airport)
    (n : Z) :
  present (flights fms) airportCode →
  airports fms !! airportCode = Some a →
  getNumberOfCountriesFromCity fms (city a) (country a) = Ok n →
  ∃ m, getNumberOfCountriesFromAirport fms airportCode = Ok m ∧ 0 ≤ m ≤ n.
Proof.
  intros [v Hv] Ha Hcity. unfold getNumberOfCountriesFromCity in Hcity.
  destruct (foldM _ ∅ (flights fms)) as [Y|] eqn:Hfold; [|done].
  injection Hcity as <-.
  apply countriesFromCity_grows in Hfold as [_ Hvs].
  pose proof (findVertex_info _ _ _ Hv) as Hinfo.
  destruct (Hvs v a) as (cs & Hcs & Hsub);
    [by eapply findVertex_elem_of|by rewrite Hinfo|done..|].
  unfold getNumberOfCountriesFromAirport. rewrite Hv. simpl. rewrite Hcs.
  simpl. eexists. split; [done|].
  apply subseteq_size in Hsub. lia.
Qed.

Lemma getNumberOfCountriesFromCity_covers_airport_witness :
  ∃ m, getNumberOfCountriesFromAirport triangle "A" = Ok m ∧ 0 ≤ m ≤ 2.
Proof.
  apply (getNumberOfCountriesFromCity_covers_airport triangle "A" (airport "A")).
  - exists (mkVertex "A" [mkEdge "B" "X" 100; mkEdge "C" "X" 300]).
    by vm_compute.
  - by vm_compute.
  - by vm_compute.
Defined.

(** ** Printing itineraries *)

Lemma result_bind_Ok {A B} (a : A) (f : A → result B) : (Ok a ≫= f) = f a.
Proof. done. Qed.

Lemma foldM_cons {A B} (f : B → A → result B) (b : B) (x : A) (l : list A) :
  foldM f b (x :: l) = f b x ≫= λ b', foldM f b' l.
Proof. done. Qed.

Section Printing.
Context (fms : FlightManagementSystem).
Hypothesis Htable : table_complete fms.

Lemma present_in_table c :
  present (flights fms) c → is_Some (airports fms !! c).
Proof.
  intros [v Hv]. rewrite <- (findVertex_info _ _ _ Hv).
  apply Htable. by eapply findVertex_elem_of.
Qed.

Lemma printRoute_present route :
  present (flights fms) (source route) → present (flights fms) (target route) →
  printRoute fms route =
  Ok [RouteLine (source route) (name (airport_of fms (source route)))
                (target route) (name (airport_of fms (target route)))
                (airlines route)].
Proof.
  intros Hs Ht. unfold printRoute.
  rewrite !airport_at_of by by apply present_in_table. done.
Qed.

Lemma printFlight_present (flight : list Route) :
  Forall (λ route, present (flights fms) (source route) ∧
                   present (flights fms) (target route)) flight →
  ∃ lines, mapM (printRoute fms) flight = Ok lines ∧
           option_lines (mjoin lines) = [].
Proof.
  induction 1 as [|route flight [Hs Ht] _ (lines & Hlines & Hopt)].
  { by exists []. }
  eexists. cbn [mapM]. rewrite (printRoute_present route Hs Ht). simpl.
  rewrite Hlines. simpl. split; [done|]. done.
Qed.

Lemma option_lines_app out1 out2 :
  option_lines (out1 ++ out2) = option_lines out1 ++ option_lines out2.
Proof. apply omap_app. Qed.

Lemma printItineraries_present (vec : list (list Route)) :
  Forall (Forall (λ route, present (flights fms) (source route) ∧
                           present (flights fms) (target route))) vec →
  ∃ shown, printItineraries fms vec = Ok shown ∧ option_lines shown = [].
Proof.
  induction 1 as [|flight rest Hflight _ (more & Hmore & Hopt)].
  { by exists []. }
  destruct (printFlight_present flight Hflight) as (lines & Hlines & Hl).
  eexists. cbn [printItineraries]. rewrite Hlines. simpl. rewrite Hmore.
  simpl. split; [done|].
  rewrite !option_lines_app, Hl, Hopt. by destruct rest.
Qed.

Lemma printOption_present s d st :
  present (flights fms) s → present (flights fms) d →
  ∃ shown, printOption fms s d st =
           Ok (st.1 + 1, st.2 ++ [OptionLine st.1] ++ shown ++ [EmptyLine]) ∧
           option_lines shown = [].
Proof.
  intros Hs Hd. unfold printOption.
  destruct (findBestFlightOptions_spec fms s d Hs Hd) as (paths & Hok & _).
  rewrite Hok. simpl.
  destruct (printItineraries_present paths) as (shown & Hshown & Hopt).
  { by eapply findBestFlightOptions_routes_present. }
  rewrite Hshown. simpl. by exists shown.
Qed.

Lemma printOption_absent s d st :
  ¬ (present (flights fms) s ∧ present (flights fms) d) →
  printOption fms s d st = Err NotFound.
Proof.
  intros Habs. unfold printOption.
  destruct (findBestFlightOptions fms s d) as [paths|e] eqn:Hf.
  { by apply findBestFlightOptions_present in Hf. }
  simpl. f_equal.
  unfold findBestFlightOptions, Graph.shortestPathsBFS in Hf.
  destruct (decide (present (flights fms) s)) as [[vs Hs]|Hs].
  - rewrite Hs in Hf. simpl in Hf. rewrite findVertex_absent in Hf.
    + simpl in Hf. congruence.
    + intros Hd. apply Habs. split; [by exists vs|done].
  - rewrite (findVertex_absent _ _ Hs) in Hf. simpl in Hf. congruence.
Qed.

(** The options of a loop over destinations are numbered consecutively. *)
Lemma printOptions_to s ds st :
  present (flights fms) s → Forall (present (flights fms)) ds →
  ∃ out, foldM (λ st d, printOption fms s d st) st ds =
         Ok (st.1 + Z.of_nat (length ds), out) ∧
         option_lines out =
         option_lines st.2 ++ seqZ st.1 (Z.of_nat (length ds)) ∧
         (ds = [] → out = st.2).
Proof.
  intros Hs Hds. revert st.
  induction Hds as [|d ds Hd _ IH]; intros st.
  { exists st.2. cbn [foldM length]. rewrite Z.add_0_r, app_nil_r.
    by destruct st. }
  destruct (printOption_present s d st Hs Hd) as (shown & Hshown & Hopt).
  rewrite foldM_cons, Hshown, result_bind_Ok.
  destruct (IH (st.1 + 1, st.2 ++ [OptionLine st.1] ++ shown ++ [EmptyLine]))
    as (out & -> & Hout & _).
  exists out. cbn [fst snd length] in *. rewrite Nat2Z.inj_succ.
  split; [f_equal; f_equal; lia|]. split; [|done].
  rewrite Hout, !option_lines_app, Hopt, (seqZ_cons st.1) by lia.
  rewrite Z.pred_succ, <- app_assoc. done.
Qed.

(** The same for a loop over sources. *)
Lemma printOptions_from ss d st :
  Forall (present (flights fms)) ss → present (flights fms) d →
  ∃ out, foldM (λ st s, printOption fms s d st) st ss =
         Ok (st.1 + Z.of_nat (length ss), out) ∧
         option_lines out =
         option_lines st.2 ++ seqZ st.1 (Z.of_nat (length ss)) ∧
         (ss = [] → out = st.2).
Proof.
  intros Hss Hd. revert st.
  induction Hss as [|s ss Hs _ IH]; intros st.
  { exists st.2. cbn [foldM length]. rewrite Z.add_0_r, app_nil_r.
    by destruct st. }
  destruct (printOption_present s d st Hs Hd) as (shown & Hshown & Hopt).
  rewrite foldM_cons, Hshown, result_bind_Ok.
  destruct (IH (st.1 + 1, st.2 ++ [OptionLine st.1] ++ shown ++ [EmptyLine]))
    as (out & -> & Hout & _).
  exists out. cbn [fst snd length] in *. rewrite Nat2Z.inj_succ.
  split; [f_equal; f_equal; lia|]. split; [|done].
  rewrite Hout, !option_lines_app, Hopt, (seqZ_cons st.1) by lia.
  rewrite Z.pred_succ, <- app_assoc. done.
Qed.

(** Two nested loops number the options row by row. *)
Lemma printOptions_grid ss ds st :
  Forall (present (flights fms)) ss → Forall (present (flights fms)) ds →
  ∃ out, foldM (λ st s, foldM (λ st d, printOption fms s d st) st ds) st ss =
         Ok (st.1 + Z.of_nat (length ss * length ds), out) ∧
         option_lines out =
         option_lines st.2 ++ seqZ st.1 (Z.of_nat (length ss * length ds)) ∧
         (ss = [] ∨ ds = [] → out = st.2).
Proof.
  intros Hss Hds. revert st.
  induction Hss as [|s ss Hs _ IH]; intros st.
  { exists st.2. cbn [foldM length Nat.mul]. rewrite Z.add_0_r, app_nil_r.
    by destruct st. }
  destruct (printOptions_to s ds st Hs Hds) as (out1 & Hout1 & Hopt1 & Hnil1).
  rewrite foldM_cons, Hout1, result_bind_Ok.
  destruct (IH (st.1 + Z.of_nat (length ds), out1))
    as (out & -> & Hout & Hnil).
  exists out. cbn [fst snd length Nat.mul] in *.
  rewrite Nat2Z.inj_add. split; [f_equal; f_equal; lia|]. split.
  - rewrite Hout, Hopt1, seqZ_app, <- app_assoc by lia. done.
  - intros [?| ->]; [done|]. rewrite Hnil by by right. by apply Hnil1.
Qed.

End Printing.

(** ** Resolving names and cities *)

Lemma vertex_present g v : v ∈ g → present g (info v).
Proof.
  intros Hv. unfold present, Graph.findVertex.
  destruct (list_find (λ w, info w = info v) g) as [[i w]|] eqn:Hf.
  - by exists w.
  - apply list_find_None in Hf. rewrite Forall_forall in Hf.
    by destruct (Hf v Hv).
Qed.

Section Resolving.
Context (fms : FlightManagementSystem).

Lemma named_cons nm v vs :
  named fms nm (v :: vs) =
  if decide (name (airport_of fms (info v)) = nm)
  then info v :: named fms nm vs else named fms nm vs.
Proof. unfold named. rewrite filter_cons. by case_decide. Qed.

Lemma in_city_cons ci co v vs :
  in_city fms ci co (v :: vs) =
  if decide (city (airport_of fms (info v)) = ci ∧
             country (airport_of fms (info v)) = co)
  then info v :: in_city fms ci co vs else in_city fms ci co vs.
Proof. unfold in_city. rewrite filter_cons. by case_decide. Qed.

Lemma named_present nm vs c :
  c ∈ named fms nm vs → ∃ v, v ∈ vs ∧ info v = c.
Proof.
  unfold named. intros (v & -> & Hv)%list_elem_of_fmap.
  apply list_elem_of_filter in Hv as [_ Hv]. by exists v.
Qed.

Lemma in_city_present ci co c :
  c ∈ in_city fms ci co (flights fms) → present (flights fms) c.
Proof.
  unfold in_city. intros (v & -> & Hv)%list_elem_of_fmap.
  apply list_elem_of_filter in Hv as [_ Hv]. by apply vertex_present.
Qed.

Lemma byNameStep_of source destination st v :
  is_Some (airports fms !! info v) →
  byNameStep fms source destination st v =
  Ok (if decide (name (airport_of fms (info v)) = source)
      then (info v, true) else st.1,
      if decide (name (airport_of fms (info v)) = destination)
      then (info v, true) else st.2).
Proof. intros Hv. unfold byNameStep. by rewrite airport_at_of. Qed.

Lemma cityCodesStep_of ci co codes v :
  is_Some (airports fms !! info v) →
  cityCodesStep fms ci co codes v =
  Ok (if decide (city (airport_of fms (info v)) = ci ∧
                 country (airport_of fms (info v)) = co)
      then codes ++ [info v] else codes).
Proof. intros Hv. unfold cityCodesStep. by rewrite airport_at_of. Qed.

(** The loop without [break] keeps the last match. *)
Lemma byName_fold source destination vs st :
  (∀ v, v ∈ vs → is_Some (airports fms !! info v)) →
  foldM (byNameStep fms source destination) st vs =
  Ok (from_option (λ c, (c, true)) st.1 (last (named fms source vs)),
      from_option (λ c, (c, true)) st.2 (last (named fms destination vs))).
Proof.
  revert st. induction vs as [|v vs IH]; intros st Hvs.
  { by destruct st. }
  rewrite foldM_cons, byNameStep_of, result_bind_Ok by (apply Hvs; left).
  rewrite IH by (intros; apply Hvs; by right).
  rewrite !named_cons. cbn [fst snd].
  f_equal. f_equal.
  - case_decide; [|done]. rewrite last_cons.
    by destruct (last (named fms source vs)).
  - case_decide; [|done]. rewrite last_cons.
    by destruct (last (named fms destination vs)).
Qed.

(** An entry missing from the table makes the loop undefined, wherever the
    names match. *)
Lemma byName_fold_undefined source destination vs st :
  (∃ v, v ∈ vs ∧ airports fms !! info v = None) →
  foldM (byNameStep fms source destination) st vs = Err Undefined.
Proof.
  revert st. induction vs as [|v vs IH]; intros st (w & Hw & Hnone).
  { by apply elem_of_nil in Hw. }
  rewrite foldM_cons.
  destruct (airports fms !! info v) as [a|] eqn:Ha.
  2:{ unfold byNameStep, airport_at. by rewrite Ha. }
  rewrite byNameStep_of, result_bind_Ok by done. apply IH. exists w. split; [|done].
  apply elem_of_cons in Hw as [-> | Hw]; [congruence|done].
Qed.

(** The loop with [break] keeps the first match. *)
Lemma firstNamed_head nm vs :
  (∀ v, v ∈ vs → is_Some (airports fms !! info v)) →
  firstNamed fms nm vs =
  Ok (from_option (λ c, (c, true)) ("", false) (head (named fms nm vs))).
Proof.
  induction vs as [|v vs IH]; intros Hvs; [done|].
  cbn [firstNamed]. rewrite airport_at_of by (apply Hvs; left).
  rewrite result_bind_Ok, named_cons. case_decide; [done|].
  apply IH. intros; apply Hvs; by right.
Qed.

Lemma cityCodes_fold ci co vs codes :
  (∀ v, v ∈ vs → is_Some (airports fms !! info v)) →
  foldM (cityCodesStep fms ci co) codes vs =
  Ok (codes ++ in_city fms ci co vs).
Proof.
  revert codes. induction vs as [|v vs IH]; intros codes Hvs.
  { cbn. by rewrite app_nil_r. }
  rewrite foldM_cons, cityCodesStep_of, result_bind_Ok by (apply Hvs; left).
  rewrite IH by (intros; apply Hvs; by right).
  rewrite in_city_cons. case_decide; [|done]. by rewrite <- app_assoc.
Qed.

Lemma cityCodes_fold2 ci1 co1 ci2 co2 vs codes :
  (∀ v, v ∈ vs → is_Some (airports fms !! info v)) →
  foldM (λ codes vertex,
           sourceCodes ← cityCodesStep fms ci1 co1 codes.1 vertex;
           destinationCodes ← cityCodesStep fms ci2 co2 codes.2 vertex;
           mret (sourceCodes, destinationCodes)) codes vs =
  Ok (codes.1 ++ in_city fms ci1 co1 vs, codes.2 ++ in_city fms ci2 co2 vs).
Proof.
  revert codes. induction vs as [|v vs IH]; intros codes Hvs.
  { cbn. rewrite !app_nil_r. by destruct codes. }
  rewrite foldM_cons, !cityCodesStep_of, !result_bind_Ok by (apply Hvs; left).
  change (mret ?x ≫= ?f) with (f x). cbv beta.
  rewrite IH by (intros; apply Hvs; by right).
  rewrite !in_city_cons. cbn [fst snd].
  f_equal. f_equal; (case_decide; [|done]); by rewrite <- app_assoc.
Qed.

End Resolving.

(** ** Queries by name and by city *)

Lemma table_complete_dec (fms : FlightManagementSystem) :
  table_complete fms ∨ ∃ v, v ∈ flights fms ∧ airports fms !! info v = None.
Proof.
  destruct (decide (Forall (λ v, is_Some (airports fms !! info v))
                           (flights fms))) as [Hall|Hex].
  - left. intros v Hv. by eapply Forall_forall in Hall.
  - right. apply not_Forall_Exists in Hex; [|apply _].
    apply Exists_exists in Hex as (v & Hv & Hnone). exists v. split; [done|].
    by apply eq_None_not_Some.
Qed.

Lemma named_is_present fms nm c :
  c ∈ named fms nm (flights fms) → present (flights fms) c.
Proof. intros (v & Hv & <-)%named_present. by apply vertex_present. Qed.

(** X14: [findBestFlightOptionsByAirportName] is undefined when a vertex
    code is missing from the airports table.  Otherwise it reports the
    source name, or else the destination name, when no vertex has an
    airport of that name, and else prints the itineraries between the last
    vertex of each name in the vertex set. *)
Theorem findBestFlightOptionsByAirportName_last_match
    (fms : FlightManagementSystem) (source destination : string) :
  ((∃ v, v ∈ flights fms ∧ airports fms !! info v = None) ∧
   findBestFlightOptionsByAirportName fms source destination = Err Undefined) ∨
  (table_complete fms ∧
   match last (named fms source (flights fms)),
         last (named fms destination (flights fms)) with
   | None, _ =>
       findBestFlightOptionsByAirportName fms source destination =
       Ok [NoAirportLine source]
   | Some _, None =>
       findBestFlightOptionsByAirportName fms source destination =
       Ok [NoAirportLine destination]
   | Some s, Some d =>
       ∃ vec shown,
         findBestFlightOptions fms s d = Ok vec ∧
         printItineraries fms vec = Ok shown ∧
         findBestFlightOptionsByAirportName fms source destination = Ok shown
   end).
Proof.
  destruct (table_complete_dec fms) as [Htable|Hmissing].
  - right. split; [done|]. unfold findBestFlightOptionsByAirportName.
    rewrite byName_fold by done. rewrite result_bind_Ok. cbn [fst snd].
    destruct (last (named fms source (flights fms))) as [s|] eqn:Hs;
      destruct (last (named fms destination (flights fms))) as [d|] eqn:Hd;
      cbn [from_option negb]; try done.
    apply last_Some_elem_of, named_is_present in Hs, Hd.
    destruct (findBestFlightOptions_spec fms s d Hs Hd) as (vec & Hvec & _).
    destruct (printItineraries_present fms Htable vec) as (shown & Hshown & _).
    { by eapply findBestFlightOptions_routes_present. }
    exists vec, shown. rewrite Hvec, result_bind_Ok. done.
  - left. split; [done|]. unfold findBestFlightOptionsByAirportName.
    by rewrite byName_fold_undefined.
Qed.

(** X15: [findBestFlightOptionsByAirportCodeToCityName] prints one option
    per vertex of the graph lying in the destination city, numbered from 1
    in the order of the vertex set, and nothing when there is none; it fails
    when the source code has no vertex and the city has one. *)
Theorem findBestFlightOptionsByAirportCodeToCityName_options
    (fms : FlightManagementSystem) (source : string)
    (destinationCity destinationCountry : string) :
  table_complete fms →
  let codes := in_city fms destinationCity destinationCountry (flights fms) in
  (present (flights fms) source ∨ codes = [] →
   ∃ out,
     findBestFlightOptionsByAirportCodeToCityName fms source
       destinationCity destinationCountry = Ok out ∧
     option_lines out = seqZ 1 (Z.of_nat (length codes)) ∧
     (codes = [] → out = [])) ∧
  (¬ present (flights fms) source → codes ≠ [] →
   findBestFlightOptionsByAirportCodeToCityName fms source
     destinationCity destinationCountry = Err NotFound).
Proof.
  intros Htable codes. unfold findBestFlightOptionsByAirportCodeToCityName.
  rewrite cityCodes_fold by done. rewrite result_bind_Ok, app_nil_l.
  fold codes. split.
  - intros [Hs|Hnil].
    + destruct (printOptions_to fms Htable source codes (1, []) Hs)
        as (out & -> & Hout & Hnil).
      { apply Forall_forall. intros c Hc. by eapply in_city_present. }
      exists out. by rewrite result_bind_Ok.
    + rewrite Hnil. by exists [].
  - intros Hs Hcodes. destruct codes as [|d ds]; [done|].
    rewrite foldM_cons, printOption_absent by tauto. done.
Qed.

Lemma table_complete_triangle : table_complete triangle.
Proof.
  intros v Hv. simpl in Hv.
  repeat (apply elem_of_cons in Hv as [->|Hv]);
    [by eexists; vm_compute..|by apply elem_of_nil in Hv].
Qed.

Lemma findBestFlightOptionsByAirportCodeToCityName_options_witness :
  let codes := in_city triangle "C" "C" (flights triangle) in
  (present (flights triangle) "A" ∨ codes = [] →
   ∃ out,
     findBestFlightOptionsByAirportCodeToCityName triangle "A" "C" "C" =
     Ok out ∧
     option_lines out = seqZ 1 (Z.of_nat (length codes)) ∧
     (codes = [] → out = [])) ∧
  (¬ present (flights triangle) "A" → codes ≠ [] →
   findBestFlightOptionsByAirportCodeToCityName triangle "A" "C" "C" =
   Err NotFound).
Proof.
  apply (findBestFlightOptionsByAirportCodeToCityName_options triangle).
  exact table_complete_triangle.
Defined.

(** X16: [findBestFlightOptionsByAirportNameToCityName] reports the name
    when no vertex has an airport of that name, and otherwise answers for
    the first vertex of that name in the vertex set. *)
Theorem findBestFlightOptionsByAirportNameToCityName_first_match
    (fms : FlightManagementSystem) (sourceName : string)
    (destinationCity destinationCountry : string) :
  table_complete fms →
  match head (named fms sourceName (flights fms)) with
  | None =>
      findBestFlightOptionsByAirportNameToCityName fms sourceName
        destinationCity destinationCountry = Ok [NoAirportLine sourceName]
  | Some s =>
      ∃ out,
        findBestFlightOptionsByAirportNameToCityName fms sourceName
          destinationCity destinationCountry = Ok out ∧
        findBestFlightOptionsByAirportCodeToCityName fms s
          destinationCity destinationCountry = Ok out ∧
        option_lines out =
        seqZ 1 (Z.of_nat (length (in_city fms destinationCity
                                    destinationCountry (flights fms))))
  end.
Proof.
  intros Htable. unfold findBestFlightOptionsByAirportNameToCityName.
  rewrite firstNamed_head by done. rewrite result_bind_Ok.
  destruct (head (named fms sourceName (flights fms))) as [s|] eqn:Hs;
    [|done].
  cbn [from_option negb].
  apply head_Some_elem_of, named_is_present in Hs.
  unfold findBestFlightOptionsByAirportCodeToCityName.
  rewrite cityCodes_fold by done. rewrite result_bind_Ok, app_nil_l.
  destruct (printOptions_to fms Htable s
              (in_city fms destinationCity destinationCountry (flights fms))
              (1, []) Hs) as (out & -> & Hout & _).
  { apply Forall_forall. intros c Hc. by eapply in_city_present. }
  exists out. by rewrite result_bind_Ok.
Qed.

Lemma table_complete_homonyms : table_complete homonyms.
Proof.
  intros v Hv. simpl in Hv.
  repeat (apply elem_of_cons in Hv as [->|Hv]);
    [by eexists; vm_compute..|by apply elem_of_nil in Hv].
Qed.

Lemma findBestFlightOptionsByAirportNameToCityName_first_match_witness :
  match head (named homonyms "Main" (flights homonyms)) with
  | None =>
      findBestFlightOptionsByAirportNameToCityName homonyms "Main" "R" "R" =
      Ok [NoAirportLine "Main"]
  | Some s =>
      ∃ out,
        findBestFlightOptionsByAirportNameToCityName homonyms "Main" "R" "R" =
        Ok out ∧
        findBestFlightOptionsByAirportCodeToCityName homonyms s "R" "R" =
        Ok out ∧
        option_lines out =
        seqZ 1 (Z.of_nat (length (in_city homonyms "R" "R" (flights homonyms))))
  end.
Proof.
  apply (findBestFlightOptionsByAirportNameToCityName_first_match homonyms).
  exact table_complete_homonyms.
Defined.

(** With two airports of one name, the query between names starts from the
    last of them, the query from a name to a city from the first. *)
Example homonyms_resolved_differently :
  findBestFlightOptionsByAirportName homonyms "Main" "Other" =
  Ok [RouteLine "Q" "Main" "R" "Other" ["Y"]] ∧
  findBestFlightOptionsByAirportNameToCityName homonyms "Main" "R" "R" =
  Ok [OptionLine 1; RouteLine "P" "Main" "R" "Other" ["X"]; EmptyLine].
Proof. split; by vm_compute. Qed.

(** X17: [findBestFlightOptionsByCity] prints one option per pair of a
    vertex lying in the source city and a vertex lying in the destination
    city, numbered from 1, and nothing when either city has no vertex. *)
Theorem findBestFlightOptionsByCity_options (fms : FlightManagementSystem)
    (sourceCity sourceCountry destinationCity destinationCountry : string) :
  table_complete fms →
  let sources := in_city fms sourceCity sourceCountry (flights fms) in
  let destinations :=
    in_city fms destinationCity destinationCountry (flights fms) in
  ∃ out,
    findBestFlightOptionsByCity fms sourceCity sourceCountry
      destinationCity destinationCountry = Ok out ∧
    option_lines out =
    seqZ 1 (Z.of_nat (length sources * length destinations)) ∧
    (sources = [] ∨ destinations = [] → out = []).
Proof.
  intros Htable sources destinations. unfold findBestFlightOptionsByCity.
  rewrite cityCodes_fold2 by done. rewrite result_bind_Ok. cbn [fst snd].
  rewrite !app_nil_l. fold sources destinations.
  destruct (printOptions_grid fms Htable sources destinations (1, []))
    as (out & -> & Hout & Hnil).
  - apply Forall_forall. intros c Hc. by eapply in_city_present.
  - apply Forall_forall. intros c Hc. by eapply in_city_present.
  - exists out. by rewrite result_bind_Ok.
Qed.

Lemma findBestFlightOptionsByCity_options_witness :
  let sources := in_city triangle "A" "A" (flights triangle) in
  let destinations := in_city triangle "C" "C" (flights triangle) in
  ∃ out,
    findBestFlightOptionsByCity triangle "A" "A" "C" "C" = Ok out ∧
    option_lines out =
    seqZ 1 (Z.of_nat (length sources * length destinations)) ∧
    (sources = [] ∨ destinations = [] → out = []).
Proof.
  apply (findBestFlightOptionsByCity_options triangle).
  exact table_complete_triangle.
Defined.

(** ** Queries by coordinates *)

Lemma filter_none {A} (P : A → Prop) `{!∀ x, Decision (P x)} (l : list A) :
  Forall (λ x, ¬ P x) l → filter P l = [].
Proof.
  induction 1 as [|x l Hx _ IH]; [done|]. by rewrite filter_cons_False.
Qed.

Lemma filter_agree {A} (P Q : A → Prop)
    `{!∀ x, Decision (P x), !∀ x, Decision (Q x)} (l : list A) :
  (∀ x, x ∈ l → (P x ↔ Q x)) → filter P l = filter Q l.
Proof.
  induction l as [|x l IH]; intros Hl; [done|].
  rewrite !filter_cons, IH by (intros; apply Hl; by right).
  apply decide_ext. apply Hl. by left.
Qed.

Lemma filter_fmap_comm {A B} (f : A → B) (P : B → Prop)
    `{!∀ x, Decision (P x)} (l : list A) :
  filter P (f <$> l) = f <$> filter (λ x, P (f x)) l.
Proof.
  induction l as [|x l IH]; [done|].
  rewrite fmap_cons, !filter_cons, IH. by case_decide.
Qed.

Section Nearest.
Context (haversineDistance : Airport → Z) (fms : FlightManagementSystem).
Hypothesis Htable : table_complete fms.
Hypothesis Hint : int_distances haversineDistance fms.

Local Abbreviation num :=
  (λ v : Vertex, haversineDistance (airport_of fms (info v))).

Lemma setNums_of :
  setNums haversineDistance fms = Ok ((λ v, (v, num v)) <$> flights fms).
Proof.
  unfold setNums. revert Htable. unfold table_complete.
  induction (flights fms) as [|v vs IH]; intros Hvs; [done|].
  cbn [mapM]. rewrite airport_at_of by (apply Hvs; left).
  rewrite result_bind_Ok. change (mret ?x ≫= ?f) with (f x). cbv beta.
  rewrite IH by (intros; apply Hvs; by right). done.
Qed.

(** After any number of vertices the second loop holds the least distance
    seen and the codes of the vertices seen at that distance. *)
Lemma nearest_fold (l : list (Vertex * Z)) :
  Forall (λ x, x.2 ≤ INT_MAX) l →
  (foldl nearestStep (INT_MAX, []) l).1 ≤ INT_MAX ∧
  Forall (λ x, (foldl nearestStep (INT_MAX, []) l).1 ≤ x.2) l ∧
  (l = [] ∧ (foldl nearestStep (INT_MAX, []) l).1 = INT_MAX ∨
   ∃ x, x ∈ l ∧ x.2 = (foldl nearestStep (INT_MAX, []) l).1) ∧
  (foldl nearestStep (INT_MAX, []) l).2 =
  (λ x, info x.1) <$>
    filter (λ x, x.2 = (foldl nearestStep (INT_MAX, []) l).1) l.
Proof.
  induction l as [|x l IH] using rev_ind; intros Hl.
  { cbn. split; [done|]. split; [done|]. split; [by left|done]. }
  apply Forall_app in Hl as [Hl Hx]. rewrite Forall_singleton in Hx.
  destruct (IH Hl) as (Hle & Hlow & Hatt & Hcodes). clear IH.
  rewrite foldl_app. cbn [foldl].
  destruct (foldl nearestStep (INT_MAX, []) l) as [m codes].
  cbn [fst snd] in *. unfold nearestStep. cbn [fst snd].
  case_bool_decide as Hlt; [|case_bool_decide as Heq]; cbn [fst snd].
  - split; [lia|]. split; [|split].
    + apply Forall_app. split; [|by apply Forall_singleton].
      eapply Forall_impl; [exact Hlow|]. simpl. intros; lia.
    + right. exists x. split; [|done]. apply elem_of_app. right. by left.
    + rewrite filter_app, filter_cons_True, filter_nil by done.
      rewrite filter_none; [done|].
      eapply Forall_impl; [exact Hlow|]. simpl. intros; lia.
  - split; [done|]. split; [|split].
    + apply Forall_app. split; [done|]. apply Forall_singleton. lia.
    + right. exists x. split; [|done]. apply elem_of_app. right. by left.
    + rewrite filter_app, filter_cons_True, filter_nil, fmap_app by done.
      by rewrite Hcodes.
  - split; [done|]. split; [|split].
    + apply Forall_app. split; [done|]. apply Forall_singleton. lia.
    + destruct Hatt as [[_ ->]|(z & Hz & Hzm)]; [lia|].
      right. exists z. split; [|done]. apply elem_of_app. by left.
    + rewrite filter_app, filter_cons_False, filter_nil, app_nil_r by done.
      done.
Qed.

Lemma nearestAirports_closest :
  nearestAirports haversineDistance fms = Ok (closest haversineDistance fms) ∧
  (flights fms ≠ [] → closest haversineDistance fms ≠ []).
Proof.
  unfold nearestAirports. rewrite setNums_of, result_bind_Ok.
  set (l := (λ v, (v, num v)) <$> flights fms).
  destruct (nearest_fold l) as (_ & Hlow & Hatt & Hcodes).
  { apply Forall_fmap, Forall_forall. intros v Hv. by apply Hint. }
  set (m := (foldl nearestStep (INT_MAX, []) l).1) in *.
  assert (∀ v, v ∈ flights fms →
            (num v = m ↔ Forall (λ w, num v ≤ num w) (flights fms)))
    as Hmin.
  { intros v Hv. split.
    - intros Hm. apply Forall_forall. intros w Hw.
      rewrite Forall_forall in Hlow.
      specialize (Hlow (w, num w)). cbn [snd] in Hlow. rewrite Hm.
      apply Hlow. subst l. apply list_elem_of_fmap. by exists w.
    - intros Hall. rewrite Forall_forall in Hall.
      destruct Hatt as [[Hnil _]|([w n] & Hw & Hwm)].
      { subst l. apply fmap_nil_inv in Hnil. rewrite Hnil in Hv.
        by apply elem_of_nil in Hv. }
      subst l. apply list_elem_of_fmap in Hw as (w' & [= -> ->] & Hw').
      cbn [snd] in Hwm. specialize (Hall w' Hw').
      rewrite Forall_forall in Hlow.
      specialize (Hlow (v, num v)). cbn [snd] in Hlow.
      assert (m ≤ haversineDistance (airport_of fms (info v))); [|lia].
      apply Hlow. apply list_elem_of_fmap. by exists v. }
  assert ((foldl nearestStep (INT_MAX, []) l).2 =
          closest haversineDistance fms) as Hclosest.
  { rewrite Hcodes. unfold closest. subst l.
    rewrite filter_fmap_comm, <- list_fmap_compose.
    change ((λ x : Vertex * Z, info x.1) ∘ (λ v, (v, num v))) with info.
    f_equal. apply filter_agree. intros v Hv. cbn. by apply Hmin. }
  split; [by rewrite Hclosest|].
  intros Hne. destruct Hatt as [[Hnil _]|([w n] & Hw & Hwm)].
  { subst l. by apply fmap_nil_inv in Hnil. }
  subst l. apply list_elem_of_fmap in Hw as (w' & [= -> ->] & Hw').
  cbn [snd] in Hwm. unfold closest.
  intros Hnil%fmap_nil_inv.
  pose proof (filter_nil_not_elem_of _ _ w' Hnil) as Hnot.
  apply Hnot; [by apply Hmin|done].
Qed.

Lemma closest_present c :
  c ∈ closest haversineDistance fms → present (flights fms) c.
Proof.
  unfold closest. intros (v & -> & Hv)%list_elem_of_fmap.
  apply list_elem_of_filter in Hv as [_ Hv]. by apply vertex_present.
Qed.

End Nearest.

(** X18: the two loops that open the queries by coordinates select the
    codes of the vertices at the least distance from the position, in the
    order of the vertex set; at least one when the graph has a vertex. *)
Theorem nearestAirports_least_distance (haversineDistance : Airport → Z)
    (fms : FlightManagementSystem) :
  table_complete fms → int_distances haversineDistance fms →
  ∃ min,
    nearestAirports haversineDistance fms = Ok min ∧
    min `sublist_of` (info <$> flights fms) ∧
    (flights fms ≠ [] → min ≠ []) ∧
    ∀ c, c ∈ min ↔
         ∃ v, v ∈ flights fms ∧ info v = c ∧
              ∀ w, w ∈ flights fms →
                   haversineDistance (airport_of fms (info v)) ≤
                   haversineDistance (airport_of fms (info w)).
Proof.
  intros Htable Hint.
  destruct (nearestAirports_closest haversineDistance fms Htable Hint)
    as [Hok Hne].
  exists (closest haversineDistance fms). split; [done|].
  split; [|split; [done|]].
  - unfold closest. apply fmap_sublist, sublist_filter.
  - intros c. unfold closest. rewrite list_elem_of_fmap. split.
    + intros (v & -> & Hv). apply list_elem_of_filter in Hv as [Hall Hv].
      exists v. split; [done|]. split; [done|].
      by apply Forall_forall.
    + intros (v & Hv & <- & Hall). exists v. split; [done|].
      apply list_elem_of_filter. split; [|done]. by apply Forall_forall.
Qed.

Lemma int_distances_toward_C : int_distances toward_C triangle.
Proof.
  intros v Hv. simpl in Hv.
  repeat (apply elem_of_cons in Hv as [->|Hv]);
    [by vm_compute..|by apply elem_of_nil in Hv].
Qed.

Lemma nearestAirports_least_distance_witness :
  ∃ min,
    nearestAirports toward_C triangle = Ok min ∧
    min `sublist_of` (info <$> flights triangle) ∧
    (flights triangle ≠ [] → min ≠ []) ∧
    ∀ c, c ∈ min ↔
         ∃ v, v ∈ flights triangle ∧ info v = c ∧
              ∀ w, w ∈ flights triangle →
                   toward_C (airport_of triangle (info v)) ≤
                   toward_C (airport_of triangle (info w)).
Proof.
  apply (nearestAirports_least_distance toward_C triangle).
  - exact table_complete_triangle.
  - exact int_distances_toward_C.
Defined.

(** X19: [findBestFlightOptionsByAirportCodeToCoordinates] prints one
    option per closest vertex, numbered from 1, when the source code has a
    vertex; otherwise it fails, unless the graph has no vertex at all. *)
Theorem findBestFlightOptionsByAirportCodeToCoordinates_options
    (haversineDistance : Airport → Z) (fms : FlightManagementSystem)
    (source : string) :
  table_complete fms → int_distances haversineDistance fms →
  (present (flights fms) source →
   ∃ out,
     findBestFlightOptionsByAirportCodeToCoordinates haversineDistance fms
       source = Ok out ∧
     option_lines out =
     seqZ 1 (Z.of_nat (length (closest haversineDistance fms))) ∧
     option_lines out ≠ []) ∧
  (¬ present (flights fms) source →
   findBestFlightOptionsByAirportCodeToCoordinates haversineDistance fms
     source = if flights fms is [] then Ok [] else Err NotFound).
Proof.
  intros Htable Hint.
  destruct (nearestAirports_closest haversineDistance fms Htable Hint)
    as [Hok Hne].
  unfold findBestFlightOptionsByAirportCodeToCoordinates.
  rewrite Hok, result_bind_Ok. split.
  - intros Hs.
    destruct (printOptions_to fms Htable source
                (closest haversineDistance fms) (1, []) Hs)
      as (out & -> & Hout & _).
    { apply Forall_forall. intros c Hc. by eapply closest_present. }
    exists out. rewrite result_bind_Ok. split; [done|]. split; [done|].
    rewrite Hout. cbn [snd option_lines omap app].
    destruct (closest haversineDistance fms) as [|c cs] eqn:Hc.
    + destruct Hne; [|done]. intros Hnil. destruct Hs as [v Hv].
      apply findVertex_elem_of in Hv. rewrite Hnil in Hv.
      by apply elem_of_nil in Hv.
    + cbn [length]. rewrite Nat2Z.inj_succ, seqZ_cons by lia. done.
  - intros Hs. destruct (decide (flights fms = [])) as [Hg|Hg].
    + unfold closest. rewrite Hg. done.
    + replace (if flights fms is [] then Ok [] else Err NotFound)
        with (@Err (list Output) NotFound) by (by destruct (flights fms)).
      destruct (closest haversineDistance fms) as [|c cs]; [by destruct Hne|].
      rewrite foldM_cons, printOption_absent by tauto. done.
Qed.

Lemma findBestFlightOptionsByAirportCodeToCoordinates_options_witness :
  (present (flights triangle) "A" →
   ∃ out,
     findBestFlightOptionsByAirportCodeToCoordinates toward_C triangle "A" =
     Ok out ∧
     option_lines out = seqZ 1 (Z.of_nat (length (closest toward_C triangle))) ∧
     option_lines out ≠ []) ∧
  (¬ present (flights triangle) "A" →
   findBestFlightOptionsByAirportCodeToCoordinates toward_C triangle "A" =
   if flights triangle is [] then Ok [] else Err NotFound).
Proof.
  apply (findBestFlightOptionsByAirportCodeToCoordinates_options
           toward_C triangle "A").
  - exact table_complete_triangle.
  - exact int_distances_toward_C.
Defined.

(** X20: [findBestFlightOptionsByCoordinates] prints [No Code available]
    when the destination code is not a key of the airports table, and one
    option per closest vertex when the destination has a vertex; a
    destination of the table without a vertex passes the check and the
    search then fails. *)
Theorem findBestFlightOptionsByCoordinates_guard
    (haversineDistance : Airport → Z) (fms : FlightManagementSystem)
    (destination : string) :
  table_complete fms → int_distances haversineDistance fms →
  (airports fms !! destination = None →
   findBestFlightOptionsByCoordinates haversineDistance fms destination =
   Ok [NoCodeLine]) ∧
  (present (flights fms) destination →
   ∃ out,
     findBestFlightOptionsByCoordinates haversineDistance fms destination =
     Ok out ∧
     option_lines out =
     seqZ 1 (Z.of_nat (length (closest haversineDistance fms)))) ∧
  (is_Some (airports fms !! destination) →
   ¬ present (flights fms) destination → flights fms ≠ [] →
   findBestFlightOptionsByCoordinates haversineDistance fms destination =
   Err NotFound).
Proof.
  intros Htable Hint.
  destruct (nearestAirports_closest haversineDistance fms Htable Hint)
    as [Hok Hne].
  unfold findBestFlightOptionsByCoordinates.
  rewrite Hok, result_bind_Ok. split; [|split].
  - intros Hnone. by rewrite decide_True.
  - intros Hd. pose proof (present_in_table fms Htable destination Hd) as Hin.
    rewrite decide_False by (intros Hnone; rewrite Hnone in Hin;
                             by destruct Hin).
    destruct (printOptions_from fms Htable (closest haversineDistance fms)
                destination (1, [])) as (out & -> & Hout & _); [|done|].
    { apply Forall_forall. intros c Hc. by eapply closest_present. }
    exists out. by rewrite result_bind_Ok.
  - intros Hin Hd Hg.
    rewrite decide_False by (intros Hnone; rewrite Hnone in Hin;
                             by destruct Hin).
    destruct (closest haversineDistance fms) as [|c cs]; [by destruct Hne|].
    rewrite foldM_cons, printOption_absent by tauto. done.
Qed.

Lemma findBestFlightOptionsByCoordinates_guard_witness :
  (airports triangle !! "C" = None →
   findBestFlightOptionsByCoordinates toward_C triangle "C" =
   Ok [NoCodeLine]) ∧
  (present (flights triangle) "C" →
   ∃ out,
     findBestFlightOptionsByCoordinates toward_C triangle "C" = Ok out ∧
     option_lines out = seqZ 1 (Z.of_nat (length (closest toward_C triangle)))) ∧
  (is_Some (airports triangle !! "C") →
   ¬ present (flights triangle) "C" → flights triangle ≠ [] →
   findBestFlightOptionsByCoordinates toward_C triangle "C" = Err NotFound).
Proof.
  apply (findBestFlightOptionsByCoordinates_guard toward_C triangle "C").
  - exact table_complete_triangle.
  - exact int_distances_toward_C.
Defined.

(** ** Flights per airline *)

Lemma sumZ_Permutation (l1 l2 : list Z) : l1 ≡ₚ l2 → sumZ l1 = sumZ l2.
Proof. unfold sumZ. induction 1; cbn [foldr] in *; lia. Qed.

Lemma code_le_total : Total code_le.
Proof. intros x y. apply String.leb_total. Qed.

Section PerAirline.

Local Abbreviation total := (λ m : gmap string Z, sumZ (map_to_list m).*2).

Local Abbreviation count_in :=
  (λ (a : string) (es : list Edge),
     Z.of_nat (length (filter (λ e, airline e = a) es))).

Lemma total_countFlight (m : gmap string Z) (e : Edge) :
  total (countFlight m e) = total m + 1.
Proof.
  unfold countFlight. destruct (m !! airline e) as [n|] eqn:Hm; cbn [default].
  - rewrite <- insert_delete_eq.
    rewrite (sumZ_Permutation _ _
      (fmap_Permutation snd _ _ (map_to_list_insert (delete (airline e) m)
         (airline e) (n + 1) (lookup_delete_eq m (airline e))))).
    rewrite <- (sumZ_Permutation _ _
      (fmap_Permutation snd _ _ (map_to_list_delete m (airline e) n Hm))).
    rewrite !fmap_cons. unfold sumZ. cbn [foldr snd]. lia.
  - rewrite (sumZ_Permutation _ _
      (fmap_Permutation snd _ _ (map_to_list_insert m (airline e) (0 + 1) Hm))).
    rewrite fmap_cons. unfold sumZ. cbn [foldr snd]. lia.
Qed.

Lemma total_foldl (es : list Edge) (m : gmap string Z) :
  total (foldl countFlight m es) = total m + Z.of_nat (length es).
Proof.
  revert m. induction es as [|e es IH]; intros m; cbn [foldl length].
  - lia.
  - rewrite IH, total_countFlight. lia.
Qed.

Lemma lookup_foldl_countFlight (es : list Edge) (m : gmap string Z) a :
  foldl countFlight m es !! a =
  if decide (count_in a es = 0) then m !! a
  else Some (default 0 (m !! a) + count_in a es).
Proof.
  revert m. induction es as [|e es IH]; intros m.
  { cbn. done. }
  cbn [foldl]. rewrite IH. unfold countFlight at 1 2.
  rewrite filter_cons. destruct (decide (airline e = a)) as [->|Hne].
  - rewrite lookup_insert_eq. cbn [length default]. unfold id.
    repeat case_decide; try lia; f_equal; lia.
  - rewrite lookup_insert_ne by done. done.
Qed.

Lemma foldl_vertices (g : Graph) (m : gmap string Z) :
  foldl (λ m vertex, foldl countFlight m (adj vertex)) m g =
  foldl countFlight m (g ≫= adj).
Proof.
  revert m. induction g as [|v g IH]; intros m; [done|].
  cbn [foldl]. rewrite IH. change ((v :: g) ≫= adj) with (adj v ++ g ≫= adj).
  by rewrite foldl_app.
Qed.

Lemma getGlobalNumberOfFlights_edges fms :
  getGlobalNumberOfFlights fms = Z.of_nat (length (flights fms ≫= adj)).
Proof.
  unfold getGlobalNumberOfFlights.
  assert (∀ c, foldl (λ count vertex, count + Graph.getOutdegree vertex) c
                     (flights fms) =
               c + Z.of_nat (length (flights fms ≫= adj))) as Hc;
    [|by rewrite Hc].
  induction (flights fms) as [|v g IH]; intros c; cbn [foldl].
  - cbn. lia.
  - rewrite IH. change ((v :: g) ≫= adj) with (adj v ++ g ≫= adj).
    rewrite length_app. unfold Graph.getOutdegree. lia.
Qed.

End PerAirline.

Lemma airline_at_of fms c :
  is_Some (fms_airlines fms !! c) → airline_at fms c = Ok (airline_of fms c).
Proof. intros [a Ha]. unfold airline_at, airline_of. by rewrite Ha. Qed.

Lemma mapM_airline_lines fms (l : list (string * Z)) :
  (∀ p, p ∈ l → is_Some (fms_airlines fms !! p.1)) →
  mapM (λ pair, a ← airline_at fms pair.1;
                mret (pair.1, airline_name a, pair.2)) l =
  Ok ((λ p, (p.1, airline_name (airline_of fms p.1), p.2)) <$> l).
Proof.
  induction l as [|p l IH]; intros Hl; [done|].
  cbn [mapM]. rewrite airline_at_of by (apply Hl; left).
  rewrite result_bind_Ok. change (mret ?x ≫= ?f) with (f x). cbv beta.
  rewrite IH by (intros; apply Hl; by right). done.
Qed.

(** X21: when every airline of an edge is in the airlines table,
    [numberOfFlightsPerAirline] prints, in increasing order of the codes
    and once each, the airlines that operate at least one edge, each with
    its number of edges, and these numbers add up to
    [getGlobalNumberOfFlights]. *)
Theorem numberOfFlightsPerAirline_adds_up (fms : FlightManagementSystem) :
  airlines_complete fms →
  ∃ lines,
    numberOfFlightsPerAirline fms = Ok lines ∧
    Sorted (λ x y, String.leb x.1.1 y.1.1 = true) lines ∧
    NoDup (lines.*1.*1) ∧
    (∀ a nm n, (a, nm, n) ∈ lines ↔
               0 < n ∧ n = flights_of (flights fms) a ∧
               nm = airline_name (airline_of fms a)) ∧
    sumZ (lines.*2) = getGlobalNumberOfFlights fms.
Proof.
  intros Hcomplete. unfold numberOfFlightsPerAirline. cbv zeta.
  rewrite foldl_vertices.
  set (m := foldl countFlight ∅ (flights fms ≫= adj)).
  assert (∀ a, m !! a = if decide (flights_of (flights fms) a = 0) then None
                        else Some (flights_of (flights fms) a)) as Hm.
  { intros a. subst m. rewrite lookup_foldl_countFlight, lookup_empty.
    unfold flights_of. case_decide; [done|]. cbn [default]. done. }
  assert (∀ p, p ∈ in_key_order m ↔ m !! p.1 = Some p.2) as Hin.
  { intros [a n]. unfold in_key_order.
    rewrite merge_sort_Permutation. apply elem_of_map_to_list. }
  rewrite mapM_airline_lines.
  2:{ intros [a n] Hp%Hin. cbn [fst snd] in *. rewrite Hm in Hp.
      case_decide as Hz; [done|]. unfold flights_of in Hz.
      destruct (filter (λ e, airline e = a) (flights fms ≫= adj))
        as [|e es] eqn:Hf; [done|].
      assert (e ∈ filter (λ e, airline e = a) (flights fms ≫= adj)) as He
        by (rewrite Hf; left).
      apply list_elem_of_filter in He as [<- He].
      apply list_elem_of_bind in He as (v & He & Hv). by eapply Hcomplete. }
  eexists. split; [done|]. split; [|split; [|split]].
  - apply (Sorted_fmap _ code_le); [done|].
    apply (@Sorted_merge_sort _ code_le _ code_le_total).
  - rewrite <- !list_fmap_compose. unfold in_key_order.
    change (fst ∘ fst ∘ (λ p : string * Z,
              (p.1, airline_name (airline_of fms p.1), p.2)))
      with (@fst string Z).
    rewrite merge_sort_Permutation. apply NoDup_fst_map_to_list.
  - intros a nm n. rewrite list_elem_of_fmap. split.
    + intros ([a' n'] & [= -> -> ->] & Hp%Hin). cbn [fst snd] in *.
      rewrite Hm in Hp. case_decide as Hz; [done|]. injection Hp as <-.
      unfold flights_of in *. split; [lia|done].
    + intros (Hpos & -> & ->). exists (a, flights_of (flights fms) a).
      split; [done|]. apply Hin. cbn [fst snd]. rewrite Hm.
      by rewrite decide_False by lia.
  - rewrite <- list_fmap_compose. unfold in_key_order.
    change (snd ∘ (λ p : string * Z,
              (p.1, airline_name (airline_of fms p.1), p.2)))
      with (@snd string Z).
    rewrite (sumZ_Permutation _ _
      (fmap_Permutation snd _ _ (merge_sort_Permutation code_le _))).
    subst m. rewrite total_foldl, map_to_list_empty.
    rewrite getGlobalNumberOfFlights_edges. cbn. lia.
Qed.

Lemma airlines_complete_triangle : airlines_complete triangle_airlines.
Proof.
  intros v e Hv He. simpl in Hv.
  repeat (apply elem_of_cons in Hv as [->|Hv]);
    [simpl in He..|by apply elem_of_nil in Hv];
    repeat (apply elem_of_cons in He as [->|He]);
    try (by apply elem_of_nil in He); by eexists; vm_compute.
Qed.

Lemma numberOfFlightsPerAirline_adds_up_witness :
  ∃ lines,
    numberOfFlightsPerAirline triangle_airlines = Ok lines ∧
    Sorted (λ x y, String.leb x.1.1 y.1.1 = true) lines ∧
    NoDup (lines.*1.*1) ∧
    (∀ a nm n, (a, nm, n) ∈ lines ↔
               0 < n ∧ n = flights_of (flights triangle_airlines) a ∧
               nm = airline_name (airline_of triangle_airlines a)) ∧
    sumZ (lines.*2) = getGlobalNumberOfFlights triangle_airlines.
Proof.
  apply (numberOfFlightsPerAirline_adds_up triangle_airlines).
  exact airlines_complete_triangle.
Defined.

(** The lines printed for the triangle. *)
Example numberOfFlightsPerAirline_triangle :
  numberOfFlightsPerAirline triangle_airlines =
  Ok [("X", "Xenon Air", 2); ("Y", "Yonder Air", 1)] ∧
  getGlobalNumberOfFlights triangle_airlines = 3.
Proof. split; by vm_compute. Qed.

(** ** The lines of a list of itineraries *)

Lemma printRoute_of fms route :
  is_Some (airports fms !! source route) →
  is_Some (airports fms !! target route) →
  printRoute fms route = Ok [route_line fms route].
Proof.
  intros Hs Ht. unfold printRoute. by rewrite !airport_at_of.
Qed.

Lemma printFlight_of fms (flight : list Route) :
  Forall (λ route, is_Some (airports fms !! source route) ∧
                   is_Some (airports fms !! target route)) flight →
  ∃ lines, mapM (printRoute fms) flight = Ok lines ∧
           mjoin lines = route_line fms <$> flight.
Proof.
  induction 1 as [|route flight [Hs Ht] _ (lines & Hlines & Hjoin)].
  { by exists []. }
  exists ([route_line fms route] :: lines). cbn [mapM].
  rewrite (printRoute_of fms route Hs Ht), result_bind_Ok, Hlines.
  split; [done|]. by rewrite fmap_cons, <- Hjoin.
Qed.

Lemma filter_route_lines fms (P : Output → Prop) `{!∀ o, Decision (P o)}
    (flight : list Route) :
  (∀ route, P (route_line fms route)) →
  filter P (route_line fms <$> flight) = route_line fms <$> flight.
Proof.
  intros HP. induction flight as [|route flight IH]; [done|].
  rewrite fmap_cons, filter_cons_True by done. by rewrite IH.
Qed.

(** X22: when the airports of all routes are in the airports table, the
    loop that prints a list of itineraries writes one line per route, in
    order, and [Or...] one time less than there are itineraries. *)
Theorem printItineraries_lines (fms : FlightManagementSystem)
    (vec : list (list Route)) :
  routes_in_table fms vec →
  ∃ shown,
    printItineraries fms vec = Ok shown ∧
    filter (λ o, o ≠ OrLine) shown = route_line fms <$> mjoin vec ∧
    length (filter (λ o, o = OrLine) shown) = pred (length vec).
Proof.
  induction 1 as [|flight rest Hflight Hrest (more & Hmore & Hr & Ho)].
  { by exists []. }
  destruct (printFlight_of fms flight Hflight) as (lines & Hlines & Hjoin).
  eexists. cbn [printItineraries].
  rewrite Hlines, result_bind_Ok, Hmore, result_bind_Ok. split; [done|].
  rewrite Hjoin. rewrite !filter_app.
  rewrite (filter_route_lines fms (λ o, o ≠ OrLine)) by done.
  rewrite (filter_none (λ o, o = OrLine) (route_line fms <$> flight))
    by (apply Forall_fmap, Forall_forall; done).
  rewrite Hr. cbn [mjoin list_join app length]. rewrite fmap_app.
  destruct rest as [|flight' rest].
  - cbn in Hmore. injection Hmore as <-. by rewrite !filter_nil.
  - rewrite filter_cons_False, filter_cons_True, !filter_nil by naive_solver.
    split; [done|]. cbn [app length] in *. lia.
Qed.

Lemma printItineraries_lines_witness :
  ∃ shown,
    printItineraries triangle
      [[mkRoute "A" "B" ["X"]; mkRoute "B" "C" ["Y"]]; [mkRoute "A" "C" ["X"]]]
    = Ok shown ∧
    filter (λ o, o ≠ OrLine) shown =
    route_line triangle <$>
      mjoin [[mkRoute "A" "B" ["X"]; mkRoute "B" "C" ["Y"]];
             [mkRoute "A" "C" ["X"]]] ∧
    length (filter (λ o, o = OrLine) shown) =
    pred (length [[mkRoute "A" "B" ["X"]; mkRoute "B" "C" ["Y"]];
                  [mkRoute "A" "C" ["X"]]]).
Proof.
  apply (printItineraries_lines triangle).
  unfold routes_in_table. apply (bool_decide_unpack _). by vm_compute.
Defined.

(** ** From a city to coordinates *)

Section CityToCoordinates.
Context (haversineDistance : Airport → Z) (fms : FlightManagementSystem).
Hypothesis Htable : table_complete fms.
Hypothesis Hint : int_distances haversineDistance fms.

Lemma byCodeToCoordinates_present source :
  present (flights fms) source →
  ∃ out,
    findBestFlightOptionsByAirportCodeToCoordinates haversineDistance fms
      source = Ok out ∧
    option_lines out =
    seqZ 1 (Z.of_nat (length (closest haversineDistance fms))).
Proof.
  intros Hs.
  destruct (nearestAirports_closest haversineDistance fms Htable Hint)
    as [Hok _].
  unfold findBestFlightOptionsByAirportCodeToCoordinates.
  rewrite Hok, result_bind_Ok.
  destruct (printOptions_to fms Htable source
              (closest haversineDistance fms) (1, []) Hs)
    as (out & -> & Hout & _).
  { apply Forall_forall. intros c Hc. by eapply closest_present. }
  exists out. by rewrite result_bind_Ok.
Qed.

Lemma byCityToCoordinates_fold ss st :
  Forall (present (flights fms)) ss →
  ∃ out,
    foldM (λ st source,
             shown ← findBestFlightOptionsByAirportCodeToCoordinates
                       haversineDistance fms source;
             mret (st.1 + 1, st.2 ++ [OptionLine st.1] ++ shown)) st ss =
    Ok (st.1 + Z.of_nat (length ss), out) ∧
    option_lines out =
    option_lines st.2 ++
    mjoin ((λ k, k :: seqZ 1 (Z.of_nat (length (closest haversineDistance fms))))
             <$> seqZ st.1 (Z.of_nat (length ss))).
Proof.
  intros Hss. revert st. induction Hss as [|s ss Hs _ IH]; intros st.
  { exists st.2. cbn [foldM length]. rewrite Z.add_0_r.
    cbn. rewrite app_nil_r. by destruct st. }
  destruct (byCodeToCoordinates_present s Hs) as (shown & Hshown & Hopt).
  rewrite foldM_cons, Hshown, result_bind_Ok.
  change (mret ?x ≫= ?f) with (f x). cbv beta.
  destruct (IH (st.1 + 1, st.2 ++ [OptionLine st.1] ++ shown))
    as (out & -> & Hout).
  exists out. cbn [fst snd length] in *. rewrite Nat2Z.inj_succ.
  split; [f_equal; f_equal; lia|].
  rewrite Hout, !option_lines_app, Hopt, (seqZ_cons st.1) by lia.
  rewrite Z.pred_succ, fmap_cons, <- app_assoc. done.
Qed.

End CityToCoordinates.

(** X23: [findBestFlightOptionsByCityToCoordinates] numbers the vertices
    of the source city from 1, and under each of these headers the query
    from that vertex numbers the closest vertices from 1 again. *)
Theorem findBestFlightOptionsByCityToCoordinates_headers
    (haversineDistance : Airport → Z) (fms : FlightManagementSystem)
    (sourceCity sourceCountry : string) :
  table_complete fms → int_distances haversineDistance fms →
  ∃ out,
    findBestFlightOptionsByCityToCoordinates haversineDistance fms
      sourceCity sourceCountry = Ok out ∧
    option_lines out =
    mjoin ((λ k, k :: seqZ 1 (Z.of_nat (length (closest haversineDistance fms))))
             <$> seqZ 1 (Z.of_nat (length (in_city fms sourceCity sourceCountry
                                             (flights fms))))).
Proof.
  intros Htable Hint. unfold findBestFlightOptionsByCityToCoordinates.
  rewrite cityCodes_fold by done. rewrite result_bind_Ok, app_nil_l.
  destruct (byCityToCoordinates_fold haversineDistance fms Htable Hint
              (in_city fms sourceCity sourceCountry (flights fms)) (1, []))
    as (out & -> & Hout).
  { apply Forall_forall. intros c Hc. by eapply in_city_present. }
  exists out. by rewrite result_bind_Ok.
Qed.

Lemma findBestFlightOptionsByCityToCoordinates_headers_witness :
  ∃ out,
    findBestFlightOptionsByCityToCoordinates toward_C triangle "A" "A" =
    Ok out ∧
    option_lines out =
    mjoin ((λ k, k :: seqZ 1 (Z.of_nat (length (closest toward_C triangle))))
             <$> seqZ 1 (Z.of_nat (length (in_city triangle "A" "A"
                                             (flights triangle))))).
Proof.
  apply (findBestFlightOptionsByCityToCoordinates_headers toward_C triangle).
  - exact table_complete_triangle.
  - exact int_distances_toward_C.
Defined.

(** From the city of A towards C: the header of the only source and the
    header of the only closest airport carry the same number. *)
Example findBestFlightOptionsByCityToCoordinates_triangle :
  findBestFlightOptionsByCityToCoordinates toward_C triangle "A" "A" =
  Ok [OptionLine 1; OptionLine 1; RouteLine "A" "A" "C" "C" ["X"]; EmptyLine].
Proof. by vm_compute. Qed.
